(** * web-component: reactive store, event scheduler, subscriptions, templates

    A shallow embedding of the reactive core of the repository.  The sources
    hold three generations of one design:

    - [src/web-component.js], first document: [ProxyState] with a [WeakMap]
      of consumers (not modelled here); of its [StateManager], the lookup
      [#getState] is module [V1] and the references between components
      are module [Props];
    - [src/web-component.js], second document: [createObserver], [Template]
      with the [{key}] syntax and a [StateManager] with a public [subscribe]
      (modules [V2] and [V2Text] below);
    - [src/unnamed/part_000]: [createObserver] with the guard on
      function-valued writes, [Template] with the [${key}] syntax and
      [StateManager.#fillState] (modules [V3] and [V3State] below).

    The array handlers [push], [pop], [shift], [unshift], [splice] and [sort]
    are the same text in [V2] and [V3]; they live in module [Observer], and
    module [Proxy] has what a call of an array method on an observed array
    runs.  [defineElement], [CodeLoader.#resolve] and the constructor of
    [WebComponent], which the generations share, are modules [Elements],
    [Loader] and [Instances].

    Module [JS] has the values of the language as the code meets them:
    property lookup goes along the prototype chain, a write or a call can
    end by throwing, and an observer is a value that can be stored in the
    state like any other.  What the model leaves to the engine, the
    number that a string or an object converts to, is a parameter
    ([Engine]).  A consumer is a closure of the page: [Scheduler] takes
    what a call of it does, throwing included, as a parameter. *)

From Stdlib Require Import String Ascii List ZArith Lia Bool DecimalString.
From Stdlib Require DecimalNat DecimalFacts.
Import ListNotations.
Local Open Scope string_scope.
Local Open Scope list_scope.
Set Warnings "-register-all".

(** ** JavaScript values

    State trees hold primitives, functions, objects, arrays and observers.
    Numbers are the integers ([NaN], infinities and fractions are left
    out), a function is kept as its source text, objects are own-property
    lists in insertion order, arrays are their element lists (a hole reads
    as [undefined]).

    An observer is a [Proxy] made by [createObserver]: it knows its target
    and the path it was made for.  The code holds the target by reference;
    here the observer holds it as a value.  For what one call returns and
    emits that is the same thing; a state in which an object is reachable
    along two ways, or along a cycle, has no value here that keeps the
    ways in step.  Observers get into the state whenever an object read
    through an observer is written back into the state: [shift], [splice]
    and [sort] called on an observed list of objects read every element
    they move through the [get] trap, and write the observer they got.

    Properties are looked up along the prototype chain: an object literal
    inherits from [Object.prototype], an array from [Array.prototype] and
    then [Object.prototype], a primitive from the prototype of its
    wrapper.  The prototypes are the built-in ones, unmodified; their
    methods are functions whose source text reads
    [function name() { [native code] }].  Of a function the own properties
    ([name], [length], [prototype], [arguments], [caller]) are not
    modelled, and neither is a prototype put in the place of the built-in
    one, nor a getter or a setter defined by the page. *)
Module JS.

(** A path segment: trap handlers append the property key (a string), the
    array handlers append a number. *)
Inductive segment : Type :=
| Key (s : string)
| Index (n : Z).

Inductive value : Type :=
| VUndefined
| VNull
| VBool (b : bool)
| VNum (n : Z)
| VStr (s : string)
| VFun (src : string)
| VObj (props : list (string * value))
| VArr (items : list value)
| VProxy (target : value) (path : list segment).

(** How an operation of the language ends: normally, or with an
    exception thrown. *)
Inductive error : Type := Type_error | Range_error.

Inductive completion (A : Type) : Type :=
| Completes (a : A)
| Abrupt (e : error).

Arguments Completes {A}.
Arguments Abrupt {A}.

(** What the model leaves to the engine: [ToNumber] of a string, whose
    grammar has white space, signs, exponents and hexadecimal, octal and
    binary literals, and of an object or a function, which goes through
    their [valueOf] and [toString].  As far as the model has numbers: the
    integer that the value converts to, [None] when it converts to [NaN],
    to an infinity or to a fraction. *)
Class Engine : Type := { ToNumber : value -> option Z }.

(** [ToBoolean]: what [if (v)], [!v] and [v || w] test. *)
Definition truthy (v : value) : bool :=
  match v with
  | VUndefined | VNull => false
  | VBool b => b
  | VNum n => negb (n =? 0)%Z
  | VStr s => negb (s =? "")
  | VFun _ | VObj _ | VArr _ | VProxy _ _ => true
  end.

(** [v || w]. *)
Definition or_else (v w : value) : value := if truthy v then v else w.

(** [typeof v === 'function'] *)
Definition is_function (v : value) : bool :=
  match v with VFun _ => true | _ => false end.

(** [v !== undefined] *)
Definition is_defined (v : value) : bool :=
  match v with VUndefined => false | _ => true end.

(** [typeof v === 'object' && v !== null] *)
Definition is_object (v : value) : bool :=
  match v with VObj _ | VArr _ | VProxy _ _ => true | _ => false end.

(** The value is an observer. *)
Definition is_observer (v : value) : bool :=
  match v with VProxy _ _ => true | _ => false end.

(** [createObserver(v, emitEvent, path)] for an object [v], and [v]
    itself otherwise: what the [get] trap hands out. *)
Definition observe (v : value) (path : list segment) : value :=
  if is_object v then VProxy v path else v.

Definition string_of_Z (n : Z) : string := NilZero.string_of_int (Z.to_int n).
Definition string_of_nat (n : nat) : string := NilZero.string_of_uint (Nat.to_uint n).

(** [String(v)]; inside [Array.prototype.join] an [undefined] or [null]
    element is the empty string.  A number prints as its decimal digits,
    which is what [String] gives below [10^21]; an object prints through
    the [toString] it inherits, an observer as its target does. *)
Fixpoint ToString (v : value) : string :=
  match v with
  | VUndefined => "undefined"
  | VNull => "null"
  | VBool true => "true"
  | VBool false => "false"
  | VNum n => string_of_Z n
  | VStr s => s
  | VFun src => src
  | VObj _ => "[object Object]"
  | VArr items =>
      String.concat ","
        (map (fun x => match x with
                       | VUndefined | VNull => ""
                       | _ => ToString x
                       end) items)
  | VProxy target _ => ToString target
  end.


(** A property key is an array index when it is the canonical decimal
    form of a natural number. *)
Definition array_index (k : string) : option nat :=
  match NilZero.uint_of_string k with
  | Some u => let n := Nat.of_uint u in
              if string_of_nat n =? k then Some n else None
  | None => None
  end.

(** The own property [k] of a property list. *)
Fixpoint lookup (k : string) (props : list (string * value)) : option value :=
  match props with
  | [] => None
  | (k', v) :: rest => if k' =? k then Some v else lookup k rest
  end.

Fixpoint assign (k : string) (v : value) (props : list (string * value))
  : list (string * value) :=
  match props with
  | [] => [(k, v)]
  | (k', v') :: rest =>
      if k' =? k then (k', v) :: rest else (k', v') :: assign k v rest
  end.

Definition remove (k : string) (props : list (string * value))
  : list (string * value) :=
  filter (fun p => negb (fst p =? k)) props.

Fixpoint chars (s : string) : list value :=
  match s with
  | EmptyString => []
  | String c rest => VStr (String c EmptyString) :: chars rest
  end.

(** Own data property [k] of an object, array or string that is not an
    observer; [None] when there is none. *)
Definition own (o : value) (k : string) : option value :=
  match o with
  | VObj props => lookup k props
  | VArr items =>
      if k =? "length" then Some (VNum (Z.of_nat (List.length items)))
      else match array_index k with
           | Some i => nth_error items i
           | None => None
           end
  | VStr s =>
      if k =? "length" then Some (VNum (Z.of_nat (String.length s)))
      else match array_index k with
           | Some i => nth_error (chars s) i
           | None => None
           end
  | _ => None
  end.

(** *** The built-in prototypes *)

(** A built-in function, with the text that [String] shows for it in
    Node. *)
Definition native (name : string) : value :=
  VFun ("function " ++ name ++ "() { [native code] }").

(** Methods stored under their own name. *)
Definition methods (names : list string) : list (string * value) :=
  map (fun name => (name, native name)) names.

Definition Object_prototype : list (string * value) :=
  ("constructor", native "Object")
    :: methods ["__defineGetter__"; "__defineSetter__"; "hasOwnProperty";
                "__lookupGetter__"; "__lookupSetter__"; "isPrototypeOf";
                "propertyIsEnumerable"; "toString"; "valueOf";
                "toLocaleString"].

Definition Array_prototype : list (string * value) :=
  ("constructor", native "Array")
    :: methods ["at"; "concat"; "copyWithin"; "entries"; "every"; "fill";
                "filter"; "find"; "findIndex"; "findLast"; "findLastIndex";
                "flat"; "flatMap"; "forEach"; "includes"; "indexOf"; "join";
                "keys"; "lastIndexOf"; "map"; "pop"; "push"; "reduce";
                "reduceRight"; "reverse"; "shift"; "slice"; "some"; "sort";
                "splice"; "toLocaleString"; "toReversed"; "toSorted";
                "toSpliced"; "toString"; "unshift"; "values"; "with"].

Definition String_prototype : list (string * value) :=
  ("constructor", native "String")
    :: ("trimLeft", native "trimStart")
    :: ("trimRight", native "trimEnd")
    :: methods ["anchor"; "at"; "big"; "blink"; "bold"; "charAt";
                "charCodeAt"; "codePointAt"; "concat"; "endsWith"; "fixed";
                "fontcolor"; "fontsize"; "includes"; "indexOf";
                "isWellFormed"; "italics"; "lastIndexOf"; "link";
                "localeCompare"; "match"; "matchAll"; "normalize"; "padEnd";
                "padStart"; "repeat"; "replace"; "replaceAll"; "search";
                "slice"; "small"; "split"; "startsWith"; "strike"; "sub";
                "substr"; "substring"; "sup"; "toLocaleLowerCase";
                "toLocaleUpperCase"; "toLowerCase"; "toString";
                "toUpperCase"; "toWellFormed"; "trim"; "trimEnd";
                "trimStart"; "valueOf"].

Definition Number_prototype : list (string * value) :=
  ("constructor", native "Number")
    :: methods ["toExponential"; "toFixed"; "toLocaleString"; "toPrecision";
                "toString"; "valueOf"].

Definition Boolean_prototype : list (string * value) :=
  ("constructor", native "Boolean")
    :: methods ["toString"; "valueOf"].

Definition Function_prototype : list (string * value) :=
  ("constructor", native "Function")
    :: methods ["apply"; "bind"; "call"; "toString"].

(** The prototype chain of a value that is not an observer. *)
Definition prototypes (o : value) : list (list (string * value)) :=
  match o with
  | VObj _ => [Object_prototype]
  | VArr _ => [Array_prototype; Object_prototype]
  | VStr _ => [String_prototype; Object_prototype]
  | VNum _ => [Number_prototype; Object_prototype]
  | VBool _ => [Boolean_prototype; Object_prototype]
  | VFun _ => [Function_prototype; Object_prototype]
  | _ => []
  end.

(** What the accessor [__proto__] of [Object.prototype] gives: the
    prototype of the value, shown as an object or array without own
    properties. *)
Definition prototype_of (o : value) : value :=
  match o with
  | VArr _ => VArr []
  | _ => VObj []
  end.

Fixpoint find_in_chain (k : string) (chain : list (list (string * value)))
  : option value :=
  match chain with
  | [] => None
  | prototype :: rest =>
      match lookup k prototype with
      | Some v => Some v
      | None => find_in_chain k rest
      end
  end.

(** The property [k] that [o] inherits. *)
Definition inherited (o : value) (k : string) : option value :=
  match prototypes o with
  | [] => None
  | chain => if k =? "__proto__" then Some (prototype_of o)
             else find_in_chain k chain
  end.

(** [o[k]] for an [o] that is neither [undefined] nor [null]: the own
    property, or else the inherited one, or else [undefined].  On an
    observer the [get] trap runs: it reads the target and hands out an
    object wrapped in an observer of its own, with the property appended
    to the path. *)
Fixpoint read (o : value) (k : string) : value :=
  match o with
  | VProxy target path => observe (read target k) (path ++ [Key k])
  | _ =>
      match own o k with
      | Some v => v
      | None =>
          match inherited o k with
          | Some v => v
          | None => VUndefined
          end
      end
  end.

(** [o[k]]: a [TypeError] ([None]) when [o] is [undefined] or [null]. *)
Definition member (o : value) (k : string) : option value :=
  match o with
  | VUndefined | VNull => None
  | _ => Some (read o k)
  end.

(** [Reflect.get(target, k)] on an object. *)
Definition Reflect_get (target : value) (k : string) : value := read target k.

(** [k in target]: own or inherited; an observer has no [has] trap and
    asks its target. *)
Fixpoint has_property (target : value) (k : string) : bool :=
  match target with
  | VProxy target' _ => has_property target' k
  | _ =>
      match own target k with
      | Some _ => true
      | None => match inherited target k with
                | Some _ => true
                | None => false
                end
      end
  end.

Fixpoint store_at (i : nat) (v : value) (items : list value) : list value :=
  match i, items with
  | O, [] => [v]
  | O, _ :: rest => v :: rest
  | S j, [] => VUndefined :: store_at j v []
  | S j, x :: rest => x :: store_at j v rest
  end.

Definition resize (n : nat) (items : list value) : list value :=
  firstn n items ++ repeat VUndefined (n - List.length items).

(** The length that [ArraySetLength] takes from the value written to
    [length]: [ToNumber] of it when that is an integer from [0] to
    [2^32 - 1], and a [RangeError] ([None]) otherwise. *)
Definition array_length {E : Engine} (v : value) : option nat :=
  let number :=
    match v with
    | VUndefined => None
    | VNull => Some 0%Z
    | VBool b => Some (if b then 1 else 0)%Z
    | VNum n => Some n
    | _ => ToNumber v
    end in
  match number with
  | Some n => if ((0 <=? n) && (n <? 4294967296))%Z
              then Some (Z.to_nat n) else None
  | None => None
  end.

(** [Reflect.set(target, k, v, receiver)] on a target that is not an
    observer, with an observer of it as the receiver: the result flag and
    the target after the write.  On an array an index write extends the
    array when needed and a write to [length] resizes it or throws; other
    keys of an array lie outside the data model and leave it as it is, and
    so does [__proto__], which is a setter.  The properties of a function
    are not modelled.  A primitive as the target is a [TypeError]. *)
Definition OrdinarySet {E : Engine} (target : value) (k : string) (v : value)
  : completion (bool * value) :=
  match target with
  | VObj props =>
      if k =? "__proto__" then Completes (true, target)
      else Completes (true, VObj (assign k v props))
  | VArr items =>
      if k =? "length" then
        match array_length v with
        | Some n => Completes (true, VArr (resize n items))
        | None => Abrupt Range_error
        end
      else match array_index k with
           | Some i => Completes (true, VArr (store_at i v items))
           | None => Completes (true, target)
           end
  | VFun _ => Completes (true, target)
  | _ => Abrupt Type_error
  end.

(** [Reflect.deleteProperty(target, k)] on a target that is not an
    observer: deleting an element of an array leaves a hole and keeps the
    length; [length] itself cannot be deleted. *)
Definition OrdinaryDelete (target : value) (k : string)
  : completion (bool * value) :=
  match target with
  | VObj props => Completes (true, VObj (remove k props))
  | VArr items =>
      if k =? "length" then Completes (false, target)
      else match array_index k with
           | Some i => if (i <? List.length items)%nat
                       then Completes (true, VArr (store_at i VUndefined items))
                       else Completes (true, target)
           | None => Completes (true, target)
           end
  | VFun _ => Completes (true, target)
  | _ => Abrupt Type_error
  end.

End JS.
Import JS.
(** ** Change events *)

(** [EVENT_TYPES] *)
Inductive EVENT_TYPES : Type := ASSIGN | CHANGE | REMOVE | ADD | MOVE.

Definition String_of_segment (s : segment) : string :=
  match s with
  | Key k => k
  | Index n => string_of_Z n
  end.

(** [path.join()] and [path.toString()]: the segments, as strings,
    separated by commas. *)
Definition join (path : list segment) : string :=
  String.concat "," (map String_of_segment path).

(** The record pushed by [#emitEvent]: [{ event, path, oldValue, newValue }]. *)
Record Event : Type := mkEvent {
  event : EVENT_TYPES;
  path : list segment;
  oldValue : value;
  newValue : value
}.

(** ** The observer: [createObserver(target, emitEvent, path)]

    [createObserver] puts the traps [get], [set] and [deleteProperty] and,
    for an array target, the handlers [push], [pop], [shift], [unshift],
    [splice] and [sort] on one [handlers] object, which it hands to
    [new Proxy].  Each of them is modelled as the function it is: it runs
    against the [target] it closes over and calls [emitEvent], so it is
    a computation over the target and the trace of [emitEvent] calls made
    so far, in call order.  Of the keys above the Proxy protocol knows
    [get], [set] and [deleteProperty]; module [Proxy] below has what a
    call of an array method on the proxy runs.

    Every observer made from one root shares the root's [emitEvent], so
    the events of the observers stored inside a target go to the same
    trace. *)
Module Observer.

Section Handler.
Context {T : Type}.

Record heap : Type := mkHeap { target : T; emitted : list Event }.

Definition handler (A : Type) : Type := heap -> A * heap.

Definition ret {A} (a : A) : handler A := fun h => (a, h).

Definition bind {A B} (c : handler A) (k : A -> handler B) : handler B :=
  fun h => let (a, h') := c h in k a h'.

(** A step that may throw, and what follows it when it does not. *)
Definition attempt {A B} (c : handler (completion A))
           (k : A -> handler (completion B)) : handler (completion B) :=
  bind c (fun r => match r with
                   | Completes a => k a
                   | Abrupt e => ret (Abrupt e)
                   end).

(** Read the target. *)
Definition this : handler T := fun h => (target h, h).

(** Apply a built-in that returns a result and the target after it. *)
Definition builtin {A} (f : T -> A * T) : handler A :=
  fun h => let (a, t) := f (target h) in
           (a, {| target := t; emitted := emitted h |}).

(** [emitEvent(event, path, oldValue, newValue)] *)
Definition emitEvent (e : EVENT_TYPES) (p : list segment)
           (old new : value) : handler unit :=
  fun h => (tt, {| target := target h;
                   emitted := emitted h ++ [mkEvent e p old new] |}).

(** A trap given by what it returns, leaves and emits on each target. *)
Definition trap {A} (f : T -> A * T * list Event) : handler A :=
  fun h => let '(a, t, es) := f (target h) in
           (a, {| target := t; emitted := emitted h ++ es |}).

(** Run a handler on a target with an empty trace: the value returned to
    the caller, the target afterwards and the events emitted meanwhile. *)
Definition run {A} (c : handler A) (t : T) : A * T * list Event :=
  let (a, h) := c {| target := t; emitted := [] |} in
  (a, target h, emitted h).
End Handler.

Arguments heap : clear implicits.
Arguments handler : clear implicits.

Declare Scope handler_scope.
Delimit Scope handler_scope with handler.
Notation "x <- c ;; k" := (bind c (fun x => k))
  (at level 61, c at next level, right associativity) : handler_scope.
Notation "c ;; k" := (bind c (fun _ => k))
  (at level 61, right associativity) : handler_scope.
Notation "x <-- c ;; k" := (attempt c (fun x => k))
  (at level 61, c at next level, right associativity) : handler_scope.
Local Open Scope handler_scope.

Definition returned {A T} (r : A * T * list Event) : A := fst (fst r).
Definition target_after {A T} (r : A * T * list Event) : T := snd (fst r).
Definition events {A T} (r : A * T * list Event) : list Event := snd r.

(** How many events one call emitted. *)
Definition count {A T} (r : A * T * list Event) : nat :=
  List.length (events r).

(** How many observers a write to the target passes on its way to the
    object: the target is an observer stored in the state, whose target
    may be one again. *)
Fixpoint observers (target : value) : nat :=
  match target with
  | VProxy target' _ => S (observers target')
  | _ => O
  end.

(** *** Traps

    [get] and [deleteProperty] are the same text in both generations.  An
    object value read through [get] comes back wrapped in an observer of
    its own, with the property appended to the path.  Any other value, a
    function included, comes back as it is. *)
Definition get (path : list segment) (property : string)
  : handler value (completion value) :=
  value <- (t <- this ;; ret (Reflect_get t property)) ;;
  if is_object value then ret (Completes (VProxy value (path ++ [Key property])))
  else ret (Completes value).

(** [deleteProperty] on a given target: what it returns, the target
    afterwards and the events emitted, those of the observers inside the
    target first.  [Reflect.deleteProperty] on a target that is an
    observer runs the trap of that observer. *)
Fixpoint delete (target : value) (path : list segment) (property : string)
  : completion bool * value * list Event :=
  let oldValue := Reflect_get target property in
  let '(result, target', inner) :=
    match target with
    | VProxy t p =>
        let '(r, t', es) := delete t p property in (r, VProxy t' p, es)
    | _ =>
        match OrdinaryDelete target property with
        | Completes (r, t') => (Completes r, t', [])
        | Abrupt e => (Abrupt e, target, [])
        end
    end in
  match result with
  | Abrupt e => (Abrupt e, target', inner)
  | Completes result =>
      (Completes result, target',
       inner ++ [mkEvent REMOVE (path ++ [Key property]) oldValue VUndefined])
  end.

Definition deleteProperty (path : list segment) (property : string)
  : handler value (completion bool) :=
  trap (fun target => delete target path property).

(** *** Array handlers, installed when [Array.isArray(target)] *)

(** [Array.prototype.push.apply(target, items)] *)
Definition Array_push (items target : list value) : Z * list value :=
  (Z.of_nat (List.length (target ++ items)), target ++ items).

(** [target.pop()] *)
Definition Array_pop (target : list value) : value * list value :=
  (last target VUndefined, removelast target).

(** [target.shift()] *)
Definition Array_shift (target : list value) : value * list value :=
  (hd VUndefined target, tl target).

(** [target.unshift(...items)] *)
Definition Array_unshift (items target : list value) : Z * list value :=
  (Z.of_nat (List.length (items ++ target)), items ++ target).

(** [target.splice(start, deleteCount, ...items)] with both numbers given:
    a negative [start] counts from the end, and both are clamped to the
    array. *)
Definition Array_splice (start deleteCount : Z) (items target : list value)
  : list value * list value :=
  let len := Z.of_nat (List.length target) in
  let actualStart :=
    Z.to_nat (if (start <? 0)%Z then Z.max (len + start) 0
              else Z.min start len) in
  let actualDeleteCount :=
    Z.to_nat (Z.min (Z.max deleteCount 0) (len - Z.of_nat actualStart)) in
  (firstn actualDeleteCount (skipn actualStart target),
   firstn actualStart target ++ items
     ++ skipn (actualStart + actualDeleteCount) target).

Definition length_of (l : list value) : Z := Z.of_nat (List.length l).

(** [l.length > 0] *)
Definition nonempty (l : list value) : bool := (0 <? length_of l)%Z.

Definition push (path : list segment) (items : list value)
  : handler (list value) Z :=
  result <- builtin (Array_push items) ;;
  target <- this ;;
  emitEvent ADD (path ++ [Index (length_of target - length_of items)])
            VUndefined (VArr items) ;;
  ret result.

Definition pop (path : list segment) : handler (list value) value :=
  oldValue <- builtin Array_pop ;;
  target <- this ;;
  emitEvent REMOVE (path ++ [Index (length_of target)]) oldValue VUndefined ;;
  ret oldValue.

Definition shift (path : list segment) : handler (list value) value :=
  oldValue <- builtin Array_shift ;;
  emitEvent REMOVE (path ++ [Index 0]) oldValue VUndefined ;;
  ret oldValue.

Definition unshift (path : list segment) (items : list value)
  : handler (list value) Z :=
  result <- builtin (Array_unshift items) ;;
  emitEvent ADD (path ++ [Index 0]) VUndefined (VArr items) ;;
  ret result.

Definition splice (path : list segment) (start deleteCount : Z)
           (items : list value) : handler (list value) (list value) :=
  deletedItems <- builtin (Array_splice start deleteCount items) ;;
  (if nonempty deletedItems
   then emitEvent REMOVE (path ++ [Index start]) (VArr deletedItems) VUndefined
   else ret tt) ;;
  (if nonempty items
   then emitEvent ADD (path ++ [Index start]) VUndefined (VArr items)
   else ret tt) ;;
  ret deletedItems.

(** [sort]: [Array_sort] stands for [Array.prototype.sort] applied with
    the caller's [compareFn]; it sorts in place and returns the array. *)
Definition sort (path : list segment)
           (Array_sort : list value -> list value)
  : handler (list value) (list value) :=
  oldArr <- this ;;
  result <- builtin (fun t => (Array_sort t, Array_sort t)) ;;
  target <- this ;;
  emitEvent MOVE path (VArr oldArr) (VArr target) ;;
  ret result.

End Observer.
(** ** Placeholder syntax

    Both [Template.curlyBraces] expressions are global, and neither can
    match across a closing brace, so [String.prototype.replace] and
    [String.prototype.match] are one left-to-right pass that cuts the text
    into literal characters and placeholders. *)
Module Regex.

Inductive token : Type :=
| Lit (c : ascii)
| Hole (key : string).

Fixpoint literal (s : string) : list token :=
  match s with
  | EmptyString => []
  | String c rest => Lit c :: literal rest
  end.

Definition snoc (k : string) (c : ascii) : string :=
  (k ++ String c EmptyString)%string.

(** [/{([^}]+)}/g]: [pending] is the text read since an opening brace that
    may still become a key.  An empty key ([{}]) and a brace that is never
    closed are literal text. *)
Fixpoint braces (pending : option string) (text : string) : list token :=
  match text with
  | EmptyString =>
      match pending with
      | None => []
      | Some k => Lit "{" :: literal k
      end
  | String c rest =>
      match pending with
      | None =>
          if (c =? "{")%char then braces (Some "") rest
          else Lit c :: braces None rest
      | Some k =>
          if (c =? "}")%char then
            if k =? "" then Lit "{" :: Lit "}" :: braces None rest
            else Hole k :: braces None rest
          else braces (Some (snoc k c)) rest
      end
  end.

Inductive dollar_state : Type :=
| Outside
| Dollar
| Inside (k : string).

(** [/\${([^}]+)}/g] *)
Fixpoint dollar_braces (st : dollar_state) (text : string) : list token :=
  match text with
  | EmptyString =>
      match st with
      | Outside => []
      | Dollar => [Lit "$"]
      | Inside k => Lit "$" :: Lit "{" :: literal k
      end
  | String c rest =>
      match st with
      | Outside =>
          if (c =? "$")%char then dollar_braces Dollar rest
          else Lit c :: dollar_braces Outside rest
      | Dollar =>
          if (c =? "{")%char then dollar_braces (Inside "") rest
          else if (c =? "$")%char then Lit "$" :: dollar_braces Dollar rest
          else Lit "$" :: Lit c :: dollar_braces Outside rest
      | Inside k =>
          if (c =? "}")%char then
            if k =? "" then
              Lit "$" :: Lit "{" :: Lit "}" :: dollar_braces Outside rest
            else Hole k :: dollar_braces Outside rest
          else dollar_braces (Inside (snoc k c)) rest
      end
  end.

(** The keys of the placeholders, in order of appearance. *)
Fixpoint keys (ts : list token) : list string :=
  match ts with
  | [] => []
  | Lit _ :: rest => keys rest
  | Hole k :: rest => k :: keys rest
  end.

(** [text.replace(regex, callback)]: the callback gets the key of each
    placeholder, from left to right, and may throw ([None]). *)
Fixpoint replace (callback : string -> option string) (ts : list token)
  : option string :=
  match ts with
  | [] => Some ""
  | Lit c :: rest => option_map (String c) (replace callback rest)
  | Hole k :: rest =>
      match callback k with
      | None => None
      | Some s => option_map (String.append s) (replace callback rest)
      end
  end.

(** A closing brace somewhere in [s]. *)
Fixpoint closes (s : string) : bool :=
  match s with
  | EmptyString => false
  | String c rest => (c =? "}")%char || closes rest
  end.

(** The text read so far that may still become a placeholder. *)
Definition held (st : dollar_state) : string :=
  match st with
  | Outside => ""
  | Dollar => "$"
  | Inside k => ("${" ++ k)%string
  end.

(** [s.slice(from, -1)] *)
Definition slice (from : nat) (s : string) : string :=
  substring from (String.length s - 1 - from) s.

End Regex.

(** ** Elements, as far as attribute binding goes *)
Module DOM.

Record Element : Type := mkElement {
  localName : string;
  attributes : list (string * string)
}.

Definition getAttributeNames (node : Element) : list string :=
  map fst (attributes node).

(** [null] is [None]. *)
Fixpoint lookup (name : string) (attrs : list (string * string))
  : option string :=
  match attrs with
  | [] => None
  | (n, v) :: rest => if n =? name then Some v else lookup name rest
  end.

Definition getAttribute (node : Element) (name : string) : option string :=
  lookup name (attributes node).

Fixpoint update (name value : string) (attrs : list (string * string))
  : list (string * string) :=
  match attrs with
  | [] => [(name, value)]
  | (n, v) :: rest =>
      if n =? name then (n, value) :: rest else (n, v) :: update name value rest
  end.

Definition setAttribute (name value : string) (node : Element) : Element :=
  {| localName := localName node;
     attributes := update name value (attributes node) |}.

Definition removeAttribute (name : string) (node : Element) : Element :=
  {| localName := localName node;
     attributes := filter (fun a => negb (fst a =? name)) (attributes node) |}.

Definition hasAttribute (node : Element) (name : string) : bool :=
  match getAttribute node name with Some _ => true | None => false end.

End DOM.

(** ** The event queue and the subscription registry of [StateManager]

    [#processEvents], [#emitEvent] and the body of [subscribe] are the same
    text in the second and third generation, up to [Template.keyFrom] and
    to the arguments handed to a consumer (the whole event in the second,
    its path in the third).  Nothing in them catches what a consumer
    throws. *)
Module Scheduler.

Section Manager.
(** Consumers are closures; [consumer] is whatever identifies one. *)
Variable consumer : Type.

(** [consumers = new Map()]: entries in insertion order. *)
Definition registry : Type := list (string * list consumer).

Fixpoint has (subject : string) (m : registry) : bool :=
  match m with
  | [] => false
  | (s, _) :: rest => if s =? subject then true else has subject rest
  end.

(** [m.get(subject).push(c)] *)
Fixpoint get_push (subject : string) (c : consumer) (m : registry)
  : registry :=
  match m with
  | [] => []
  | (s, subs) :: rest =>
      if s =? subject then (s, subs ++ [c]) :: rest
      else (s, subs) :: get_push subject c rest
  end.

(** The body of the loop of [subscribe]. *)
Definition register (subject : string) (c : consumer) (m : registry)
  : registry :=
  if has subject m then get_push subject c m
  else m ++ [(subject, [c])].

(** [[...path, key].toString()] for a binding scope [path]. *)
Definition toString (path : list string) : string := String.concat "," path.

Variable keyFrom : string -> string.

Definition subscribe (path : list string) (vars : list string)
           (c : consumer) (m : registry) : registry :=
  fold_left (fun m key => register (toString (path ++ [key])) c m)
            (map keyFrom vars) m.

(** [#subscribeList] of the third generation. *)
Definition subscribeList (path : list string) (c : consumer) (m : registry)
  : registry :=
  register (toString path) c m.

(** The consumers collected by [#processEvents] for one event. *)
Definition matching (m : registry) (e : Event) : list consumer :=
  flat_map (fun entry => if fst entry =? join (path e) then snd entry
                         else []) m.

(** What a consumer can reach besides the queue: the output nodes, the
    state tree, and the registry (a consumer that rebuilds a list
    subscribes the consumers of the new nodes). *)
Variable world : Type.

Record manager : Type := mkManager {
  consumers : registry;
  events : list Event;
  frames : nat;        (* callbacks handed to [requestAnimationFrame] *)
  outside : world
}.

(** [#emitEvent]: push, and ask for a frame. *)
Definition emitEvent (m : manager) (e : Event) : manager :=
  {| consumers := consumers m;
     events := events m ++ [e];
     frames := S (frames m);
     outside := outside m |}.

(** What a call of a consumer did: the registry and the world it left,
    the events of the mutations of the observed state it made, each of
    which called [#emitEvent], and whether it ended by throwing;
    [#events] itself is private to the manager. *)
Record ran : Type := mkRan {
  registered : registry;
  around : world;
  written : list Event;
  threw : bool
}.

(** Calling a consumer with an event. *)
Variable call : consumer -> Event -> registry * world -> ran.

(** [consumer(path)]: the manager afterwards, and whether the call
    threw. *)
Definition invoke (e : Event) (m : manager) (c : consumer)
  : manager * bool :=
  let r := call c e (consumers m, outside m) in
  (fold_left emitEvent (written r)
     {| consumers := registered r; events := events m;
        frames := frames m; outside := around r |},
   threw r).

(** [for (const consumer of consumers) consumer(path)]: the consumers
    that were called, and whether the last of them threw; nothing catches
    the exception, so the consumers after it are not called. *)
Fixpoint notify (e : Event) (cs : list consumer) (m : manager)
  : manager * list consumer * bool :=
  match cs with
  | [] => (m, [], false)
  | c :: rest =>
      let (m', thrown) := invoke e m c in
      if thrown then (m', [c], true)
      else let '(m'', called, t) := notify e rest m' in
           (m'', c :: called, t)
  end.

(** One round of the loop of [#processEvents], recorded: the event
    shifted from the queue, the consumers called with it, and what the
    queue gained meanwhile. *)
Record delivery : Type := mkDelivery {
  delivered : Event;
  notified : list consumer;
  caused : list Event
}.

(** How a call of [#processEvents] ends: the queue is empty, or a
    consumer threw. *)
Inductive ending : Type := Drained | Threw.

(** [#processEvents]: [while (this.#events.length)].  The loop need not
    end (a consumer may emit on every call), so it runs on fuel, one unit
    per round; [None] is a loop still running when the fuel is spent. *)
Fixpoint processEvents (fuel : nat) (m : manager)
  : option (manager * list delivery * ending) :=
  match fuel with
  | O => None
  | S fuel' =>
      match events m with
      | [] => Some (m, [], Drained)
      | e :: rest =>
          let shifted := {| consumers := consumers m; events := rest;
                            frames := frames m; outside := outside m |} in
          let cs := matching (consumers shifted) e in
          let '(m', called, thrown) := notify e cs shifted in
          let d := {| delivered := e; notified := called;
                      caused := skipn (List.length rest) (events m') |} in
          if thrown then Some (m', [d], Threw)
          else
            match processEvents fuel' m' with
            | None => None
            | Some (m'', ds, how) => Some (m'', d :: ds, how)
            end
      end
  end.

(** A frame runs the callbacks that were requested before it began, each
    of them a call of [#processEvents]; a callback that throws does not
    keep the ones after it from running. *)
Fixpoint frame_callbacks (n fuel : nat) (m : manager)
  : option (manager * list (list delivery * ending)) :=
  match n with
  | O => Some (m, [])
  | S n' =>
      match processEvents fuel m with
      | None => None
      | Some (m', ds, how) =>
          match frame_callbacks n' fuel m' with
          | None => None
          | Some (m'', rest) => Some (m'', (ds, how) :: rest)
          end
      end
  end.

(** The frame after [m]: every callback requested so far runs once;
    requests made meanwhile wait for the frame after. *)
Definition frame (fuel : nat) (m : manager)
  : option (manager * list (list delivery * ending)) :=
  frame_callbacks (frames m) fuel
    {| consumers := consumers m; events := events m;
       frames := 0; outside := outside m |}.

End Manager.

Arguments has {consumer}.
Arguments get_push {consumer}.
Arguments register {consumer}.
Arguments subscribe {consumer}.
Arguments subscribeList {consumer}.
Arguments matching {consumer}.
Arguments mkManager {consumer world}.
Arguments consumers {consumer world}.
Arguments events {consumer world}.
Arguments frames {consumer world}.
Arguments outside {consumer world}.
Arguments emitEvent {consumer world}.
Arguments mkRan {consumer world}.
Arguments registered {consumer world}.
Arguments around {consumer world}.
Arguments written {consumer world}.
Arguments threw {consumer world}.
Arguments invoke {consumer world}.
Arguments notify {consumer world}.
Arguments mkDelivery {consumer}.
Arguments delivered {consumer}.
Arguments notified {consumer}.
Arguments caused {consumer}.
Arguments processEvents {consumer world}.
Arguments frame_callbacks {consumer world}.
Arguments frame {consumer world}.

(** What is recorded of one call of a consumer: who was called, with
    which event, what the call wrote to the observed state, and whether
    it threw. *)
Record entry (consumer : Type) : Type := mkEntry {
  who : consumer;
  what : Event;
  wrote : list Event;
  failed : bool
}.

Arguments mkEntry {consumer}.
Arguments who {consumer}.
Arguments what {consumer}.
Arguments wrote {consumer}.
Arguments failed {consumer}.

(** A consumer's call that, besides, records itself in the world. *)
Definition logged {consumer world : Type}
           (call : consumer -> Event -> registry consumer * world
                   -> ran consumer world)
           (c : consumer) (e : Event)
           (rw : registry consumer * (world * list (entry consumer)))
  : ran consumer (world * list (entry consumer)) :=
  let r := call c e (fst rw, fst (snd rw)) in
  {| registered := registered r;
     around := (around r,
                snd (snd rw)
                  ++ [{| who := c; what := e; wrote := written r;
                         failed := threw r |}]);
     written := written r;
     threw := threw r |}.

(** The calls recorded so far. *)
Definition calls {consumer world : Type}
           (m : manager consumer (world * list (entry consumer)))
  : list (entry consumer) :=
  snd (outside m).

(** The consumer and the event of a recorded call. *)
Definition called_with {consumer : Type} (x : entry consumer)
  : consumer * Event :=
  (who x, what x).

(** The record is that of a call made: it says what the call wrote and
    whether it threw. *)
Definition made_by {consumer world : Type}
           (call : consumer -> Event -> registry consumer * world
                   -> ran consumer world)
           (x : entry consumer) : Prop :=
  exists rw, wrote x = written (call (who x) (what x) rw)
             /\ failed x = threw (call (who x) (what x) rw).

(** The consumer [c] is registered under the key [subject]. *)
Definition subscribed {consumer : Type} (subject : string) (c : consumer)
           (m : registry consumer) : Prop :=
  exists subs, In (subject, subs) m /\ In c subs.

(** The calls that a flush with these rounds makes when no consumer
    throws: for each event delivered, its consumers in turn. *)
Definition rounds {consumer : Type} (ds : list (delivery consumer))
  : list (consumer * Event) :=
  flat_map (fun d => map (fun c => (c, delivered d)) (notified d)) ds.

End Scheduler.

(** [path.reduce((obj, key) => obj[key], state)] *)
Definition reduce_path (state : value) (path : list string) : option value :=
  fold_left (fun acc key => match acc with
                            | None => None
                            | Some obj => member obj key
                            end) path (Some state).

(** ** Second generation, [src/web-component.js], second document *)
Module V2.
Import Observer.
Local Open Scope handler_scope.

(** [createObserver]'s [set] trap, on a given target: what it returns,
    the target afterwards and the events emitted, those of the observers
    inside the target first.  There is no guard on function values.
    [Reflect.set] on a target that is an observer runs the trap of that
    observer; when it throws, the trap ends there. *)
Fixpoint write {E : Engine} (target : JS.value) (path : list segment)
         (property : string) (value : JS.value)
  : completion bool * JS.value * list Event :=
  let oldValue := Reflect_get target property in
  let '(result, target', inner) :=
    match target with
    | VProxy t p =>
        let '(r, t', es) := write t p property value in (r, VProxy t' p, es)
    | _ =>
        match OrdinarySet target property value with
        | Completes (r, t') => (Completes r, t', [])
        | Abrupt e => (Abrupt e, target, [])
        end
    end in
  match result with
  | Abrupt e => (Abrupt e, target', inner)
  | Completes result =>
      let eventPath := path ++ [Key property] in
      if is_defined oldValue then
        (Completes result, target',
         inner ++ [mkEvent CHANGE eventPath oldValue value])
      else
        (Completes result, target',
         inner ++ [mkEvent ASSIGN eventPath VUndefined value])
  end.

Definition set {E : Engine} (path : list segment) (property : string)
           (value : JS.value) : handler JS.value (completion bool) :=
  trap (fun target => write target path property value).

Module Template.

(** [/{([^}]+)}/g] *)
Definition curlyBraces (text : string) : list Regex.token :=
  Regex.braces None text.

Definition placeholder (key : string) : string :=
  ("{" ++ key ++ "}")%string.

(** [text.match(Template.curlyBraces)]: [null] when nothing matches. *)
Definition match_ (text : string) : option (list string) :=
  match map placeholder (Regex.keys (curlyBraces text)) with
  | [] => None
  | vars => Some vars
  end.

Definition keyFrom (curlyBraces : string) : string :=
  if prefix "{" curlyBraces then Regex.slice 1 curlyBraces else curlyBraces.

(** [text.replace(curlyBraces, (match, key) => data[key] || '')] *)
Definition fill (text : string) (data : value) : option string :=
  Regex.replace
    (fun key => match member data key with
                | None => None
                | Some v => Some (ToString (or_else v (VStr "")))
                end)
    (curlyBraces text).

End Template.

(** [StateManager.subscribe] *)
Definition subscribe {consumer : Type} :=
  @Scheduler.subscribe consumer Template.keyFrom.

(** [#getByPath] *)
Definition getByPath (state : value) (path : list string) : option value :=
  reduce_path state path.

(** The closure built by [#bindAttributes] for one attribute, by the
    variables it captures; [state] and [node] are references, read when
    the closure runs. *)
Record attribute_consumer : Type := mkAttributeConsumer {
  name : string;
  template : string;
  scope : list string
}.

(** The body of that closure. *)
Definition consumer (name template : string) (state : value)
           (node : DOM.Element) : option DOM.Element :=
  match Template.fill template state with
  | None => None
  | Some attribute =>
      if truthy (VStr attribute)
      then Some (DOM.setAttribute name attribute node)
      else Some (DOM.removeAttribute name node)
  end.

(** One round of the loop of [#bindAttributes]. *)
Definition bindAttribute (state : value) (path : list string)
           (acc : DOM.Element * Scheduler.registry attribute_consumer)
           (name : string)
  : option (DOM.Element * Scheduler.registry attribute_consumer) :=
  let (node, reg) := acc in
  match DOM.getAttribute node name with
  | None => Some acc
  | Some value =>
      if value =? "" then Some acc
      else match Template.match_ value with
           | None => Some acc
           | Some vars =>
               let template := hd "" vars in
               if template =? "" then Some acc
               else
                 let reg' :=
                   subscribe path [template]
                     (mkAttributeConsumer name template path) reg in
                 match consumer name template state node with
                 | None => None
                 | Some node' => Some (node', reg')
                 end
           end
  end.

(** [#bindAttributes(node, path)] against the root state [root]. *)
Definition bindAttributes (root : value) (node : DOM.Element)
           (path : list string)
           (reg : Scheduler.registry attribute_consumer)
  : option (DOM.Element * Scheduler.registry attribute_consumer) :=
  match getByPath root path with
  | None => None
  | Some state =>
      fold_left (fun acc name => match acc with
                                 | None => None
                                 | Some a => bindAttribute state path a name
                                 end)
                (DOM.getAttributeNames node) (Some (node, reg))
  end.

End V2.

(** ** Third generation, [src/unnamed/part_000] *)
Module V3.
Import Observer.
Local Open Scope handler_scope.

(** [createObserver]'s [set] trap, on a given target: what it returns,
    the target afterwards and the events emitted, those of the observers
    inside the target first.  [Reflect.set] on a target that is an
    observer runs the trap of that observer; when it throws, the trap
    ends there. *)
Fixpoint write {E : Engine} (target : JS.value) (path : list segment)
         (property : string) (value : JS.value)
  : completion bool * JS.value * list Event :=
  let oldValue := Reflect_get target property in
  let '(result, target', inner) :=
    match target with
    | VProxy t p =>
        let '(r, t', es) := write t p property value in (r, VProxy t' p, es)
    | _ =>
        match OrdinarySet target property value with
        | Completes (r, t') => (Completes r, t', [])
        | Abrupt e => (Abrupt e, target, [])
        end
    end in
  match result with
  | Abrupt e => (Abrupt e, target', inner)
  | Completes result =>
      let eventPath := path ++ [Key property] in
      if is_function value then (Completes result, target', inner)
      else if is_defined oldValue then
        (Completes result, target',
         inner ++ [mkEvent CHANGE eventPath oldValue value])
      else
        (Completes result, target',
         inner ++ [mkEvent ASSIGN eventPath VUndefined value])
  end.

Definition set {E : Engine} (path : list segment) (property : string)
           (value : JS.value) : handler JS.value (completion bool) :=
  trap (fun target => write target path property value).

Module Template.

(** [/\${([^}]+)}/g] *)
Definition curlyBraces (text : string) : list Regex.token :=
  Regex.dollar_braces Regex.Outside text.

Definition placeholder (key : string) : string :=
  ("${" ++ key ++ "}")%string.

Definition match_ (text : string) : option (list string) :=
  match map placeholder (Regex.keys (curlyBraces text)) with
  | [] => None
  | vars => Some vars
  end.

Definition keyFrom (curlyBraces : string) : string :=
  if prefix "${" curlyBraces then Regex.slice 2 curlyBraces
  else curlyBraces.

End Template.

(** [#subscribe] and [#subscribeList] *)
Definition subscribe {consumer : Type} :=
  @Scheduler.subscribe consumer Template.keyFrom.

Definition subscribeList {consumer : Type} :=
  @Scheduler.subscribeList consumer.

(** How the first loop of [#fillState] ends. *)
Inductive walked : Type :=
| Throw                                  (* a [TypeError] *)
| ReturnTemplate                         (* [return template] *)
| Done (currentPath : list string).      (* the loop ran to its end *)

(** The first loop of [#fillState]: [for (const key of currentPath)]
    while the body pops [currentPath].  The array iterator reads
    [currentPath[i]] as long as [i < currentPath.length]; [rounds] bounds
    the rounds left, and [path.length] of them are enough since [i] grows
    by one each round and the array never does. *)
Fixpoint walk (rounds i : nat) (state : value) (currentPath : list string)
         (currentObject : value) : walked :=
  match rounds with
  | O => Done currentPath
  | S rounds' =>
      match nth_error currentPath i with
      | None => Done currentPath
      | Some key =>
          match member currentObject key with
          | None => Throw
          | Some v =>
              if truthy v then walk rounds' (S i) state currentPath v
              else
                let popped := removelast currentPath in
                match popped with
                | [] => ReturnTemplate
                | _ :: _ =>
                    match reduce_path state popped with
                    | None => Throw
                    | Some o => walk rounds' (S i) state popped o
                    end
                end
          end
      end
  end.

(** The loop of the replace callback, entered at [i] with [value] still
    falsy: [for (let i = currentPath.length; i >= 0 && !value; i--)]. *)
Fixpoint climb (state : value) (currentPath : list string)
         (varName : string) (i : nat) : option value :=
  let obj := if (i =? 0)%nat then Some state
             else reduce_path state (firstn i currentPath) in
  match obj with
  | None => None
  | Some obj =>
      match member obj varName with
      | None => None
      | Some value =>
          match i with
          | O => Some value
          | S j => if truthy value then Some value
                   else climb state currentPath varName j
          end
      end
  end.

(** The replace callback of [#fillState]: [return value || match]. *)
Definition substitute (state : value) (currentPath : list string)
           (varName : string) : option string :=
  match climb state currentPath varName (List.length currentPath) with
  | None => None
  | Some value =>
      if truthy value then Some (ToString value)
      else Some (Template.placeholder varName)
  end.

(** [#fillState(template, path, vars)] over the raw state [state]. *)
Definition fillState (state : value) (template : string)
           (path : list string) (vars : list string) : option string :=
  match vars with
  | [] => Some template
  | _ :: _ =>
      match walk (List.length path) 0 state path state with
      | Throw => None
      | ReturnTemplate => Some template
      | Done currentPath =>
          Regex.replace (substitute state currentPath)
                        (Template.curlyBraces template)
      end
  end.


(** The value of [key] in the ancestor scope made of the first [j]
    segments of [scope]; [j = 0] is the root. *)
Definition value_at (state : value) (scope : list string) (j : nat)
           (key : string) : option value :=
  match reduce_path state (firstn j scope) with
  | Some o => member o key
  | None => None
  end.


End V3.

(** ** Calls of array methods on the proxy

    A call such as [state.items.pop()] reads the property [pop] of the
    proxy through the [get] trap, which hands back the function found on
    the target, here the built-in [Array.prototype.pop], as it is; the
    built-in then runs with the proxy as [this].  The built-ins below
    follow the steps of the language specification; arrays of the model
    have no holes, and deleting an element leaves [undefined] in its
    place.  What a built-in reads, it reads through the [get] trap: an
    element that is an object reaches it wrapped in an observer, and is
    returned or written back so. *)
Module Proxy.
Import Observer.
Local Open Scope handler_scope.

(** What a built-in method does to the object it is called on: it reads,
    writes, deletes and tests properties of [this], one after the other,
    each step depending on the answers so far. *)
Inductive script (A : Type) : Type :=
| Return (a : A)
| Get (k : string) (next : value -> script A)
| Set_ (k : string) (v : value) (next : bool -> script A)
| DeletePropertyOrThrow (k : string) (next : bool -> script A)
| HasProperty (k : string) (next : bool -> script A).

Arguments Return {A}.
Arguments Get {A}.
Arguments Set_ {A}.
Arguments DeletePropertyOrThrow {A}.
Arguments HasProperty {A}.

(** The script run with a proxy made by [createObserver] as [this]: the
    proxy has the traps [get], [set] and [deleteProperty], and no [has]
    trap, so that test goes to the target.  The built-ins write with
    [Set(O, P, V, true)] and delete with [DeletePropertyOrThrow]: a trap
    that answers [false] makes them throw a [TypeError]. *)
Fixpoint on_proxy {A : Type}
         (set : list segment -> string -> value
                -> handler value (completion bool))
         (path : list segment) (s : script A)
  : handler value (completion A) :=
  match s with
  | Return a => ret (Completes a)
  | Get k next => v <-- get path k ;; on_proxy set path (next v)
  | Set_ k v next =>
      r <-- set path k v ;;
      if r then on_proxy set path (next r) else ret (Abrupt Type_error)
  | DeletePropertyOrThrow k next =>
      r <-- deleteProperty path k ;;
      if r then on_proxy set path (next r) else ret (Abrupt Type_error)
  | HasProperty k next =>
      b <- (t <- this ;; ret (has_property t k)) ;;
      on_proxy set path (next b)
  end.

(** [LengthOfArrayLike] of what [Get(O, "length")] gave. *)
Definition ToLength (v : value) : nat :=
  match v with
  | VNum n => Z.to_nat n
  | _ => 0
  end.

Definition number (n : nat) : value := VNum (Z.of_nat n).

(** [Array.prototype.pop] *)
Definition Array_prototype_pop : script value :=
  Get "length" (fun len =>
  match ToLength len with
  | O => Set_ "length" (number 0) (fun _ => Return VUndefined)
  | S newLen =>
      let index := string_of_nat newLen in
      Get index (fun element =>
      DeletePropertyOrThrow index (fun _ =>
      Set_ "length" (number newLen) (fun _ =>
      Return element)))
  end).

(** Move the element at [from] to [to], or delete [to] when there is
    none at [from]. *)
Definition move {A : Type} (from to : nat) (next : script A) : script A :=
  HasProperty (string_of_nat from) (fun fromPresent =>
  if fromPresent then
    Get (string_of_nat from) (fun fromValue =>
    Set_ (string_of_nat to) fromValue (fun _ => next))
  else DeletePropertyOrThrow (string_of_nat to) (fun _ => next)).

(** [count] moves downwards, from [k] upwards: the element at
    [k + from_off] goes to [k + to_off]. *)
Fixpoint move_down {A : Type} (count k from_off to_off : nat)
         (next : script A) : script A :=
  match count with
  | O => next
  | S count' =>
      move (k + from_off) (k + to_off)
           (move_down count' (S k) from_off to_off next)
  end.

(** [count] moves upwards, from [k] downwards: the element at
    [k + from_off - 1] goes to [k + to_off - 1]. *)
Fixpoint move_up {A : Type} (count k from_off to_off : nat)
         (next : script A) : script A :=
  match count with
  | O => next
  | S count' =>
      move (k + from_off - 1) (k + to_off - 1)
           (move_up count' (k - 1) from_off to_off next)
  end.

(** Delete [count] elements, from [k - 1] downwards. *)
Fixpoint delete_down {A : Type} (count k : nat) (next : script A)
  : script A :=
  match count with
  | O => next
  | S count' =>
      DeletePropertyOrThrow (string_of_nat (k - 1))
        (fun _ => delete_down count' (k - 1) next)
  end.

(** [Array.prototype.shift] *)
Definition Array_prototype_shift : script value :=
  Get "length" (fun len =>
  match ToLength len with
  | O => Set_ "length" (number 0) (fun _ => Return VUndefined)
  | S newLen =>
      Get "0" (fun first =>
      move_down newLen 0 1 0
        (DeletePropertyOrThrow (string_of_nat newLen) (fun _ =>
         Set_ "length" (number newLen) (fun _ =>
         Return first))))
  end).

(** Write [items] from index [k] on. *)
Fixpoint write_items {A : Type} (items : list value) (k : nat)
         (next : nat -> script A) : script A :=
  match items with
  | [] => next k
  | E :: rest =>
      Set_ (string_of_nat k) E (fun _ => write_items rest (S k) next)
  end.

(** [Array.prototype.push] *)
Definition Array_prototype_push (items : list value) : script value :=
  Get "length" (fun len =>
  write_items items (ToLength len) (fun len' =>
  Set_ "length" (number len') (fun _ =>
  Return (number len')))).

(** Read the [count] elements from [k] on into the array to return. *)
Fixpoint copy_out {A : Type} (count k : nat) (acc : list value)
         (next : list value -> script A) : script A :=
  match count with
  | O => next acc
  | S count' =>
      HasProperty (string_of_nat k) (fun present =>
      if present then
        Get (string_of_nat k) (fun fromValue =>
        copy_out count' (S k) (acc ++ [fromValue]) next)
      else copy_out count' (S k) (acc ++ [VUndefined]) next)
  end.

(** [Array.prototype.splice] with [start] and [deleteCount] given. *)
Definition Array_prototype_splice (start deleteCount : Z)
           (items : list value) : script (list value) :=
  Get "length" (fun length =>
  let len := ToLength length in
  let actualStart :=
    Z.to_nat (if (start <? 0)%Z then Z.max (Z.of_nat len + start) 0
              else Z.min start (Z.of_nat len)) in
  let itemCount := List.length items in
  let actualDeleteCount :=
    Z.to_nat (Z.min (Z.max deleteCount 0)
                    (Z.of_nat len - Z.of_nat actualStart)) in
  (* ArraySpeciesCreate reads the constructor; the deleted elements are
     copied into the new array [A] *)
  Get "constructor" (fun _ =>
  copy_out actualDeleteCount actualStart [] (fun A =>
  (* last, the items are written and [length] is set *)
  let finish :=
    write_items items actualStart (fun _ =>
    Set_ "length" (number (len - actualDeleteCount + itemCount)) (fun _ =>
    Return A)) in
  if (itemCount <? actualDeleteCount)%nat then
    (* the tail moves down and what is left over is deleted *)
    move_down (len - actualDeleteCount - actualStart) actualStart
              actualDeleteCount itemCount
      (delete_down (actualDeleteCount - itemCount) len finish)
  else if (actualDeleteCount <? itemCount)%nat then
    (* the tail moves up, from its end *)
    move_up (len - actualDeleteCount - actualStart) (len - actualDeleteCount)
            actualDeleteCount itemCount finish
  else finish))).

(** What a trap can emit: an [ASSIGN], [CHANGE] or [REMOVE] whose path
    ends in a property key. *)
Definition from_trap (e : Event) : Prop :=
  (event e = ASSIGN \/ event e = CHANGE \/ event e = REMOVE)
  /\ exists p k, path e = p ++ [Key k].

(** An event of the observer at path [p]. *)
Definition at_path (p : list segment) (e : Event) : Prop :=
  exists k, path e = p ++ [Key k].

(** A computation of the observer at path [p] only appends to the trace
    events that come from traps, those of the observer itself unless the
    target is an observer in turn, and leaves an observer where there was
    one. *)
Definition appends (p : list segment) {A : Type} (c : handler value A)
  : Prop :=
  forall h, exists es,
      emitted (snd (c h)) = emitted h ++ es
      /\ Forall from_trap es
      /\ is_observer (target (snd (c h))) = is_observer (target h)
      /\ (is_observer (target h) = false -> Forall (at_path p) es).

(** The same of a trap given by its outcome on the target [t]. *)
Definition appending (p : list segment) {A : Type}
           (r : A * value * list Event) (t : value) : Prop :=
  Forall from_trap (snd r)
  /\ is_observer (snd (fst r)) = is_observer t
  /\ (is_observer t = false -> Forall (at_path p) (snd r)).

End Proxy.

(** ** States used in the examples below *)
Module Examples.
Import Scheduler.

(** The engine of the examples.  None of them writes a string, a
    function or an object to the [length] of an array, so none asks it;
    on a string of decimal digits it answers as the language does. *)
Definition decimal : Engine :=
  {| ToNumber := fun v => match v with
                          | VStr s => match array_index s with
                                      | Some n => Some (Z.of_nat n)
                                      | None => None
                                      end
                          | _ => None
                          end |}.

(** A registry with two consumers: consumer [1], subscribed to [a],
    writes [b] when it runs; consumer [2] is subscribed to [b]. *)
Definition first_event : Event := mkEvent ASSIGN [Key "a"] VUndefined (VNum 1).
Definition second_event : Event := mkEvent ASSIGN [Key "b"] VUndefined (VNum 2).

Definition writes_b (c : nat) (e : Event) (rw : registry nat * unit)
  : ran nat unit :=
  {| registered := fst rw;
     around := snd rw;
     written := if (c =? 1)%nat then [second_event] else [];
     threw := false |}.

Definition one_queued : manager nat (unit * list (entry nat)) :=
  {| consumers := [("a", [1]); ("b", [2])];
     events := [first_event];
     frames := 1;
     outside := (tt, []) |}.

(** Consumers that write nothing and do not throw. *)
Definition render (c : nat) (e : Event) (rw : registry nat * unit)
  : ran nat unit :=
  {| registered := fst rw; around := snd rw; written := []; threw := false |}.

(** Consumers of which number [1] throws. *)
Definition first_throws (c : nat) (e : Event) (rw : registry nat * unit)
  : ran nat unit :=
  {| registered := fst rw; around := snd rw; written := [];
     threw := (c =? 1)%nat |}.

(** Three consumers, subscribed in the scope [user] to [name], at the
    root to [user], and in the scope [user] to [age]. *)
Definition user_registry : registry nat :=
  V2.subscribe ["user"] ["{age}"] 3
    (V2.subscribe [] ["{user}"] 2
       (V2.subscribe ["user"] ["{name}"] 1 [])).

Definition name_changed : Event :=
  mkEvent CHANGE [Key "user"; Key "name"] (VStr "Ann") (VStr "Bob").
Definition user_changed : Event :=
  mkEvent CHANGE [Key "user"] (VObj []) (VObj [("name", VStr "Bob")]).
Definition age_assigned : Event :=
  mkEvent ASSIGN [Key "user"; Key "age"] VUndefined (VNum 7).

Definition three_queued : manager nat (unit * list (entry nat)) :=
  {| consumers := user_registry;
     events := [name_changed; user_changed; age_assigned];
     frames := 3;
     outside := (tt, []) |}.

Definition button : DOM.Element :=
  DOM.mkElement "button" [("disabled", "{busy}"); ("value", "{count}")].

(** A call of a built-in on the proxy leaves the array that the built-in
    leaves on the raw target, and returns what it returns there. *)
Definition same_outcome {A : Type}
           (call : completion A * value * list Event)
           (plain : A * list value) : Prop :=
  Observer.returned call = Completes (fst plain)
  /\ Observer.target_after call = VArr (snd plain).

Definition splice_agrees (case : Z * Z * list value * list value) : Prop :=
  let '(start, deleteCount, items, target) := case in
  same_outcome
    (Observer.run (Proxy.on_proxy (V3.set (E := decimal)) []
                     (Proxy.Array_prototype_splice start deleteCount items))
                  (VArr target))
    (Observer.Array_splice start deleteCount items target).

Definition pop_and_shift_agree (target : list value) : Prop :=
  same_outcome
    (Observer.run (Proxy.on_proxy (V3.set (E := decimal)) [] Proxy.Array_prototype_pop)
                  (VArr target))
    (Observer.Array_pop target)
  /\ same_outcome
       (Observer.run (Proxy.on_proxy (V3.set (E := decimal)) [] Proxy.Array_prototype_shift)
                     (VArr target))
       (Observer.Array_shift target).

Definition arrays : list (list value) :=
  [[]; [VStr "a"]; [VStr "a"; VStr "b"; VStr "c"]].

Definition splice_cases : list (Z * Z * list value * list value) :=
  list_prod
    (list_prod (list_prod [-5; -1; 0; 1; 2; 7]%Z [-1; 0; 1; 2; 5]%Z)
               [[]; [VStr "x"]; [VStr "x"; VStr "y"; VStr "z"]])
    arrays.

(** The state of the spec's example: a list item inside a root that also
    has a title. *)
Definition titled (item : list (string * value)) : value :=
  VObj [("title", VStr "Root"); ("items", VArr [VObj item])].

End Examples.

(** * More of the code *)

(** ** Text binding, second generation: [#bindTextContent] *)
Module V2Text.

(** The closure built for one text node, by the variables it captures. *)
Record text_consumer : Type := mkTextConsumer {
  template : string;
  scope : list string
}.

(** The body of that closure: [node.textContent = Template.fill(template,
    state)]. *)
Definition consumer (template : string) (state : value) : option string :=
  V2.Template.fill template state.

(** [node.textContent = v]: [null] and [undefined] give the empty text,
    any other value its string. *)
Definition as_textContent (v : value) : string :=
  match v with
  | VUndefined | VNull => ""
  | _ => ToString v
  end.

(** [#bindTextContent(node, path)] on a node whose [textContent] is
    [textContent]: the text afterwards and the registry.  [state] is what
    [#getByPath(path)] gave; a text that is [{}] alone shows the state
    itself. *)
Definition bindTextContent (root : value) (textContent : string)
           (path : list string)
           (reg : Scheduler.registry text_consumer)
  : option (string * Scheduler.registry text_consumer) :=
  match V2.getByPath root path with
  | None => None
  | Some state =>
      if textContent =? "{}" then Some (as_textContent state, reg)
      else match V2.Template.match_ textContent with
           | None => Some (textContent, reg)
           | Some vars =>
               let template := textContent in
               let reg' := V2.subscribe path vars
                             (mkTextConsumer template path) reg in
               match consumer template state with
               | None => None
               | Some text => Some (text, reg')
               end
           end
  end.

End V2Text.

(** ** Helpers for the statements about templates *)
Module Templates.

(** The text read since an opening brace that may still become a key of
    the second generation's expression. *)
Definition pending_text (pending : option string) : string :=
  match pending with
  | None => ""
  | Some k => ("{" ++ k)%string
  end.

(** [v === undefined || v === null] *)
Definition nullish (v : value) : bool :=
  match v with
  | VUndefined | VNull => true
  | _ => false
  end.


End Templates.

(** ** Helpers for the statements about attributes *)
Module Attributes.

(** What an attribute reads after binding, from what it read before:
    an attribute without a placeholder keeps its value; one with
    placeholders gets the state's value for the key of the first, as a
    string, and is removed when that string is empty. *)
Definition shown (curlyBraces : string -> list Regex.token)
           (state : value) (before : option string) : option string :=
  match before with
  | None => None
  | Some value =>
      match Regex.keys (curlyBraces value) with
      | [] => Some value
      | key :: _ =>
          let attribute := ToString (or_else (read state key) (VStr "")) in
          if attribute =? "" then None else Some attribute
      end
  end.


End Attributes.

(** ** Helpers for the statements about the traps *)
Module Writes.

(** The event of a [set] trap at [path] that read [old] before the
    write. *)
Definition own_event (old : value) (path : list segment) (property : string)
           (value : JS.value) : Event :=
  mkEvent (if is_defined old then CHANGE else ASSIGN)
          (path ++ [Key property]) old value.

(** An event obeys the rule of the [set] trap, for a write of [value] to
    [property] whose prior value is defined or is not. *)
Definition obeys (defined : bool) (property : string) (value : JS.value)
           (e : Event) : Prop :=
  newValue e = value
  /\ (exists p, path e = p ++ [Key property])
  /\ (if defined then event e = CHANGE /\ oldValue e <> VUndefined
      else event e = ASSIGN /\ oldValue e = VUndefined).

End Writes.

(** ** Helpers for the statements about calls on the proxy *)
Module Calls.

(** The events of writing [items] to the indices from [k] on, none of
    which holds a value yet; [silent] tells the values whose write emits
    nothing. *)
Fixpoint assigned (silent : value -> bool) (p : list segment) (k : nat)
         (items : list value) : list Event :=
  match items with
  | [] => []
  | E :: rest =>
      (if silent E then []
       else [mkEvent ASSIGN (p ++ [Key (string_of_nat k)]) VUndefined E])
        ++ assigned silent p (S k) rest
  end.

Definition never (v : value) : bool := false.

End Calls.

(** ** Properties of registries *)
Module Registries.

(** A [Map] has one entry per key. *)
Definition unique_subjects {consumer : Type}
           (m : Scheduler.registry consumer) : Prop :=
  NoDup (map fst m).

(** How many of [vars] name, under [scope], the key that the path of [e]
    joins to. *)
Definition naming (keyFrom : string -> string) (scope vars : list string)
           (e : Event) : nat :=
  List.length
    (filter (fun var => Scheduler.toString (scope ++ [keyFrom var])
                        =? join (path e)) vars).

End Registries.

(** ** Third generation: [#getState], [Template.fill], [#bindTextNode]
    and [#bindAttributes] *)
Module V3State.

(** How a call ends: with a value, with an exception, or not within the
    depth of recursion allowed. *)
Inductive outcome (A : Type) : Type :=
| Returns (a : A)
| Throws
| Unfinished.

Arguments Returns {A}.
Arguments Throws {A}.
Arguments Unfinished {A}.

(** How the loop of [#getState] ends. *)
Inductive scanned : Type :=
| Found (currentObject : value)     (* the loop ran to its end *)
| Retry                             (* [return this.#getState(previous)] *)
| TypeError.                        (* a property of [null] was read *)

(** The loop of [#getState] over the segments still to read; [long] is
    [path.length > 1]. *)
Fixpoint scan (long : bool) (currentObject : value) (keys : list string)
  : scanned :=
  match keys with
  | [] => Found currentObject
  | key :: rest =>
      if negb (is_defined currentObject) then Retry
      else match member currentObject key with
           | None => TypeError
           | Some v =>
               if negb (is_defined v) && long then Retry
               else scan long v rest
           end
  end.

(** [previous]: the path without its last segment but one. *)
Definition previous (path : list string) : list string :=
  removelast (removelast path) ++ [last path ""].

(** [#getState(path)]; [depth] bounds the nesting of the calls. *)
Fixpoint getState (depth : nat) (state : value) (path : list string)
  : outcome value :=
  match depth with
  | O => Unfinished
  | S depth' =>
      match path with
      | [] => Returns state
      | _ :: _ =>
          match scan (1 <? List.length path)%nat state path with
          | Found currentObject => Returns currentObject
          | TypeError => Throws
          | Retry => getState depth' state (previous path)
          end
      end
  end.

(** [Template.fill]: the text is that of the second generation, the
    expression the one with the dollar sign. *)
Definition fill (text : string) (data : value) : option string :=
  Regex.replace
    (fun key => match member data key with
                | None => None
                | Some v => Some (ToString (or_else v (VStr "")))
                end)
    (V3.Template.curlyBraces text).

(** The closure built by [#bindTextNode]. *)
Record text_consumer : Type := mkTextConsumer {
  template : string;
  scope : list string;
  vars : list string
}.

(** [#bindTextNode(node, path)]: the text of the clone and the registry
    afterwards; [None] is an exception. *)
Definition bindTextNode (state : value) (textContent : string)
           (path : list string)
           (reg : Scheduler.registry text_consumer)
  : option (string * Scheduler.registry text_consumer) :=
  match V3.Template.match_ textContent with
  | None => Some (textContent, reg)
  | Some vars =>
      let reg' := V3.subscribe path vars
                    (mkTextConsumer textContent path vars) reg in
      match V3.fillState state textContent path vars with
      | None => None
      | Some text => Some (text, reg')
      end
  end.

(** The closure built by [#bindAttributes] for one attribute. *)
Definition consumer (name template : string) (state : value)
           (node : DOM.Element) : option DOM.Element :=
  match fill template state with
  | None => None
  | Some attribute =>
      if truthy (VStr attribute)
      then Some (DOM.setAttribute name attribute node)
      else Some (DOM.removeAttribute name node)
  end.

(** One round of the loop of [#bindAttributes]: nothing is subscribed. *)
Definition bindAttribute (state : value) (node : DOM.Element)
           (name : string) : option DOM.Element :=
  match DOM.getAttribute node name with
  | None => Some node
  | Some value =>
      if value =? "" then Some node
      else match V3.Template.match_ value with
           | None => Some node
           | Some vars =>
               let template := hd "" vars in
               if template =? "" then Some node
               else consumer name template state node
           end
  end.

(** [#bindAttributes(node, path)] *)
Definition bindAttributes (depth : nat) (root : value) (node : DOM.Element)
           (path : list string) : outcome DOM.Element :=
  match getState depth root path with
  | Unfinished => Unfinished
  | Throws => Throws
  | Returns state =>
      match fold_left (fun acc name => match acc with
                                       | None => None
                                       | Some n => bindAttribute state n name
                                       end)
                      (DOM.getAttributeNames node) (Some node) with
      | None => Throws
      | Some node' => Returns node'
      end
  end.

(** What [#bindListNode(node, parent, path)] leaves in the registry: the
    redraw closure, under the path of the list.  Nothing is drawn at
    binding time. *)
Definition bindListNode {consumer : Type} (for_ : string)
           (path : list string) (redraw : consumer)
           (reg : Scheduler.registry consumer)
  : Scheduler.registry consumer :=
  let key := V3.Template.keyFrom for_ in
  let target := path ++ [key] in
  V3.subscribeList target redraw reg.

End V3State.

(** ** [defineElement] *)
Module Elements.

(** [s.includes(c)] for a one-character [c]. *)
Fixpoint includes (c : ascii) (s : string) : bool :=
  match s with
  | EmptyString => false
  | String c' rest => (c' =? c)%char || includes c rest
  end.

(** The properties that [WebComponent.tags], an object literal, inherits
    from [Object.prototype]; [in] sees them. *)
Definition Object_prototype : list string :=
  ["constructor"; "__defineGetter__"; "__defineSetter__"; "hasOwnProperty";
   "__lookupGetter__"; "__lookupSetter__"; "isPrototypeOf";
   "propertyIsEnumerable"; "toString"; "valueOf"; "__proto__";
   "toLocaleString"].

(** The global state [defineElement] works on: the own keys of
    [WebComponent.tags] and the names in the registry of custom
    elements. *)
Record page : Type := mkPage {
  tags : list string;
  defined : list string
}.

(** [tag in WebComponent.tags] *)
Definition in_tags (tag : string) (p : page) : bool :=
  existsb (String.eqb tag) (tags p)
  || existsb (String.eqb tag) Object_prototype.

Inductive ended : Type :=
| Returned (b : bool)
| Thrown.

Section Define.
(** Whether a name is a valid custom element name. *)
Variable valid : string -> bool.

(** [customElements.define(name, constructor)] with a constructor of its
    own: it throws for a name that is not valid or is defined already. *)
Definition customElements_define (name : string) (p : page) : option page :=
  if valid name && negb (existsb (String.eqb name) (defined p))
  then Some {| tags := tags p; defined := defined p ++ [name] |}
  else None.

(** The last statements of [defineElement], the same in all
    generations: the argument [WebComponent.tags[tag] = class ...] is
    evaluated, and so the key is set, before [define] is called. *)
Definition define (tag : string) (p : page) : ended * page :=
  let assigned := {| tags := if existsb (String.eqb tag) (tags p)
                             then tags p else tags p ++ [tag];
                     defined := defined p |} in
  match customElements_define tag assigned with
  | Some p' => (Returned true, p')
  | None => (Thrown, assigned)
  end.

(** [defineElement] of [src/unnamed/part_000] and of the first document
    of [src/web-component.js]. *)
Definition defineElement (tag : string) (p : page) : ended * page :=
  if (tag =? "") || negb (includes "-" tag) then (Returned false, p)
  else if in_tags tag p then (Returned true, p)
  else define tag p.

(** [defineElement] of the second document of [src/web-component.js]:
    the two tests come in the other order. *)
Definition defineElement_V2 (tag : string) (p : page) : ended * page :=
  if in_tags tag p then (Returned true, p)
  else if negb (includes "-" tag) then (Returned false, p)
  else define tag p.

(** Every key of [WebComponent.tags] names an element that was defined,
    unless its name is not valid; and what was defined is a key. *)
Definition consistent (p : page) : Prop :=
  (forall t, In t (defined p) -> In t (tags p))
  /\ (forall t, In t (tags p) -> valid t = true -> In t (defined p)).

End Define.

End Elements.

(** ** [CodeLoader.#resolve] *)
Module Loader.

(** [toLowerCase] of one character of ASCII text. *)
Definition lower (c : ascii) : ascii :=
  let n := nat_of_ascii c in
  if ((65 <=? n) && (n <=? 90))%nat then ascii_of_nat (n + 32) else c.

Fixpoint toLowerCase (s : string) : string :=
  match s with
  | EmptyString => EmptyString
  | String c rest => String (lower c) (toLowerCase rest)
  end.

(** [s.split(sep)] for a one-character separator: [current] is the piece
    being read. *)
Fixpoint split_from (sep : ascii) (current : string) (s : string)
  : list string :=
  match s with
  | EmptyString => [current]
  | String c rest =>
      if (c =? sep)%char then current :: split_from sep "" rest
      else split_from sep (current ++ String c EmptyString) rest
  end.

Definition split (sep : ascii) (s : string) : list string :=
  split_from sep "" s.

(** [`${tag.toLowerCase().split('-').join('/')}.html`] *)
Definition resolve (tag : string) : string :=
  (String.concat "/" (split "-" (toLowerCase tag)) ++ ".html")%string.

(** The text is ASCII. *)
Fixpoint is_ascii (s : string) : bool :=
  match s with
  | EmptyString => true
  | String c rest => (nat_of_ascii c <? 128)%nat && is_ascii rest
  end.

(** Hyphens to slashes, letters to lower case, one character at a
    time. *)
Fixpoint as_path (s : string) : string :=
  match s with
  | EmptyString => EmptyString
  | String c rest =>
      String (if (c =? "-")%char then "/"%char else lower c) (as_path rest)
  end.

End Loader.

(** ** The keys of the instances: the constructor of [WebComponent] *)
Module Instances.

(** [WebComponent.ids] and the keys of [WebComponent.instances]. *)
Record statics : Type := mkStatics {
  ids : list (string * nat);
  instances : list string
}.

Fixpoint id_of (localName : string) (ids : list (string * nat)) : nat :=
  match ids with
  | [] => 0
  | (n, i) :: rest => if n =? localName then i else id_of localName rest
  end.

Fixpoint set_id (localName : string) (i : nat) (ids : list (string * nat))
  : list (string * nat) :=
  match ids with
  | [] => [(localName, i)]
  | (n, j) :: rest =>
      if n =? localName then (n, i) :: rest
      else (n, j) :: set_id localName i rest
  end.

(** [this.localName + '-' + WebComponent.ids[this.localName]] *)
Definition key_of (localName : string) (i : nat) : string :=
  (localName ++ "-" ++ string_of_nat i)%string.

(** The constructor, for an element named [localName]: the key it gives
    the instance and the static fields afterwards.  A count that is missing
    or zero becomes one, any other count grows by one. *)
Definition construct (localName : string) (r : statics)
  : string * statics :=
  let i := match id_of localName (ids r) with
           | O => 1
           | S n => S (S n)
           end in
  let key := key_of localName i in
  (key, {| ids := set_id localName i (ids r);
           instances := if existsb (String.eqb key) (instances r)
                        then instances r else instances r ++ [key] |}).

(** The keys given to the elements constructed one after the other. *)
Fixpoint construct_all (localNames : list string) (r : statics)
  : list string :=
  match localNames with
  | [] => []
  | n :: rest =>
      let (key, r') := construct n r in key :: construct_all rest r'
  end.

End Instances.

(** ** First generation, [src/web-component.js], first document:
    [#getState] and [#getByWay] of its [StateManager] *)
Module V1.
Import V3State.

(** The loop of [#getByWay]: [valueObject] and [keyObject] after the
    parts; [None] is a [TypeError]. *)
Fixpoint parts (root : value) (way : list string)
         (valueObject keyObject : value) : option (value * value) :=
  match way with
  | [] => Some (valueObject, keyObject)
  | part :: rest =>
      (* [keyObject && keyObject[part]] *)
      let in_key := if truthy keyObject then read keyObject part
                    else keyObject in
      if truthy in_key then parts root rest valueObject in_key
      else
        match member valueObject part with
        | None => None
        | Some v =>
            if truthy v then parts root rest v keyObject
            else if negb (truthy keyObject) then
                   match member root part with
                   | None => None
                   | Some k => parts root rest valueObject k
                   end
                 else parts root rest valueObject keyObject
        end
  end.

(** [#getByWay(way)]: the last part, without its brackets, names the
    property of [keyObject] whose value is the key looked up in
    [valueObject]. *)
Definition getByWay (root : value) (way : list string) : outcome value :=
  let key := Regex.slice 1 (last way "") in
  match parts root (removelast way) root VUndefined with
  | None => Throws
  | Some (valueObject, keyObject) =>
      match member keyObject key with
      | None => Throws
      | Some name =>
          match member valueObject (ToString name) with
          | None => Throws
          | Some v => Returns v
          end
      end
  end.

(** [#getState(_path, _state, way)] over the manager's state [root];
    [depth] bounds the nesting of the calls. *)
Fixpoint getState (depth : nat) (root : value) (_path : list string)
         (_state : value) (way : list string) : outcome value :=
  match depth with
  | O => Unfinished
  | S depth' =>
      match _path with
      | [] => Returns _state
      | key :: path =>
          if key =? "" then Returns _state
          else
            match member _state key with
            | None => Throws
            | Some v =>
                if truthy v
                then getState depth' root path v (way ++ [key])
                else if prefix "[" key then getByWay root (way ++ [key])
                else
                  match path with
                  | _ :: _ => getState depth' root (key :: path) root way
                  | [] =>
                      match member root key with
                      | None => Throws
                      | Some r => Returns r
                      end
                  end
            end
      end
  end.

End V1.

(** ** First generation: a reference to the state of another component,
    written into an attribute by [#bindAttributes] and read back by
    [#loadProps] *)
Module Props.

(** [node.setAttribute(name, [this.element.key, path])]: the attribute
    holds the array as a string, the inner array flattened into it. *)
Definition reference (key : string) (path : list string) : string :=
  (key ++ "," ++ String.concat "," path)%string.

(** [const [key, ...path] = value.split(',')] *)
Definition loadProp (value : string) : string * list string :=
  match Loader.split "," value with
  | [] => ("undefined", [])
  | key :: path => (key, path)
  end.

End Props.

(** * Facts *)

(** ** The observer *)
Module ObserverFacts.
Import Observer Writes.

Ltac run_handler :=
  unfold run, V2.set, V3.set, deleteProperty, trap, push, pop, shift,
    unshift, splice, sort, bind, builtin, this, emitEvent, ret, events,
    returned, target_after; cbn [target emitted fst snd].

Lemma is_defined_false (v : value) : is_defined v = false <-> v = VUndefined.
Proof. destruct v; cbn; split; congruence. Qed.

Lemma is_defined_true (v : value) : is_defined v = true <-> v <> VUndefined.
Proof. destruct v; cbn; split; congruence. Qed.

Lemma is_defined_observe (v : value) (p : list segment) :
  is_defined (observe v p) = is_defined v.
Proof. destruct v; reflexivity. Qed.

Lemma run_trap {A : Type} (f : value -> A * value * list Event) (t : value) :
  run (trap f) t = f t.
Proof.
  unfold run, trap. cbn [target emitted].
  destruct (f t) as [[a t'] es]. reflexivity.
Qed.

(** What a write of the second generation gives on a target that is not
    an observer. *)
Lemma V2_write_plain {E : Engine} target path property value :
  is_observer target = false ->
  V2.write target path property value =
  match OrdinarySet target property value with
  | Completes (r, t') =>
      (Completes r, t',
       [own_event (Reflect_get target property) path property value])
  | Abrupt e => (Abrupt e, target, [])
  end.
Proof.
  intros Hraw.
  destruct target; try discriminate Hraw; cbn [V2.write];
    (destruct (OrdinarySet _ property value) as [[r t']|e];
     [|reflexivity]);
    unfold own_event;
    (destruct (is_defined _) eqn:Hd; [reflexivity|]);
    apply is_defined_false in Hd; rewrite Hd; reflexivity.
Qed.

(** What a write of the second generation gives on an observer. *)
Lemma V2_write_observer {E : Engine} t p path property value :
  V2.write (VProxy t p) path property value =
  match V2.write t p property value with
  | (Completes r, t', es) =>
      (Completes r, VProxy t' p,
       es ++ [own_event (Reflect_get (VProxy t p) property)
                        path property value])
  | (Abrupt e, t', es) => (Abrupt e, VProxy t' p, es)
  end.
Proof.
  cbn [V2.write].
  destruct (V2.write t p property value) as [[[r|e] t'] es]; [|reflexivity].
  unfold own_event. destruct (is_defined _) eqn:Hd; [reflexivity|].
  apply is_defined_false in Hd. rewrite Hd. reflexivity.
Qed.

(** The third generation writes as the second and emits as it does,
    but for a function. *)
Lemma V3_write_V2 {E : Engine} target :
  forall path property value,
    V3.write target path property value =
    let '(r, t', es) := V2.write target path property value in
    (r, t', if is_function value then [] else es).
Proof.
  induction target as [| | b | n | s | src | props | items | t IHt p];
    intros path0 property value;
    try (cbn [V3.write V2.write];
         destruct (OrdinarySet _ property value) as [[r t']|e];
         [|destruct (is_function value); reflexivity];
         destruct (is_function value), (is_defined _); reflexivity).
  cbn [V3.write V2.write]. rewrite IHt.
  destruct (V2.write t p property value) as [[[r|e] t'] es].
  - destruct (is_function value), (is_defined _); reflexivity.
  - destruct (is_function value); reflexivity.
Qed.

Lemma own_event_obeys old p property value :
  obeys (is_defined old) property value (own_event old p property value).
Proof.
  unfold obeys, own_event. cbn [newValue path event oldValue].
  split; [reflexivity|]. split; [exists p; reflexivity|].
  destruct (is_defined old) eqn:Hd.
  - split; [reflexivity|]. apply is_defined_true. exact Hd.
  - split; [reflexivity|]. apply is_defined_false. exact Hd.
Qed.

Lemma V2_write_events {E : Engine} target :
  forall path property value,
    let r := V2.write target path property value in
    match fst (fst r) with
    | Completes _ =>
        exists inner,
          snd r = inner ++ [own_event (Reflect_get target property)
                                      path property value]
          /\ List.length inner = observers target
          /\ forall e, In e inner ->
               obeys (is_defined (Reflect_get target property))
                     property value e
    | Abrupt _ => snd r = []
    end.
Proof.
  induction target as [| | b | n | s | src | props | items | t IHt p];
    intros path0 property value;
    try (rewrite V2_write_plain by reflexivity;
         destruct (OrdinarySet _ property value) as [[r t']|e];
         cbn [fst snd]; [|reflexivity];
         exists []; split; [reflexivity|];
         split; [reflexivity|]; intros e []).
  rewrite V2_write_observer.
  specialize (IHt p property value). cbn zeta in IHt.
  destruct (V2.write t p property value) as [[[r|e] t'] es];
    cbn [fst snd] in *; [|exact IHt].
  destruct IHt as (inner & -> & Hlen & Hin).
  eexists. split; [reflexivity|]. split.
  - rewrite length_app, Hlen. cbn [List.length observers]. lia.
  - intros e He. unfold Reflect_get. cbn [read].
    rewrite is_defined_observe.
    apply in_app_or in He. destruct He as [He|[<-|[]]].
    + apply Hin. exact He.
    + apply own_event_obeys.
Qed.

(** On a target that is not an observer the one event of a write is at
    the path of the observer written through. *)
Lemma raw_write_path {E : Engine} target p property value e :
  is_observer target = false ->
  In e (events (run (V2.set p property value) target))
  \/ In e (events (run (V3.set p property value) target)) ->
  path e = p ++ [Key property].
Proof.
  intros Hraw. unfold V2.set, V3.set. rewrite !run_trap, V3_write_V2.
  rewrite (V2_write_plain _ _ _ _ Hraw).
  destruct (OrdinarySet target property value) as [[r t']|err];
    unfold events; cbn [snd fst];
    destruct (is_function value); cbn [In]; intros H;
    repeat match type of H with
      | _ \/ _ => destruct H as [H|H]
      | False => destruct H
      end; subst e; reflexivity.
Qed.

(** What the two [set] traps return, leave and emit on one write. *)
Lemma both_set_traps (E : Engine) p property value target :
  let old := Reflect_get target property in
  let second := run (V2.set p property value) target in
  let third := run (V3.set p property value) target in
  (forall result, returned second = Completes result ->
     exists inner,
       events second = inner ++ [own_event old p property value]
       /\ List.length inner = observers target)
  /\ returned third = returned second
  /\ target_after third = target_after second
  /\ events third = (if is_function value then [] else events second).
Proof.
  intros old second third.
  subst second third. unfold V2.set, V3.set. rewrite !run_trap.
  rewrite V3_write_V2.
  pose proof (V2_write_events target p property value) as H.
  cbn zeta in H. fold old in H.
  destruct (V2.write target p property value) as [[r t'] es].
  unfold events, returned, target_after. cbn [fst snd] in *.
  repeat apply conj; try reflexivity.
  intros result ->. destruct H as (inner & -> & Hlen & _).
  exists inner. split; [reflexivity | exact Hlen].
Qed.

(** C1. The [set] trap of both generations.  Every event that a write
    emits carries the written value as new value and has a path that ends
    in the property; when the value read at the property before the write
    is [undefined] it is an [ASSIGN] with [undefined] as old value,
    otherwise a [CHANGE] with a value that is not [undefined].  A write
    that completes emits, last, the event of the observer written
    through, with the observer's path and the value read before the write;
    before it come the events of the observers that the target holds the
    object in, one each, and none when the target is not an observer.  A
    write that throws emits nothing.  The third generation returns and
    writes what the second does, and emits what it emits when the value
    is not a function. *)
Theorem set_emits_ASSIGN_or_CHANGE :
  forall (E : Engine) (p : list segment) (property : string)
         (value target : JS.value),
    let old := Reflect_get target property in
    let second := run (V2.set p property value) target in
    let third := run (V3.set p property value) target in
    (forall e, In e (events second) ->
       newValue e = value
       /\ (exists q, path e = q ++ [Key property])
       /\ ((old = VUndefined /\ event e = ASSIGN /\ oldValue e = VUndefined)
           \/ (old <> VUndefined /\ event e = CHANGE
               /\ oldValue e <> VUndefined)))
    /\ (forall result, returned second = Completes result ->
          exists inner,
            events second
            = inner ++ [if is_defined old
                        then mkEvent CHANGE (p ++ [Key property]) old value
                        else mkEvent ASSIGN (p ++ [Key property])
                                     VUndefined value]
            /\ List.length inner = observers target)
    /\ (forall error, returned second = Abrupt error -> events second = [])
    /\ returned third = returned second
    /\ target_after third = target_after second
    /\ events third = (if is_function value then [] else events second).
Proof.
  intros E p property value t old second third.
  subst second third. unfold V2.set, V3.set. rewrite !run_trap.
  rewrite V3_write_V2.
  pose proof (V2_write_events t p property value) as H.
  cbn zeta in H. fold old in H.
  destruct (V2.write t p property value) as [[r t'] es].
  unfold events, returned, target_after. cbn [fst snd] in *.
  repeat apply conj; try reflexivity.
  - intros e He. destruct r as [r|err]; [|rewrite H in He; destruct He].
    destruct H as (inner & -> & _ & Hin).
    assert (Hobeys : obeys (is_defined old) property value e).
    { apply in_app_or in He. destruct He as [He|[<-|[]]].
      - apply Hin. exact He.
      - apply own_event_obeys. }
    destruct Hobeys as (Hnew & Hpath & Hkind).
    split; [exact Hnew|]. split; [exact Hpath|].
    destruct (is_defined old) eqn:Hd.
    + right. split; [apply is_defined_true; exact Hd | exact Hkind].
    + left. split; [apply is_defined_false; exact Hd | exact Hkind].
  - intros result ->. destruct H as (inner & -> & Hlen & _).
    exists inner. split; [|exact Hlen]. f_equal. f_equal. unfold own_event.
    destruct (is_defined old) eqn:Hd; [reflexivity|].
    apply is_defined_false in Hd. rewrite Hd. reflexivity.
  - intros err ->. exact H.
Qed.

Lemma set_emits_ASSIGN_or_CHANGE_witness :
  events (run (V2.set (E := Examples.decimal) [Key "user"] "name"
                      (VStr "Ann")) (VObj []))
  = [mkEvent ASSIGN [Key "user"; Key "name"] VUndefined (VStr "Ann")]
  /\ events (run (V3.set (E := Examples.decimal) [Key "user"] "name"
                         (VStr "Ann")) (VObj [("name", VStr "Bob")]))
     = [mkEvent CHANGE [Key "user"; Key "name"] (VStr "Bob") (VStr "Ann")].
Proof.
  split.
  - destruct (set_emits_ASSIGN_or_CHANGE Examples.decimal [Key "user"] "name"
                (VStr "Ann") (VObj [])) as (_ & Hlast & _).
    destruct (Hlast true eq_refl) as (inner & Hevents & Hlen).
    destruct inner; [exact Hevents | discriminate Hlen].
  - destruct (set_emits_ASSIGN_or_CHANGE Examples.decimal [Key "user"] "name"
                (VStr "Ann") (VObj [("name", VStr "Bob")]))
      as (_ & Hlast & _ & _ & _ & Hthird).
    rewrite Hthird.
    destruct (Hlast true eq_refl) as (inner & Hevents & Hlen).
    destruct inner; [exact Hevents | discriminate Hlen].
Defined.

(** *** Function-valued writes *)

(** C6. A write of a function emits nothing in the third generation
    ([src/unnamed/part_000]), whose [set] returns before it reaches
    [emitEvent], and writes what the second generation writes; the [set]
    of the second generation ([src/web-component.js], second document)
    has no such guard: whenever the write completes, as it does on every
    object, it emits the event of the observer written through, carrying
    the function, after one event for each observer that the target
    holds the object in. *)
Theorem function_write_events :
  forall (E : Engine) (p : list segment) (property src : string)
         (target : JS.value),
    let second := run (V2.set p property (VFun src)) target in
    let third := run (V3.set p property (VFun src)) target in
    events third = []
    /\ target_after third = target_after second
    /\ (forall result, returned second = Completes result ->
          exists inner e,
            events second = inner ++ [e]
            /\ List.length inner = observers target
            /\ newValue e = VFun src
            /\ path e = p ++ [Key property])
    /\ (forall props, target = VObj props ->
          returned second = Completes true).
Proof.
  intros E p property src t second third.
  destruct (both_set_traps E p property (VFun src) t)
    as (Hlast & Hreturned & Hafter & Hthird).
  fold second third in Hlast, Hreturned, Hafter, Hthird.
  repeat apply conj.
  - rewrite Hthird. reflexivity.
  - exact Hafter.
  - intros result Hr. destruct (Hlast result Hr) as (inner & Hevents & Hlen).
    exists inner. eexists. split; [exact Hevents|]. split; [exact Hlen|].
    unfold own_event. split; reflexivity.
  - intros props ->. subst second. unfold V2.set. rewrite run_trap.
    cbn [V2.write OrdinarySet].
    destruct (property =? "__proto__"), (is_defined _); reflexivity.
Qed.

Lemma function_write_events_witness :
  events (run (V2.set (E := Examples.decimal) [] "helper" (VFun "() => 1"))
              (VObj []))
  = [mkEvent ASSIGN [Key "helper"] VUndefined (VFun "() => 1")].
Proof.
  destruct (function_write_events Examples.decimal [] "helper" "() => 1"
              (VObj [])) as (_ & _ & Hsecond & _).
  destruct (Hsecond true eq_refl) as (inner & e & Hevents & Hlen & _).
  destruct inner; [|discriminate Hlen].
  rewrite Hevents. injection Hevents as <-. reflexivity.
Defined.

(** Attaching a helper method to an empty state object. *)
Example V2_set_helper_method :
  run (V2.set (E := Examples.decimal) [] "helper" (VFun "() => 1")) (VObj [])
  = (Completes true, VObj [("helper", VFun "() => 1")],
     [mkEvent ASSIGN [Key "helper"] VUndefined (VFun "() => 1")]).
Proof. reflexivity. Qed.

(** *** [splice] *)

Lemma nonempty_true (l : list value) : nonempty l = true <-> l <> [].
Proof.
  unfold nonempty, length_of. rewrite Z.ltb_lt.
  destruct l; cbn [List.length]; split; intros H; try lia; congruence.
Qed.

Lemma splice_run path start deleteCount items target :
  run (splice path start deleteCount items) target =
  let deletedItems := fst (Array_splice start deleteCount items target) in
  (deletedItems, snd (Array_splice start deleteCount items target),
   (if nonempty deletedItems
    then [mkEvent REMOVE (path ++ [Index start]) (VArr deletedItems) VUndefined]
    else [])
   ++ (if nonempty items
       then [mkEvent ADD (path ++ [Index start]) VUndefined (VArr items)]
       else [])).
Proof.
  run_handler. unfold nonempty.
  destruct (Array_splice start deleteCount items target) as [deleted rest].
  cbn [fst snd].
  destruct (0 <? length_of deleted)%Z, (0 <? length_of items)%Z;
    reflexivity.
Qed.

Lemma kinds_of_two (b1 b2 : bool) (x y : Event) (k : EVENT_TYPES) :
  (exists e, In e ((if b1 then [x] else []) ++ (if b2 then [y] else []))
             /\ event e = k)
  <-> (b1 = true /\ event x = k) \/ (b2 = true /\ event y = k).
Proof.
  split.
  - intros (e & Hin & Hk). apply in_app_or in Hin.
    destruct Hin as [Hin|Hin]; [left; destruct b1 | right; destruct b2];
      cbn [In] in Hin; try contradiction;
      destruct Hin as [<-|Hin]; try contradiction; split; trivial.
  - intros [[-> Hk]|[-> Hk]]; [exists x | exists y]; split; trivial;
      apply in_or_app; [left | right]; left; reflexivity.
Qed.

(** X28.  The [splice] handler, when it runs: with [deletedItems] what
    [target.splice] returns, the events are a [REMOVE] at
    [[...path, start]] carrying [deletedItems] exactly when
    [deletedItems] is not empty, followed by an [ADD] at
    [[...path, start]] carrying [items] exactly when [items] is not empty;
    each is emitted whatever the other does, and both are when something
    was deleted and something inserted. *)
Theorem splice_emits_REMOVE_then_ADD :
  forall (p : list segment) (start deleteCount : Z)
         (items target : list value),
    let r := run (splice p start deleteCount items) target in
    let deletedItems := returned r in
    let removed :=
      mkEvent REMOVE (p ++ [Index start]) (VArr deletedItems) VUndefined in
    let added :=
      mkEvent ADD (p ++ [Index start]) VUndefined (VArr items) in
    deletedItems = fst (Array_splice start deleteCount items target)
    /\ events r = (if nonempty deletedItems then [removed] else [])
                  ++ (if nonempty items then [added] else [])
    /\ ((exists e, In e (events r) /\ event e = REMOVE) <-> deletedItems <> [])
    /\ ((exists e, In e (events r) /\ event e = ADD) <-> items <> []).
Proof.
  intros p start deleteCount items target r deletedItems removed added.
  assert (He : events r = (if nonempty deletedItems then [removed] else [])
                          ++ (if nonempty items then [added] else [])).
  { subst r deletedItems removed added. rewrite splice_run. reflexivity. }
  split; [subst deletedItems r; rewrite splice_run; reflexivity|].
  split; [exact He|].
  rewrite He, !kinds_of_two, <- !nonempty_true. cbn [event removed added].
  split; split.
  - intros [[H _]|[_ H]]; [exact H | discriminate H].
  - intros H. left. split; trivial.
  - intros [[_ H]|[H _]]; [discriminate H | exact H].
  - intros H. right. split; trivial.
Qed.

(** *** [REMOVE] without a removed value *)

Lemma property_absent (k : string) (props : list (string * value)) :
  ~ In k (map fst props) -> lookup k props = None.
Proof.
  induction props as [|[k' v] rest IH]; cbn [lookup map fst In]; intros H.
  - reflexivity.
  - destruct (String.eqb_spec k' k) as [->|_].
    + exfalso. apply H. left. reflexivity.
    + apply IH. intros Hin. apply H. right. exact Hin.
Qed.

Lemma remove_absent (k : string) (props : list (string * value)) :
  ~ In k (map fst props) -> remove k props = props.
Proof.
  unfold remove.
  induction props as [|[k' v] rest IH]; cbn [filter map fst In]; intros H.
  - reflexivity.
  - destruct (String.eqb_spec k' k) as [->|_]; cbn [negb].
    + exfalso. apply H. left. reflexivity.
    + f_equal. apply IH. intros Hin. apply H. right. exact Hin.
Qed.

(** X29.  [REMOVE] does not depend on there being anything to remove: the
    [deleteProperty] trap on an object that has no such property of its
    own, and the [pop] and [shift] handlers when they run on an empty
    array, leave the target as it was and still emit one [REMOVE] event.
    Its removed value is what was read before: [undefined] from the empty
    array, and from the object the value that it inherits under that
    name, which is [undefined] but for the names of [Object.prototype];
    [delete user.toString] carries the inherited function. *)
Theorem REMOVE_is_unconditional :
  forall p : list segment,
    (forall (property : string) (props : list (string * value)),
        ~ In property (map fst props) ->
        run (deleteProperty p property) (VObj props)
        = (Completes true, VObj props,
           [mkEvent REMOVE (p ++ [Key property])
                    (match inherited (VObj props) property with
                     | Some v => v
                     | None => VUndefined
                     end) VUndefined]))
    /\ run (deleteProperty p "toString") (VObj [])
       = (Completes true, VObj [],
          [mkEvent REMOVE (p ++ [Key "toString"])
                   (VFun "function toString() { [native code] }")
                   VUndefined])
    /\ run (pop p) []
       = (VUndefined, [],
          [mkEvent REMOVE (p ++ [Index 0]) VUndefined VUndefined])
    /\ run (shift p) []
       = (VUndefined, [],
          [mkEvent REMOVE (p ++ [Index 0]) VUndefined VUndefined]).
Proof.
  intros p. repeat apply conj; try reflexivity.
  intros property props Habsent. unfold deleteProperty. rewrite run_trap.
  cbn [delete OrdinaryDelete]. unfold Reflect_get. cbn [read own].
  rewrite (property_absent _ _ Habsent), (remove_absent _ _ Habsent).
  reflexivity.
Qed.

Lemma REMOVE_is_unconditional_witness :
  run (deleteProperty [Key "user"] "age") (VObj [("name", VStr "Ann")])
  = (Completes true, VObj [("name", VStr "Ann")],
     [mkEvent REMOVE [Key "user"; Key "age"] VUndefined VUndefined]).
Proof.
  apply (proj1 (REMOVE_is_unconditional [Key "user"])).
  cbn. intros [H|[]]. discriminate H.
Defined.

(** *** How many events one call emits *)

Lemma delete_events target :
  forall p property,
    let r := delete target p property in
    match fst (fst r) with
    | Completes _ => List.length (snd r) = S (observers target)
    | Abrupt _ => snd r = []
    end.
Proof.
  induction target as [| | b | n | s | src | props | items | t IHt q];
    intros p property;
    try (cbn [delete];
         destruct (OrdinaryDelete _ property) as [[r t']|e];
         reflexivity).
  cbn [delete]. specialize (IHt q property). cbn zeta in IHt.
  destruct (delete t q property) as [[[r|e] t'] es]; cbn [fst snd] in *.
  - rewrite length_app, IHt. cbn [List.length observers]. lia.
  - exact IHt.
Qed.

(** C5, as the code has it.  By the time it returns, a [set] or a
    [deleteProperty] trap that completes has emitted one event for the
    observer it was called on and one for each observer that the target
    holds the object in, so exactly one when the target is not an
    observer; the [set] trap of the third generation emits none for a
    function, and a trap that throws emits none.  A write to a property
    of an object always completes.  Each of the handlers [push], [pop],
    [shift], [unshift] and [sort] emits one event when it runs, and the
    [splice] handler one event if it deleted something plus one if it
    inserted something, that is none, one or two. *)
Theorem one_event_per_call_but_for_functions_and_splice :
  forall (E : Engine) (p : list segment),
    (forall property value target,
        let r := run (V3.set p property value) target in
        count r = match returned r with
                  | Abrupt _ => 0
                  | Completes _ =>
                      if is_function value then 0 else S (observers target)
                  end)
    /\ (forall property value target,
           let r := run (V2.set p property value) target in
           count r = match returned r with
                     | Abrupt _ => 0
                     | Completes _ => S (observers target)
                     end)
    /\ (forall property target,
           let r := run (deleteProperty p property) target in
           count r = match returned r with
                     | Abrupt _ => 0
                     | Completes _ => S (observers target)
                     end)
    /\ (forall property value props,
           returned (run (V3.set p property value) (VObj props))
           = Completes true
           /\ returned (run (V2.set p property value) (VObj props))
              = Completes true
           /\ returned (run (deleteProperty p property) (VObj props))
              = Completes true)
    /\ (forall items target, count (run (push p items) target) = 1)
    /\ (forall target, count (run (pop p) target) = 1)
    /\ (forall target, count (run (shift p) target) = 1)
    /\ (forall items target, count (run (unshift p items) target) = 1)
    /\ (forall Array_sort target,
           count (run (sort p Array_sort) target) = 1)
    /\ (forall start deleteCount items target,
           let r := run (splice p start deleteCount items) target in
           count r = (if nonempty (returned r) then 1 else 0)
                     + (if nonempty items then 1 else 0))%nat.
Proof.
  intros E p.
  assert (Hsecond : forall property value target,
             let r := run (V2.set p property value) target in
             count r = match returned r with
                       | Abrupt _ => 0
                       | Completes _ => S (observers target)
                       end).
  { intros property v t r. subst r. unfold V2.set. rewrite run_trap.
    pose proof (V2_write_events t p property v) as H. cbn zeta in H.
    destruct (V2.write t p property v) as [[[r|e] t'] es];
      unfold count, events, returned; cbn [fst snd] in *.
    - destruct H as (inner & -> & Hlen & _).
      rewrite length_app, Hlen. cbn [List.length]. lia.
    - rewrite H. reflexivity. }
  unfold count. repeat apply conj; try reflexivity.
  - intros property v t.
    destruct (both_set_traps E p property v t) as (_ & Hr & _ & He).
    rewrite He, Hr. specialize (Hsecond property v t).
    cbn zeta in Hsecond. unfold count in Hsecond.
    destruct (is_function v).
    + destruct (returned _); reflexivity.
    + exact Hsecond.
  - exact Hsecond.
  - intros property t. unfold deleteProperty. rewrite run_trap.
    pose proof (delete_events t p property) as H. cbn zeta in H.
    destruct (delete t p property) as [[[r|e] t'] es];
      unfold events, returned; cbn [fst snd] in *.
    + exact H.
    + rewrite H. reflexivity.
  - intros property v props.
    unfold V3.set, V2.set, deleteProperty. rewrite !run_trap.
    cbn [V3.write V2.write delete OrdinarySet OrdinaryDelete].
    destruct (property =? "__proto__"), (is_function v), (is_defined _);
      repeat split; reflexivity.
  - intros start deleteCount items t. rewrite splice_run.
    unfold returned, events. cbn [fst snd].
    destruct (nonempty _), (nonempty items); reflexivity.
Qed.

(** C5 as the spec words it fails on these calls: the write of a
    function emits nothing; the [splice] handler emits two events when it
    deletes and inserts and none when it does neither; and a [push] of
    one item called on an observed array, which runs the built-in through
    the [set] trap, emits two. *)
Lemma not_one_event_per_call :
  count (run (V3.set (E := Examples.decimal) [] "helper" (VFun "() => 1"))
             (VObj [])) = 0
  /\ count (run (splice [Key "items"] 0 1 [VStr "x"]) [VStr "a"]) = 2
  /\ count (run (splice [Key "items"] 5 5 []) [VStr "a"; VStr "b"]) = 0
  /\ count (run (Proxy.on_proxy (V3.set (E := Examples.decimal))
                   [Key "items"]
                   (Proxy.Array_prototype_push [VStr "x"])) (VArr [])) = 2.
Proof. repeat apply conj; reflexivity. Qed.

End ObserverFacts.

(** ** Array methods called on the proxy *)
Module ProxyFacts.
Import Observer Proxy Examples.

Lemma appends_ret {A} (p : list segment) (a : A) : appends p (ret a).
Proof.
  intros h. exists []. rewrite app_nil_r.
  repeat split; constructor.
Qed.

Lemma appends_bind {A B} (p : list segment) (c : handler value A)
      (k : A -> handler value B) :
  appends p c -> (forall a, appends p (k a)) -> appends p (bind c k).
Proof.
  intros Hc Hk h. unfold bind.
  destruct (Hc h) as (es1 & He1 & Hf1 & Ho1 & Hp1).
  destruct (c h) as [a h1]. cbn [snd] in *.
  destruct (Hk a h1) as (es2 & He2 & Hf2 & Ho2 & Hp2).
  exists (es1 ++ es2). rewrite He2, He1, app_assoc.
  split; [reflexivity|]. split; [apply Forall_app; split; assumption|].
  split; [congruence|]. intros Hraw.
  apply Forall_app. split; [apply Hp1; exact Hraw|].
  apply Hp2. rewrite Ho1. exact Hraw.
Qed.

Lemma appends_attempt {A B} (p : list segment)
      (c : handler value (completion A))
      (k : A -> handler value (completion B)) :
  appends p c -> (forall a, appends p (k a)) -> appends p (attempt c k).
Proof.
  intros Hc Hk. unfold attempt. apply appends_bind; [exact Hc|].
  intros [a|e]; [apply Hk | apply appends_ret].
Qed.

Lemma appends_this (p : list segment) : appends p (@this value).
Proof.
  intros h. exists []. rewrite app_nil_r. repeat split; constructor.
Qed.

Lemma appends_get (p : list segment) (k : string) : appends p (get p k).
Proof.
  unfold get. apply appends_bind.
  - apply appends_bind; [apply appends_this | intros; apply appends_ret].
  - intros v. destruct (is_object v); apply appends_ret.
Qed.

Lemma from_trap_at (p : list segment) (kind : EVENT_TYPES) (k : string)
      (old new : value) :
  kind = ASSIGN \/ kind = CHANGE \/ kind = REMOVE ->
  from_trap (mkEvent kind (p ++ [Key k]) old new).
Proof. intros Hkind. split; [exact Hkind|]. exists p, k. reflexivity. Qed.

Lemma appends_trap {A} (p : list segment)
      (f : value -> A * value * list Event) :
  (forall t, appending p (f t) t) -> appends p (trap f).
Proof.
  intros Hf h. unfold trap. destruct (Hf (target h)) as (Hall & Hobs & Hat).
  destruct (f (target h)) as [[a t'] es]. cbn [fst snd target emitted] in *.
  exists es. repeat split; assumption.
Qed.

Lemma OrdinarySet_keeps {E : Engine} target k v r t' :
  OrdinarySet target k v = Completes (r, t') ->
  is_observer t' = is_observer target.
Proof.
  destruct target; cbn [OrdinarySet]; try discriminate.
  - intros [= _ <-]. reflexivity.
  - destruct (k =? "__proto__"); intros [= _ <-]; reflexivity.
  - destruct (k =? "length").
    + destruct (array_length v); [|discriminate]. intros [= _ <-]. reflexivity.
    + destruct (array_index k); intros [= _ <-]; reflexivity.
Qed.

Lemma OrdinaryDelete_keeps target k r t' :
  OrdinaryDelete target k = Completes (r, t') ->
  is_observer t' = is_observer target.
Proof.
  destruct target; cbn [OrdinaryDelete]; try discriminate.
  - intros [= _ <-]. reflexivity.
  - intros [= _ <-]. reflexivity.
  - destruct (k =? "length"); [intros [= _ <-]; reflexivity|].
    destruct (array_index k) as [i|]; [|intros [= _ <-]; reflexivity].
    destruct (i <? _)%nat; intros [= _ <-]; reflexivity.
Qed.

Lemma own_event_from_trap old p k v :
  from_trap (Writes.own_event old p k v).
Proof.
  apply from_trap_at. destruct (is_defined old); auto.
Qed.

Lemma appending_V2_write {E : Engine} target :
  forall p k v, appending p (V2.write target p k v) target.
Proof.
  induction target as [| | b | n | s | src | props | items | t IHt q];
    intros p k v;
    try (rewrite ObserverFacts.V2_write_plain by reflexivity;
         destruct (OrdinarySet _ k v) as [[r t']|e] eqn:Hset;
         [|repeat split; constructor];
         split; [constructor; [apply own_event_from_trap | constructor]|];
         split; [exact (OrdinarySet_keeps _ _ _ _ _ Hset)|];
         intros _; constructor; [exists k; reflexivity | constructor]).
  rewrite ObserverFacts.V2_write_observer.
  destruct (IHt q k v) as (Hall & _ & _).
  destruct (V2.write t q k v) as [[[r|e] t'] es]; cbn [fst snd] in *.
  - split; [|split; [reflexivity | discriminate]].
    apply Forall_app. split; [exact Hall|].
    constructor; [apply own_event_from_trap | constructor].
  - split; [exact Hall|]. split; [reflexivity | discriminate].
Qed.

Lemma appending_V3_write {E : Engine} target p k v :
  appending p (V3.write target p k v) target.
Proof.
  rewrite ObserverFacts.V3_write_V2.
  destruct (appending_V2_write target p k v) as (Hall & Hobs & Hat).
  destruct (V2.write target p k v) as [[r t'] es]. cbn [fst snd] in *.
  destruct (is_function v); [|repeat split; assumption].
  split; [constructor|]. split; [exact Hobs|]. intros _. constructor.
Qed.

Lemma appending_delete target :
  forall p k, appending p (delete target p k) target.
Proof.
  induction target as [| | b | n | s | src | props | items | t IHt q];
    intros p k;
    try (cbn [delete];
         destruct (OrdinaryDelete _ k) as [[r t']|e] eqn:Hdel;
         [|repeat split; constructor];
         split; [constructor; [apply from_trap_at; auto | constructor]|];
         split; [exact (OrdinaryDelete_keeps _ _ _ _ Hdel)|];
         intros _; constructor; [exists k; reflexivity | constructor]).
  cbn [delete]. destruct (IHt q k) as (Hall & _ & _).
  destruct (delete t q k) as [[[r|e] t'] es]; cbn [fst snd] in *.
  - split; [|split; [reflexivity | discriminate]].
    apply Forall_app. split; [exact Hall|].
    constructor; [apply from_trap_at; auto | constructor].
  - split; [exact Hall|]. split; [reflexivity | discriminate].
Qed.

Lemma appends_deleteProperty (p : list segment) (k : string) :
  appends p (deleteProperty p k).
Proof. apply appends_trap. intros t. apply appending_delete. Qed.

Lemma appends_V2_set {E : Engine} (p : list segment) (k : string)
      (v : value) :
  appends p (V2.set p k v).
Proof. apply appends_trap. intros t. apply appending_V2_write. Qed.

Lemma appends_V3_set {E : Engine} (p : list segment) (k : string)
      (v : value) :
  appends p (V3.set p k v).
Proof. apply appends_trap. intros t. apply appending_V3_write. Qed.

(** Whatever a built-in does with the proxy as [this], and so whatever
    script stands for it, the events come from the traps. *)
Lemma on_proxy_appends {A}
      (set : list segment -> string -> value
             -> handler value (completion bool))
      (p : list segment) (s : script A) :
  (forall k v, appends p (set p k v)) -> appends p (on_proxy set p s).
Proof.
  intros Hset. induction s as [a|k next IH|k v next IH|k next IH|k next IH];
    cbn [on_proxy].
  - apply appends_ret.
  - apply appends_attempt; [apply appends_get | exact IH].
  - apply appends_attempt; [apply Hset|].
    intros [|]; [apply IH | apply appends_ret].
  - apply appends_attempt; [apply appends_deleteProperty|].
    intros [|]; [apply IH | apply appends_ret].
  - apply appends_bind; [|exact IH].
    apply appends_bind; [apply appends_this | intros; apply appends_ret].
Qed.

Lemma on_proxy_events {A}
      (set : list segment -> string -> value
             -> handler value (completion bool))
      (p : list segment) (s : script A) (t : value) :
  (forall k v, appends p (set p k v)) ->
  Forall from_trap (events (run (on_proxy set p s) t))
  /\ (is_observer t = false ->
      Forall (at_path p) (events (run (on_proxy set p s) t))).
Proof.
  intros Hset. unfold run, events.
  destruct (on_proxy_appends set p s Hset {| target := t; emitted := [] |})
    as (es & He & Hf & _ & Hat).
  destruct (on_proxy set p s _) as [a h]. cbn [snd emitted target] in *.
  rewrite He. split; [exact Hf | exact Hat].
Qed.

(** C7.  A [splice] call on an observed array does not run the
    [splice] handler: [Array.prototype.splice] runs through the traps.
    Inserting one item into an empty observed array emits an [ASSIGN] at
    the index and a [CHANGE] at [length], and no call emits an [ADD],
    in either generation: every event is an [ASSIGN], a [CHANGE] or a
    [REMOVE] whose path ends in a property key, which follows the path of
    the observer unless the target is an observer in turn. *)
Theorem splice_call_emits_no_ADD :
  forall E : Engine,
    run (on_proxy V3.set [Key "items"]
           (Array_prototype_splice 0 0 [VStr "x"])) (VArr [])
    = (Completes [], VArr [VStr "x"],
       [mkEvent ASSIGN [Key "items"; Key "0"] VUndefined (VStr "x");
        mkEvent CHANGE [Key "items"; Key "length"] (VNum 1) (VNum 1)])
    /\ forall (p : list segment) (start deleteCount : Z)
              (items : list value) (target : value) (e : Event),
        In e (events (run (on_proxy V2.set p
                             (Array_prototype_splice start deleteCount items))
                          target))
        \/ In e (events (run (on_proxy V3.set p
                                (Array_prototype_splice start deleteCount
                                                        items))
                             target)) ->
        event e <> ADD
        /\ (exists q k, path e = q ++ [Key k])
        /\ (is_observer target = false -> exists k, path e = p ++ [Key k]).
Proof.
  intros E. split; [reflexivity|].
  intros p start deleteCount items t e Hin.
  assert (Htrap : from_trap e /\ (is_observer t = false -> at_path p e)).
  { destruct Hin as [Hin|Hin];
      [ destruct (on_proxy_events V2.set p
                    (Array_prototype_splice start deleteCount items) t
                    (appends_V2_set p)) as [Hall Hat]
      | destruct (on_proxy_events V3.set p
                    (Array_prototype_splice start deleteCount items) t
                    (appends_V3_set p)) as [Hall Hat] ];
      rewrite Forall_forall in Hall;
      (split; [exact (Hall e Hin)|]);
      intros Hraw; specialize (Hat Hraw); rewrite Forall_forall in Hat;
      exact (Hat e Hin). }
  destruct Htrap as [[Hkind Hpath] Hat]. split; [|split; assumption].
  intros Hadd. rewrite Hadd in Hkind.
  destruct Hkind as [H|[H|H]]; discriminate H.
Qed.

(** C9.  [pop] and [shift] called on an empty observed array do not
    run the handlers of those names: the built-ins write [length]
    through the [set] trap, which emits a [CHANGE] at [length], and
    nothing emits a [REMOVE]. *)
Theorem pop_and_shift_calls_on_an_empty_array :
  forall (E : Engine) (p : list segment),
    let length_written :=
      [mkEvent CHANGE (p ++ [Key "length"]) (VNum 0) (VNum 0)] in
    run (on_proxy V3.set p Array_prototype_pop) (VArr [])
    = (Completes VUndefined, VArr [], length_written)
    /\ run (on_proxy V3.set p Array_prototype_shift) (VArr [])
       = (Completes VUndefined, VArr [], length_written)
    /\ run (on_proxy V2.set p Array_prototype_pop) (VArr [])
       = (Completes VUndefined, VArr [], length_written)
    /\ run (on_proxy V2.set p Array_prototype_shift) (VArr [])
       = (Completes VUndefined, VArr [], length_written).
Proof. intros E p. repeat apply conj; reflexivity. Qed.

(** On these arrays and arguments the built-ins run through the proxy do
    to the array what they do to the raw target. *)
Example calls_agree_with_the_builtins :
  Forall splice_agrees splice_cases /\ Forall pop_and_shift_agree arrays.
Proof. split; repeat constructor. Qed.

(** A [splice] call that deletes one element and inserts two: the array
    and the returned elements are those of [target.splice], and the
    events are those of the writes the built-in makes. *)
Example splice_call_in_the_middle :
  let items := [VStr "x"; VStr "y"] in
  let target := [VStr "a"; VStr "b"; VStr "c"] in
  run (on_proxy (V3.set (E := decimal)) [Key "items"]
                (Array_prototype_splice 1 1 items))
      (VArr target)
  = (Completes (fst (Array_splice 1 1 items target)),
     VArr (snd (Array_splice 1 1 items target)),
     [mkEvent ASSIGN [Key "items"; Key "3"] VUndefined (VStr "c");
      mkEvent CHANGE [Key "items"; Key "1"] (VStr "b") (VStr "x");
      mkEvent CHANGE [Key "items"; Key "2"] (VStr "c") (VStr "y");
      mkEvent CHANGE [Key "items"; Key "length"] (VNum 4) (VNum 4)]).
Proof. reflexivity. Qed.

(** A [push] of one item and a [pop] of the last one, as calls on the
    proxy. *)
Example push_and_pop_calls :
  events (run (on_proxy (V3.set (E := decimal)) [Key "items"]
                 (Array_prototype_push [VStr "x"])) (VArr []))
  = [mkEvent ASSIGN [Key "items"; Key "0"] VUndefined (VStr "x");
     mkEvent CHANGE [Key "items"; Key "length"] (VNum 1) (VNum 1)]
  /\ events (run (on_proxy (V3.set (E := decimal)) [Key "items"]
                           Array_prototype_pop)
                 (VArr [VStr "a"; VStr "b"]))
     = [mkEvent REMOVE [Key "items"; Key "1"] (VStr "b") VUndefined;
        mkEvent CHANGE [Key "items"; Key "length"] (VNum 2) (VNum 1)].
Proof. split; reflexivity. Qed.

(** A [shift] call on an observed list of objects: the element that
    moves down is read through the [get] trap and written back as the
    observer it was read as, with the path it was read at; a write
    through it afterwards emits an event at that path and one at the path
    it is read at now. *)
Example shift_call_on_a_list_of_objects :
  let target := VArr [VObj [("n", VNum 1)]; VObj [("n", VNum 2)]] in
  let shifted := run (on_proxy (V3.set (E := decimal)) [Key "items"]
                                Array_prototype_shift) target in
  target_after shifted
  = VArr [VProxy (VObj [("n", VNum 2)]) [Key "items"; Key "1"]]
  /\ events (run (V3.set (E := decimal) [Key "items"; Key "0"] "n" (VNum 3))
                 (Reflect_get (target_after shifted) "0"))
     = [mkEvent CHANGE [Key "items"; Key "1"; Key "n"] (VNum 2) (VNum 3);
        mkEvent CHANGE [Key "items"; Key "0"; Key "n"] (VNum 2) (VNum 3)].
Proof. split; reflexivity. Qed.

End ProxyFacts.

(** ** Subscriptions and the flush *)
Module SchedulerFacts.
Import Scheduler Examples.

Section Registry.
Context {consumer : Type}.
Implicit Types (m : registry consumer) (c : consumer) (e : Event).

Lemma matching_app m1 m2 e :
  matching (m1 ++ m2) e = matching m1 e ++ matching m2 e.
Proof. unfold matching. apply flat_map_app. Qed.

Lemma matching_spec m e c :
  In c (matching m e)
  <-> exists subs, In (join (path e), subs) m /\ In c subs.
Proof.
  unfold matching. rewrite in_flat_map. split.
  - intros ([subject subs] & Hin & Hc). cbn [fst snd] in Hc.
    destruct (String.eqb_spec subject (join (path e))) as [->|_].
    + exists subs. split; assumption.
    + destruct Hc.
  - intros (subs & Hin & Hc). exists (join (path e), subs).
    split; [exact Hin|]. cbn [fst snd]. rewrite String.eqb_refl. exact Hc.
Qed.

Lemma matching_get_push subject c m e c' :
  has subject m = true ->
  In c' (matching (get_push subject c m) e)
  <-> In c' (matching m e) \/ (subject = join (path e) /\ c' = c).
Proof.
  induction m as [|[s subs] rest IH]; cbn [has get_push]; intros Hhas.
  - discriminate Hhas.
  - destruct (String.eqb_spec s subject) as [->|Hne].
    + change ((subject, subs ++ [c]) :: rest)
        with ([(subject, subs ++ [c])] ++ rest).
      change ((subject, subs) :: rest) with ([(subject, subs)] ++ rest).
      rewrite !matching_app, !in_app_iff.
      unfold matching. cbn [flat_map fst snd]. rewrite !app_nil_r.
      destruct (String.eqb_spec subject (join (path e))) as [Heq|Hneq].
      * rewrite in_app_iff. cbn [In]. intuition congruence.
      * cbn [In]. intuition congruence.
    + change ((s, subs) :: get_push subject c rest)
        with ([(s, subs)] ++ get_push subject c rest).
      change ((s, subs) :: rest) with ([(s, subs)] ++ rest).
      rewrite !matching_app, !in_app_iff, (IH Hhas). tauto.
Qed.

(** Registering [c] under [subject] adds it to the consumers of the
    events whose path joins to [subject], and to no others. *)
Lemma matching_register subject c m e c' :
  In c' (matching (register subject c m) e)
  <-> In c' (matching m e) \/ (subject = join (path e) /\ c' = c).
Proof.
  unfold register. destruct (has subject m) eqn:Hhas.
  - apply matching_get_push. exact Hhas.
  - rewrite matching_app, in_app_iff.
    unfold matching at 2. cbn [flat_map fst snd]. rewrite app_nil_r.
    destruct (String.eqb_spec subject (join (path e))); cbn [In];
      intuition congruence.
Qed.

Lemma matching_subscribe keyFrom scope vars c m e c' :
  In c' (matching (subscribe keyFrom scope vars c m) e)
  <-> In c' (matching m e)
      \/ (c' = c /\ exists var, In var vars
                     /\ toString (scope ++ [keyFrom var]) = join (path e)).
Proof.
  unfold subscribe. revert m.
  induction vars as [|var vars IH]; intros m; cbn [map fold_left].
  - split; [tauto|]. intros [H|(_ & var & [] & _)]. exact H.
  - rewrite IH, matching_register. split.
    + intros [[H|(Hs & ->)]|(-> & var' & Hin & Hs)].
      * left. exact H.
      * right. split; [reflexivity|]. exists var.
        split; [left; reflexivity | exact Hs].
      * right. split; [reflexivity|]. exists var'.
        split; [right; exact Hin | exact Hs].
    + intros [H|(-> & var' & [->|Hin] & Hs)].
      * left. left. exact H.
      * left. right. split; [exact Hs | reflexivity].
      * right. split; [reflexivity|]. exists var'. split; assumption.
Qed.

(** The event that stands for a key: its path joins to the key. *)
Lemma join_key (K : string) : join [Key K] = K.
Proof. reflexivity. Qed.

Lemma subscribed_matching K c m e :
  join (path e) = K -> (In c (matching m e) <-> subscribed K c m).
Proof. intros <-. apply matching_spec. Qed.


Lemma subscribed_register subject c m K c' :
  subscribed K c' (register subject c m)
  <-> subscribed K c' m \/ (subject = K /\ c' = c).
Proof.
  set (e := mkEvent ASSIGN [Key K] VUndefined VUndefined).
  rewrite <- !(subscribed_matching K _ _ e eq_refl).
  apply matching_register.
Qed.
End Registry.


Section Flush.
Context {consumer world : Type}.
Variable call : consumer -> Event -> registry consumer * world
                -> ran consumer world.
Implicit Types (e : Event).

Lemma emitEvent_events {w : Type} (es : list Event)
      (m : manager consumer w) :
  events (fold_left emitEvent es m) = events m ++ es.
Proof.
  revert m. induction es as [|e es IH]; intros m; cbn [fold_left].
  - rewrite app_nil_r. reflexivity.
  - rewrite IH. cbn [emitEvent events]. rewrite <- app_assoc. reflexivity.
Qed.

Lemma emitEvent_keeps {w : Type} (es : list Event)
      (m : manager consumer w) :
  consumers (fold_left emitEvent es m) = consumers m
  /\ outside (fold_left emitEvent es m) = outside m
  /\ frames (fold_left emitEvent es m) = frames m + List.length es.
Proof.
  revert m. induction es as [|e es IH]; intros m; cbn [fold_left].
  - cbn [List.length]. rewrite Nat.add_0_r. repeat split.
  - destruct (IH (emitEvent m e)) as (Hc & Ho & Hf).
    rewrite Hc, Ho, Hf. cbn [emitEvent consumers outside frames List.length].
    repeat split. lia.
Qed.

(** What one call does to the manager. *)
Lemma invoke_spec {w : Type}
      (f : consumer -> Event -> registry consumer * w -> ran consumer w)
      e (m : manager consumer w) c :
  let r := f c e (consumers m, outside m) in
  let m' := fst (invoke f e m c) in
  snd (invoke f e m c) = threw r
  /\ events m' = events m ++ written r
  /\ consumers m' = registered r
  /\ outside m' = around r
  /\ frames m' = frames m + List.length (written r).
Proof.
  unfold invoke. cbn [fst snd]. rewrite emitEvent_events.
  destruct (emitEvent_keeps (written (f c e (consumers m, outside m)))
              {| consumers := registered (f c e (consumers m, outside m));
                 events := events m; frames := frames m;
                 outside := around (f c e (consumers m, outside m)) |})
    as (Hc & Ho & Hf).
  rewrite Hc, Ho, Hf. repeat split.
Qed.

Implicit Types (m : manager consumer (world * list (entry consumer))).

(** What one recorded call does to the manager. *)
Lemma invoke_logged e m c :
  exists x m1,
    invoke (logged call) e m c = (m1, failed x)
    /\ called_with x = (c, e)
    /\ calls m1 = calls m ++ [x]
    /\ events m1 = events m ++ wrote x
    /\ frames m1 = frames m + List.length (wrote x)
    /\ consumers m1
       = registered (call c e (consumers m, fst (outside m)))
    /\ made_by call x.
Proof.
  pose proof (invoke_spec (logged call) e m c) as H. cbn zeta in H.
  destruct (invoke (logged call) e m c) as [m1 t]. cbn [fst snd] in H.
  destruct H as (Ht & He & Hc & Ho & Hf).
  exists {| who := c; what := e;
            wrote := written (call c e (consumers m, fst (outside m)));
            failed := threw (call c e (consumers m, fst (outside m))) |}, m1.
  cbn [failed wrote]. unfold calls, called_with. cbn [who what].
  rewrite Ho, He, Hf, Hc, Ht. cbn [logged threw written around registered
                                     fst snd].
  repeat split. eexists. cbn [who what wrote failed]. split; reflexivity.
Qed.

(** The calls of one round: the consumers called are the first of those
    collected, all of them unless the last one called threw; each call is
    recorded, and what it wrote is behind the queue. *)
Lemma notify_logged e (cs : list consumer) m m' called t :
  notify (logged call) e cs m = (m', called, t) ->
  exists new,
    calls m' = calls m ++ new
    /\ map called_with new = map (fun c => (c, e)) called
    /\ events m' = events m ++ flat_map wrote new
    /\ frames m' = frames m + List.length (flat_map wrote new)
    /\ (exists rest, cs = called ++ rest)
    /\ (t = false ->
        called = cs /\ Forall (fun x => failed x = false) new)
    /\ (t = true ->
        exists before x, new = before ++ [x] /\ failed x = true
                         /\ Forall (fun x => failed x = false) before)
    /\ ((forall c e rw, registered (call c e rw) = fst rw) ->
        consumers m' = consumers m)
    /\ Forall (made_by call) new.
Proof.
  revert m m' called t.
  induction cs as [|c cs IH]; intros m m' called t H; cbn [notify] in H.
  - injection H as <- <- <-. exists [].
    rewrite !app_nil_r. cbn [List.length flat_map]. rewrite Nat.add_0_r.
    repeat split; try (exists []; reflexivity); try constructor.
    discriminate.
  - destruct (invoke_logged e m c)
      as (x & m1 & Hinv & Hx & Hcalls & Hev & Hfr & Hreg & Hmade).
    rewrite Hinv in H. destruct (failed x) eqn:Hfailed.
    + injection H as <- <- <-. exists [x].
      cbn [map flat_map List.length]. rewrite app_nil_r, Hx.
      repeat split; try assumption.
      * exists cs. reflexivity.
      * discriminate.
      * discriminate.
      * intros _. exists [], x. repeat split; [exact Hfailed | constructor].
      * intros Hquiet. rewrite Hreg, Hquiet. reflexivity.
      * constructor; [exact Hmade | constructor].
    + destruct (notify (logged call) e cs m1) as [[m2 called'] t'] eqn:Hrest.
      injection H as <- <- <-.
      destruct (IH _ _ _ _ Hrest)
        as (new & Hcalls' & Hwith & Hev' & Hfr' & [rest Hpre] & Hall & Hlast
            & Hsame & Hmade').
      exists (x :: new). cbn [map flat_map]. rewrite Hx, Hwith.
      rewrite Hcalls', Hcalls, Hev', Hev, Hfr', Hfr, length_app,
        <- !app_assoc.
      repeat split.
      * lia.
      * exists rest. rewrite Hpre. reflexivity.
      * destruct (Hall H) as [-> _]. reflexivity.
      * constructor; [exact Hfailed | apply (Hall H)].
      * intros Ht. destruct (Hlast Ht) as (before & y & -> & Hy & Hbefore).
        exists (x :: before), y. repeat split; [exact Hy|].
        constructor; assumption.
      * intros Hquiet. rewrite (Hsame Hquiet), Hreg, Hquiet. reflexivity.
      * constructor; assumption.
Qed.

Lemma processEvents_round {w : Type}
      (f : consumer -> Event -> registry consumer * w -> ran consumer w)
      fuel (m : manager consumer w) :
  processEvents f (S fuel) m
  = match events m with
    | [] => Some (m, [], Drained)
    | e :: rest =>
        let shifted := {| consumers := consumers m; events := rest;
                          frames := frames m; outside := outside m |} in
        let cs := matching (consumers shifted) e in
        let '(m', called, thrown) := notify f e cs shifted in
        let d := {| delivered := e; notified := called;
                    caused := skipn (List.length rest) (events m') |} in
        if thrown then Some (m', [d], Threw)
        else
          match processEvents f fuel m' with
          | None => None
          | Some (m'', ds, how) => Some (m'', d :: ds, how)
          end
    end.
Proof. reflexivity. Qed.

(** A flush that ends within some fuel ends the same way with more. *)
Lemma processEvents_more_fuel {w : Type}
      (f : consumer -> Event -> registry consumer * w -> ran consumer w)
      fuel extra (m : manager consumer w) r :
  processEvents f fuel m = Some r ->
  processEvents f (fuel + extra) m = Some r.
Proof.
  revert m r. induction fuel as [|fuel IH]; intros m r H.
  - discriminate H.
  - cbn [Nat.add]. rewrite processEvents_round in *.
    destruct (events m) as [|e rest]; [exact H|]. cbv zeta in *.
    destruct (notify f e _ _) as [[m1 called] thrown].
    destruct thrown; [exact H|].
    destruct (processEvents f fuel m1) as [[[m2 ds] how]|] eqn:Hrec;
      [|discriminate H].
    rewrite (IH _ _ Hrec). exact H.
Qed.

(** What a flush does, by the calls it records. *)
Lemma processEvents_logged fuel m m' ds how :
  processEvents (logged call) fuel m = Some (m', ds, how) ->
  exists new,
    calls m' = calls m ++ new
    /\ map called_with new = rounds ds
    /\ map delivered ds ++ events m' = events m ++ flat_map wrote new
    /\ flat_map caused ds = flat_map wrote new
    /\ frames m' = frames m + List.length (flat_map wrote new)
    /\ (how = Drained ->
        events m' = [] /\ Forall (fun x => failed x = false) new)
    /\ (how = Threw ->
        exists before x, new = before ++ [x] /\ failed x = true
                         /\ Forall (fun x => failed x = false) before)
    /\ Forall (made_by call) new.
Proof.
  revert m m' ds how.
  induction fuel as [|fuel IH]; intros m m' ds how H; [discriminate H|].
  rewrite processEvents_round in H.
  destruct (events m) as [|e rest] eqn:Hq.
  - injection H as <- <- <-. exists [].
    rewrite !app_nil_r, Hq. cbn [map flat_map List.length app].
    rewrite Nat.add_0_r. repeat split; try constructor. discriminate.
  - cbv zeta in H.
    set (shifted := {| consumers := consumers m; events := rest;
                       frames := frames m; outside := outside m |}) in *.
    destruct (notify (logged call) e (matching (consumers shifted) e)
                     shifted) as [[m1 called] thrown] eqn:Hnotify.
    destruct (notify_logged _ _ _ _ _ _ Hnotify)
      as (new1 & Hcalls1 & Hwith1 & Hev1 & Hfr1 & _ & Hall1 & Hlast1 & _
          & Hmade1).
    cbn [events shifted] in Hev1.
    change (calls shifted) with (calls m) in Hcalls1.
    change (frames shifted) with (frames m) in Hfr1.
    assert (Hcaused : skipn (List.length rest) (events m1)
                      = flat_map wrote new1).
    { rewrite Hev1, skipn_app, skipn_all, Nat.sub_diag. reflexivity. }
    destruct thrown.
    + injection H as <- <- <-. exists new1.
      unfold rounds. cbn [map flat_map delivered notified caused].
      rewrite !app_nil_r, Hcaused, Hwith1, Hev1.
      repeat split; try assumption.
      * discriminate.
      * discriminate.
      * intros _. apply Hlast1. reflexivity.
    + destruct (processEvents (logged call) fuel m1)
        as [[[m2 ds'] how']|] eqn:Hrec; [|discriminate H].
      injection H as <- <- <-.
      destruct (IH _ _ _ _ Hrec)
        as (new2 & Hcalls2 & Hwith2 & Hfifo & Hcaused2 & Hfr2 & Hdrained
            & Hthrew & Hmade2).
      destruct (Hall1 eq_refl) as [_ Hquiet1].
      exists (new1 ++ new2).
      unfold rounds in *. cbn [map flat_map delivered notified caused].
      rewrite map_app, !flat_map_app, Hwith1, Hwith2, Hcaused, Hcaused2.
      rewrite Hcalls2, Hcalls1, Hfr2, Hfr1, length_app, <- !app_assoc.
      repeat split.
      * cbn [app]. rewrite Hfifo, Hev1, <- app_assoc. reflexivity.
      * lia.
      * apply Hdrained. assumption.
      * apply Forall_app. split; [exact Hquiet1|]. apply Hdrained. assumption.
      * intros Hhow. destruct (Hthrew Hhow) as (before & x & -> & Hx & Hb).
        exists (new1 ++ before), x. rewrite <- app_assoc.
        repeat split; [exact Hx|]. apply Forall_app. split; assumption.
      * apply Forall_app. split; assumption.
Qed.


(** When no consumer writes, a flush over [n] queued events ends within
    [n + 1] tests of the loop condition. *)
Lemma processEvents_quiet m :
  (forall c e rw, written (call c e rw) = []) ->
  exists m' ds how,
    processEvents (logged call) (S (List.length (events m))) m
    = Some (m', ds, how)
    /\ (how = Drained -> map delivered ds = events m).
Proof.
  intros Hquiet.
  remember (List.length (events m)) as n eqn:Hn. revert m Hn.
  induction n as [|n IH]; intros m Hn; rewrite processEvents_round.
  - destruct (events m); [|discriminate Hn].
    exists m, [], Drained. split; reflexivity.
  - destruct (events m) as [|e rest] eqn:Hq; [discriminate Hn|].
    cbv zeta.
    set (shifted := {| consumers := consumers m; events := rest;
                       frames := frames m; outside := outside m |}).
    destruct (notify (logged call) e (matching (consumers shifted) e)
                     shifted) as [[m1 called] thrown] eqn:Hnotify.
    destruct thrown.
    + eexists _, _, _. split; [reflexivity | discriminate].
    + destruct (notify_logged _ _ _ _ _ _ Hnotify)
        as (new1 & _ & _ & Hev1 & _ & _ & _ & _ & _ & Hmade).
      assert (Hnone : flat_map wrote new1 = []).
      { clear -Hmade Hquiet. induction Hmade as [|x new1 [rw [Hx _]] _ IH].
        - reflexivity.
        - cbn [flat_map]. rewrite Hx, Hquiet, IH. reflexivity. }
      rewrite Hnone, app_nil_r in Hev1. cbn [events shifted] in Hev1.
      destruct (IH m1) as (m' & ds & how & Hrun & Hds).
      { rewrite Hev1. cbn in Hn. congruence. }
      rewrite Hrun. eexists _, _, _. split; [reflexivity|].
      intros Hhow. cbn [map delivered]. rewrite (Hds Hhow), Hev1.
      reflexivity.
Qed.

(** When, besides, no consumer throws, that flush ends with the queue
    empty. *)
Lemma processEvents_calm m :
  (forall c e rw, written (call c e rw) = []) ->
  (forall c e rw, threw (call c e rw) = false) ->
  exists m' ds,
    processEvents (logged call) (S (List.length (events m))) m
    = Some (m', ds, Drained)
    /\ map delivered ds = events m.
Proof.
  intros Hquiet Hcalm.
  destruct (processEvents_quiet m Hquiet) as (m' & ds & how & Hrun & Hds).
  destruct how.
  - exists m', ds. split; [exact Hrun | apply Hds; reflexivity].
  - exfalso.
    destruct (processEvents_logged _ _ _ _ _ Hrun)
      as (new & _ & _ & _ & _ & _ & _ & Hthrew & Hmade).
    destruct (Hthrew eq_refl) as (before & x & -> & Hx & _).
    apply Forall_app in Hmade. destruct Hmade as [_ Hmade].
    inversion Hmade as [|? ? [rw [_ Hfailed]] _]; subst.
    rewrite Hfailed, Hcalm in Hx. discriminate Hx.
Qed.
End Flush.



(** A flush over one queued event whose one consumer writes nothing. *)
Lemma one_round {consumer world : Type}
      (call : consumer -> Event -> registry consumer * world
              -> ran consumer world)
      (reg : registry consumer) (e : Event) (c : consumer) (w : world) :
  matching reg e = [c] ->
  written (call c e (reg, w)) = [] ->
  exists m' how,
    processEvents (logged call) 2
      {| consumers := reg; events := [e]; frames := 1; outside := (w, []) |}
    = Some (m', [mkDelivery e [c] []], how)
    /\ map called_with (calls m') = [(c, e)]
    /\ Forall (made_by call) (calls m').
Proof.
  intros Hmatch Hquiet. rewrite processEvents_round. cbn [events]. cbv zeta.
  cbn [consumers]. rewrite Hmatch. cbn [notify].
  unfold invoke at 1. cbn [consumers outside logged fst snd written threw
                              registered around].
  rewrite Hquiet. cbn [fold_left].
  assert (Hmade : made_by call
                    {| who := c; what := e; wrote := [];
                       failed := threw (call c e (reg, w)) |}).
  { exists (reg, w). cbn [who what wrote failed]. rewrite Hquiet.
    split; reflexivity. }
  destruct (threw (call c e (reg, w))).
  - eexists _, _. split; [reflexivity|]. split; [reflexivity|].
    constructor; [exact Hmade | constructor].
  - cbn [processEvents events]. eexists _, _.
    split; [reflexivity|]. split; [reflexivity|].
    constructor; [exact Hmade | constructor].
Qed.

(** C10. The subscription key is the comma-join of the segments, and
    the join is not injective: [["a,b"]] and [["a","b"]] share the key
    ["a,b"], so a consumer subscribed under either path is called, by the
    flush, with an event emitted at the other, in the second generation
    and in the third. *)
Theorem join_is_not_injective :
  [Key "a,b"] <> [Key "a"; Key "b"]
  /\ join [Key "a,b"] = join [Key "a"; Key "b"]
  /\ forall (consumer world : Type)
            (call : consumer -> Event -> registry consumer * world
                    -> ran consumer world)
            (c : consumer) (w : world)
            (kind : EVENT_TYPES) (old new : value),
      (forall e rw, written (call c e rw) = []) ->
      let called (reg : registry consumer) (e : Event) :=
        exists m' how,
          processEvents (logged call) 2
            {| consumers := reg; events := [e]; frames := 1;
               outside := (w, []) |}
          = Some (m', [mkDelivery e [c] []], how)
          /\ map called_with (calls m') = [(c, e)]
          /\ Forall (made_by call) (calls m') in
      called (V2.subscribe [] ["{a,b}"] c [])
             (mkEvent kind [Key "a"; Key "b"] old new)
      /\ called (V2.subscribe ["a"] ["{b}"] c [])
                (mkEvent kind [Key "a,b"] old new)
      /\ called (V3.subscribe [] ["${a,b}"] c [])
                (mkEvent kind [Key "a"; Key "b"] old new)
      /\ called (V3.subscribe ["a"] ["${b}"] c [])
                (mkEvent kind [Key "a,b"] old new).
Proof.
  split; [discriminate|]. split; [reflexivity|].
  intros consumer world call c w kind old new Hquiet called.
  subst called. cbv beta.
  repeat apply conj; apply one_round; try reflexivity; apply Hquiet.
Qed.

Lemma join_is_not_injective_witness :
  exists m' how,
    processEvents (logged render) 2
      {| consumers := V2.subscribe ["a"] ["{b}"] 1 [];
         events := [mkEvent ASSIGN [Key "a,b"] VUndefined (VNum 1)];
         frames := 1; outside := (tt, []) |}
    = Some (m', [mkDelivery (mkEvent ASSIGN [Key "a,b"] VUndefined (VNum 1))
                            [1] []], how)
    /\ map called_with (calls m')
       = [(1, mkEvent ASSIGN [Key "a,b"] VUndefined (VNum 1))]
    /\ Forall (made_by render) (calls m').
Proof.
  destruct join_is_not_injective as (_ & _ & H).
  destruct (H nat unit render 1 tt ASSIGN VUndefined (VNum 1)
              (fun e rw => eq_refl)) as (_ & Hcalled & _).
  exact Hcalled.
Defined.

(** C3, as the code has it.  A call of [#processEvents] that ends has
    delivered its events first-in first-out: the events delivered,
    followed by those still queued, are the events that were queued when
    it began followed by what the consumers it called wrote meanwhile, in
    the order of the calls; those calls are the consumers notified in each
    round, in turn, with the event of the round.  It ends with the queue
    empty, after calls none of which threw, having delivered also what
    they enqueued; or it ends with the first call that throws, and leaves
    in the queue what it did not deliver.  Over an empty queue it does
    nothing.  When no consumer writes, a flush over [n] queued events
    ends within [n + 1] tests of the loop condition, and delivers exactly
    the queue when it ends with the queue empty. *)
Theorem flush_is_FIFO_and_drains_what_it_causes :
  forall (consumer world : Type)
         (call : consumer -> Event -> registry consumer * world
                 -> ran consumer world),
    (forall (fuel : nat)
            (m m' : manager consumer (world * list (entry consumer)))
            (ds : list (delivery consumer)) (how : ending),
        processEvents (logged call) fuel m = Some (m', ds, how) ->
        exists new,
          calls m' = calls m ++ new
          /\ Forall (made_by call) new
          /\ map called_with new = rounds ds
          /\ map delivered ds ++ events m'
             = events m ++ flat_map wrote new
          /\ flat_map caused ds = flat_map wrote new
          /\ frames m' = frames m + List.length (flat_map wrote new)
          /\ (how = Drained ->
              events m' = [] /\ Forall (fun x => failed x = false) new)
          /\ (how = Threw ->
              exists before x,
                new = before ++ [x] /\ failed x = true
                /\ Forall (fun x => failed x = false) before))
    /\ (forall (fuel : nat)
               (m : manager consumer (world * list (entry consumer))),
           events m = [] ->
           processEvents (logged call) (S fuel) m = Some (m, [], Drained))
    /\ (forall m : manager consumer (world * list (entry consumer)),
           (forall c e rw, written (call c e rw) = []) ->
           exists m' ds how,
             processEvents (logged call) (S (List.length (events m))) m
             = Some (m', ds, how)
             /\ (how = Drained -> map delivered ds = events m)).
Proof.
  intros consumer world call. split; [|split].
  - intros fuel m m' ds how Hrun.
    destruct (processEvents_logged call _ _ _ _ _ Hrun)
      as (new & H1 & H2 & H3 & H4 & H5 & H6 & H7 & H8).
    exists new. repeat apply conj; assumption.
  - intros fuel m Hempty. rewrite processEvents_round, Hempty. reflexivity.
  - intros m. apply processEvents_quiet.
Qed.

Lemma flush_is_FIFO_and_drains_what_it_causes_witness :
  exists m' ds,
    processEvents (logged writes_b) 3 one_queued = Some (m', ds, Drained)
    /\ events m' = []
    /\ map delivered ds = [first_event; second_event]
    /\ map called_with (calls m') = [(1, first_event); (2, second_event)].
Proof.
  eexists _, _. split; [reflexivity|].
  destruct (flush_is_FIFO_and_drains_what_it_causes nat unit writes_b)
    as (Hdrain & _ & _).
  destruct (Hdrain 3 one_queued _ _ _ eq_refl)
    as (new & Hcalls & _ & Hwith & Hfifo & _ & _ & Hdrained & _).
  destruct (Hdrained eq_refl) as [Hempty _].
  split; [exact Hempty|]. split; [reflexivity|].
  rewrite Hcalls. cbn [calls one_queued outside snd app].
  rewrite Hwith. reflexivity.
Defined.

(** C3 as the spec words it fails here: [second_event] is not in
    the queue when the flush begins, consumer [1] enqueues it during the
    flush, and the same flush delivers it to consumer [2]; the frame
    after that one has nothing left to deliver. *)
Lemma flush_delivers_event_enqueued_during_flush :
  ~ In second_event (events one_queued)
  /\ exists m' m'',
      frame (logged writes_b) 3 one_queued
      = Some (m', [([mkDelivery first_event [1] [second_event];
                     mkDelivery second_event [2] []], Drained)])
      /\ map called_with (calls m')
         = [(1, first_event); (2, second_event)]
      /\ frame (logged writes_b) 3 m' = Some (m'', [([], Drained)]).
Proof.
  split.
  - cbn. intros [H|[]]. discriminate H.
  - eexists _, _. repeat split; reflexivity.
Qed.

(** A consumer that throws ends the flush: the events behind the one it
    was called with stay in the queue, and the next callback delivers
    them. *)
Example flush_ends_when_a_consumer_throws :
  exists m' m'',
    processEvents (logged first_throws) 4 three_queued
    = Some (m', [mkDelivery name_changed [1] []], Threw)
    /\ events m' = [user_changed; age_assigned]
    /\ processEvents (logged first_throws) 4 m'
       = Some (m'', [mkDelivery user_changed [2] [];
                     mkDelivery age_assigned [3] []], Drained).
Proof. eexists _, _. repeat split; reflexivity. Qed.

End SchedulerFacts.

(** ** Placeholders *)
Module RegexFacts.
Import Regex.

Lemma closes_snoc (k : string) (c : ascii) :
  closes (snoc k c) = closes k || (c =? "}")%char.
Proof.
  unfold snoc. induction k as [|c' k IH]; cbn [closes String.append].
  - rewrite orb_false_r. reflexivity.
  - rewrite IH, orb_assoc. reflexivity.
Qed.

Lemma snoc_not_empty (k : string) (c : ascii) : snoc k c <> "".
Proof. destruct k; discriminate. Qed.

Lemma snoc_append (k rest : string) (c : ascii) :
  (snoc k c ++ rest)%string = (k ++ String c rest)%string.
Proof.
  unfold snoc. induction k as [|c' k IH]; cbn [String.append].
  - reflexivity.
  - rewrite IH. reflexivity.
Qed.

Lemma append_empty_r (s : string) : (s ++ "")%string = s.
Proof. induction s as [|c s IH]; cbn; [|rewrite IH]; reflexivity. Qed.

Lemma keys_literal (s : string) : keys (literal s) = [].
Proof. induction s as [|c s IH]; cbn [literal keys]; auto. Qed.

(** Every key cut out by the second generation's expression is not empty
    and holds no closing brace. *)
Lemma braces_keys (text : string) :
  forall (pending : option string) (k : string),
    (forall p, pending = Some p -> closes p = false) ->
    In k (keys (braces pending text)) -> k <> "" /\ closes k = false.
Proof.
  induction text as [|c rest IH]; intros pending k Hp Hin;
    cbn [braces] in Hin.
  - destruct pending; cbn [keys] in Hin; [|destruct Hin].
    rewrite keys_literal in Hin. destruct Hin.
  - destruct pending as [p|].
    + destruct (Ascii.eqb_spec c "}") as [->|Hc].
      * destruct (String.eqb_spec p "") as [->|Hne]; cbn [keys In] in Hin.
        -- apply (IH None k); [discriminate | exact Hin].
        -- destruct Hin as [<-|Hin].
           ++ split; [exact Hne | apply Hp; reflexivity].
           ++ apply (IH None k); [discriminate | exact Hin].
      * apply (IH (Some (snoc p c)) k); [|exact Hin].
        intros p' [= <-]. rewrite closes_snoc, (Hp p eq_refl).
        apply Ascii.eqb_neq in Hc. rewrite Hc. reflexivity.
    + destruct (Ascii.eqb_spec c "{") as [->|Hc].
      * apply (IH (Some "") k); [|exact Hin]. intros p' [= <-]. reflexivity.
      * cbn [keys] in Hin. apply (IH None k); [discriminate | exact Hin].
Qed.

(** Read again, a placeholder is one hole with the same key. *)
Lemma braces_pending (k : string) :
  forall acc : string,
    closes k = false ->
    (acc ++ k)%string <> "" ->
    braces (Some acc) (k ++ "}") = [Hole (acc ++ k)].
Proof.
  induction k as [|c k IH]; intros acc Hk Hne; cbn [String.append braces].
  - rewrite append_empty_r in *. cbn.
    destruct (String.eqb_spec acc ""); [contradiction | reflexivity].
  - cbn [closes] in Hk. apply orb_false_elim in Hk as [Hc Hk].
    rewrite Hc, IH, snoc_append; [reflexivity | exact Hk |].
    rewrite snoc_append. exact Hne.
Qed.

Lemma braces_placeholder (k : string) :
  k <> "" -> closes k = false ->
  V2.Template.curlyBraces (V2.Template.placeholder k) = [Hole k].
Proof.
  intros Hne Hk. unfold V2.Template.curlyBraces, V2.Template.placeholder.
  cbn [String.append braces Ascii.eqb Bool.eqb]. cbn.
  apply (braces_pending k ""); assumption.
Qed.

Lemma substring_all (k rest : string) :
  substring 0 (String.length k) (k ++ rest) = k.
Proof.
  induction k as [|c k IH]; cbn [String.length String.append substring].
  - destruct rest; reflexivity.
  - rewrite IH. reflexivity.
Qed.

Lemma length_append (a b : string) :
  String.length (a ++ b) = String.length a + String.length b.
Proof. induction a as [|c a IH]; cbn; [|rewrite IH]; reflexivity. Qed.

Lemma V2_keyFrom_placeholder (k : string) :
  V2.Template.keyFrom (V2.Template.placeholder k) = k.
Proof.
  unfold V2.Template.keyFrom, V2.Template.placeholder, slice.
  cbn [String.append prefix]. cbn [String.length substring].
  rewrite length_append. cbn [String.length].
  replace (S (String.length k + 1) - 1 - 1) with (String.length k) by lia.
  destruct (ascii_dec "{" "{") as [_|Hne]; [|destruct Hne; reflexivity].
  replace (prefix "" (k ++ "}")) with true
    by (destruct (k ++ "}")%string; reflexivity).
  apply substring_all.
Qed.

Lemma match_members (text : string) (vars : list string) (template : string) :
  V2.Template.match_ text = Some vars -> In template vars ->
  exists k, template = V2.Template.placeholder k
            /\ k <> "" /\ closes k = false.
Proof.
  unfold V2.Template.match_. intros Hm Hin.
  assert (Hvars : vars = map V2.Template.placeholder
                           (keys (V2.Template.curlyBraces text))).
  { destruct (map _ _); [discriminate Hm | injection Hm as <-; reflexivity]. }
  subst vars. apply in_map_iff in Hin as (k & <- & Hk).
  exists k. split; [reflexivity|].
  apply (braces_keys text None k); [discriminate | exact Hk].
Qed.

(** Filling a template that is one placeholder. *)
Lemma fill_placeholder (k : string) (data : value) :
  k <> "" -> closes k = false ->
  V2.Template.fill (V2.Template.placeholder k) data
  = match member data k with
    | None => None
    | Some v => Some (ToString (or_else v (VStr "")))
    end.
Proof.
  intros Hne Hk. unfold V2.Template.fill.
  rewrite (braces_placeholder k Hne Hk). cbn [replace].
  destruct (member data k); [|reflexivity].
  cbn [option_map]. rewrite append_empty_r. reflexivity.
Qed.

End RegexFacts.


(** ** Attribute binding, second generation *)
Module AttributeFacts.
Import DOM Regex RegexFacts Examples.





(** What the consumer of a binding does, by the resolved value. *)
Lemma consumer_placeholder (name k : string) (state v : value)
      (node : Element) :
  k <> "" -> closes k = false -> member state k = Some v ->
  V2.consumer name (V2.Template.placeholder k) state node
  = let attribute := ToString (or_else v (VStr "")) in
    if attribute =? "" then Some (removeAttribute name node)
    else Some (setAttribute name attribute node).
Proof.
  intros Hne Hk Hv. unfold V2.consumer.
  rewrite (fill_placeholder k state Hne Hk), Hv. cbn [truthy].
  destruct (ToString (or_else v (VStr "")) =? ""); reflexivity.
Qed.

(** The whole of [#bindAttributes] on that button. *)
Example bindAttributes_button :
  V2.bindAttributes
    (VObj [("form", VObj [("busy", VStr ""); ("count", VStr "0")])])
    button ["form"] []
  = Some (mkElement "button" [("value", "0")],
          [("form,busy", [V2.mkAttributeConsumer "disabled" "{busy}" ["form"]]);
           ("form,count", [V2.mkAttributeConsumer "value" "{count}" ["form"]])]).
Proof. reflexivity. Qed.

End AttributeFacts.


(** ** Placeholder resolution, third generation *)
Module FillStateFacts.
Import Regex RegexFacts V3 Examples.




Lemma reduce_path_cons (state : value) (key : string) (rest : list string) :
  reduce_path state (key :: rest)
  = match member state key with
    | Some v => reduce_path v rest
    | None => None
    end.
Proof.
  unfold reduce_path. cbn [fold_left].
  destruct (member state key) as [v|]; [reflexivity|].
  induction rest as [|k rest IH]; cbn [fold_left]; auto.
Qed.

Lemma length_removelast (l : list string) :
  List.length (removelast l) = pred (List.length l).
Proof.
  rewrite removelast_firstn_len, length_firstn. lia.
Qed.

(** The rounds given to [walk] by [fillState] are enough: with at least
    [currentPath.length - i] rounds left the result does not depend on
    how many there are. *)
Lemma walk_rounds (state : value) (n : nat) :
  forall (m i : nat) (currentPath : list string) (o : value),
    List.length currentPath - i <= n ->
    List.length currentPath - i <= m ->
    walk n i state currentPath o = walk m i state currentPath o.
Proof.
  induction n as [|n IH]; intros m i currentPath o Hn Hm.
  - destruct m as [|m]; cbn [walk]; [reflexivity|].
    replace (nth_error currentPath i) with (@None string); [reflexivity|].
    symmetry. apply nth_error_None. lia.
  - destruct m as [|m]; cbn [walk].
    + replace (nth_error currentPath i) with (@None string); [reflexivity|].
      symmetry. apply nth_error_None. lia.
    + destruct (nth_error currentPath i) as [key|]; [|reflexivity].
      destruct (member o key) as [v|]; [|reflexivity].
      destruct (truthy v).
      * apply IH; lia.
      * pose proof (length_removelast currentPath) as Hlen.
        destruct (removelast currentPath) as [|k popped] eqn:Hpop;
          [reflexivity|].
        destruct (reduce_path state (k :: popped)); [|reflexivity].
        apply IH; lia.
Qed.









Lemma replace_literal (f : string -> option string) (s : string) :
  replace f (literal s) = Some s.
Proof.
  induction s as [|c s IH]; cbn [literal replace].
  - reflexivity.
  - rewrite IH. reflexivity.
Qed.

Lemma append_assoc (a b c : string) :
  ((a ++ b) ++ c)%string = (a ++ (b ++ c))%string.
Proof. induction a as [|x a IH]; cbn; [|rewrite IH]; reflexivity. Qed.

(** Putting every placeholder back gives the text back. *)
Lemma dollar_braces_identity (text : string) :
  forall st : dollar_state,
    replace (fun k => Some (V3.Template.placeholder k)) (dollar_braces st text)
    = Some (held st ++ text)%string.
Proof.
  induction text as [|c rest IH]; intros st; cbn [dollar_braces].
  - destruct st; cbn [replace held option_map String.append].
    + reflexivity.
    + reflexivity.
    + rewrite replace_literal. cbn [option_map].
      rewrite append_empty_r. reflexivity.
  - destruct st as [| |k].
    + destruct (Ascii.eqb_spec c "$") as [->|_].
      * rewrite IH. reflexivity.
      * cbn [replace]. rewrite IH. reflexivity.
    + destruct (Ascii.eqb_spec c "{") as [->|_]; [rewrite IH; reflexivity|].
      destruct (Ascii.eqb_spec c "$") as [->|_]; cbn [replace];
        rewrite IH; reflexivity.
    + destruct (Ascii.eqb_spec c "}") as [->|_].
      * destruct (String.eqb_spec k "") as [->|_]; cbn [replace];
          rewrite IH; cbn [option_map held String.append];
          [reflexivity|].
        unfold V3.Template.placeholder. cbn [String.append].
        do 3 f_equal. rewrite append_assoc. reflexivity.
      * rewrite IH. cbn [held String.append].
        rewrite snoc_append. reflexivity.
Qed.


Lemma replace_ext_keys (f g : string -> option string) (ts : list token) :
  (forall k, In k (keys ts) -> f k = g k) -> replace f ts = replace g ts.
Proof.
  induction ts as [|[c|k] ts IH]; cbn [replace keys]; intros Hfg.
  - reflexivity.
  - rewrite IH by exact Hfg. reflexivity.
  - rewrite (Hfg k (or_introl eq_refl)), IH; [reflexivity|].
    intros k' Hin. apply Hfg. right. exact Hin.
Qed.






(** C4.  [#fillState] takes a falsy value for a missing one: when
    the closest scope defines the key with a falsy value, a farther
    ancestor wins.  Here the item has a [title], the empty string, and
    the root's title is rendered in its place; and a [count] of zero
    defined at the root, with nothing else to fall back to, is rendered
    as the literal placeholder.  And it can throw: under a scope of two
    segments of which the state has neither, the first loop pops one
    segment and the lookup then reads a property of [undefined]. *)
Theorem closest_definition_is_skipped_when_falsy :
  value_at (titled [("title", VStr "")]) ["items"; "0"] 2 "title"
  = Some (VStr "")
  /\ V3.fillState (titled [("title", VStr "")]) "<${title}>"
       ["items"; "0"] ["${title}"] = Some "<Root>"
  /\ value_at (VObj [("count", VNum 0)]) [] 0 "count" = Some (VNum 0)
  /\ V3.fillState (VObj [("count", VNum 0)]) "<${count}>" [] ["${count}"]
     = Some "<${count}>"
  /\ V3.fillState (VObj [("title", VStr "Root")]) "<${title}>"
       ["a"; "b"] ["${title}"] = None.
Proof. repeat apply conj; reflexivity. Qed.

End FillStateFacts.


(** * More facts *)

(** ** Registration order and repeated keys *)
Module RegistryFacts.
Import Scheduler Registries SchedulerFacts.

Section Order.
Context {consumer : Type}.
Implicit Types (m : registry consumer) (c : consumer) (e : Event).

Lemma matching_absent m e :
  ~ In (join (path e)) (map fst m) -> matching m e = [].
Proof.
  induction m as [|[s subs] rest IH]; cbn [map fst In]; intros H.
  - reflexivity.
  - change ((s, subs) :: rest) with ([(s, subs)] ++ rest).
    rewrite matching_app, IH by tauto.
    unfold matching. cbn [flat_map fst snd].
    destruct (String.eqb_spec s (join (path e))) as [->|_];
      [exfalso; apply H; left; reflexivity | reflexivity].
Qed.

Lemma has_true subject m : has subject m = true <-> In subject (map fst m).
Proof.
  induction m as [|[s subs] rest IH]; cbn [has map fst In].
  - split; [discriminate | tauto].
  - destruct (String.eqb_spec s subject) as [->|Hne].
    + split; auto.
    + rewrite IH. split; [auto | intros [H|H]; [contradiction | exact H]].
Qed.

Lemma get_push_subjects subject c m :
  map fst (get_push subject c m) = map fst m.
Proof.
  induction m as [|[s subs] rest IH]; cbn [get_push map fst].
  - reflexivity.
  - destruct (s =? subject); cbn [map fst]; [reflexivity|].
    rewrite IH. reflexivity.
Qed.

Lemma register_unique subject c m :
  unique_subjects m -> unique_subjects (register subject c m).
Proof.
  unfold unique_subjects, register. intros Hm.
  destruct (has subject m) eqn:Hhas.
  - rewrite get_push_subjects. exact Hm.
  - rewrite map_app. cbn [map fst].
    apply NoDup_app; [exact Hm | repeat constructor; intros [] |].
    intros x Hx [<-|[]]. apply has_true in Hx. congruence.
Qed.

Lemma matching_get_push_last subject c m e :
  unique_subjects m -> has subject m = true ->
  matching (get_push subject c m) e
  = matching m e ++ (if subject =? join (path e) then [c] else []).
Proof.
  unfold unique_subjects.
  induction m as [|[s subs] rest IH]; cbn [has get_push map fst];
    intros Hm Hhas.
  - discriminate Hhas.
  - apply NoDup_cons_iff in Hm as [Hs Hm].
    destruct (String.eqb_spec s subject) as [->|Hne].
    + change ((subject, subs ++ [c]) :: rest)
        with ([(subject, subs ++ [c])] ++ rest).
      change ((subject, subs) :: rest) with ([(subject, subs)] ++ rest).
      rewrite !matching_app. unfold matching at 1 3.
      cbn [flat_map fst snd]. rewrite !app_nil_r.
      destruct (String.eqb_spec subject (join (path e))) as [Heq|_].
      * rewrite (matching_absent rest e) by (rewrite <- Heq; exact Hs).
        rewrite !app_nil_r. reflexivity.
      * rewrite app_nil_r. reflexivity.
    + change ((s, subs) :: get_push subject c rest)
        with ([(s, subs)] ++ get_push subject c rest).
      change ((s, subs) :: rest) with ([(s, subs)] ++ rest).
      rewrite !matching_app, (IH Hm Hhas), app_assoc. reflexivity.
Qed.

Lemma matching_register_last subject c m e :
  unique_subjects m ->
  matching (register subject c m) e
  = matching m e ++ (if subject =? join (path e) then [c] else []).
Proof.
  intros Hm. unfold register. destruct (has subject m) eqn:Hhas.
  - apply matching_get_push_last; assumption.
  - rewrite matching_app. unfold matching at 2.
    cbn [flat_map fst snd]. rewrite app_nil_r. reflexivity.
Qed.

Lemma subscribe_unique keyFrom scope vars c m :
  unique_subjects m -> unique_subjects (subscribe keyFrom scope vars c m).
Proof.
  unfold subscribe. revert m.
  induction (map keyFrom vars) as [|key keys IH]; intros m Hm;
    cbn [fold_left]; [exact Hm|].
  apply IH, register_unique, Hm.
Qed.

Lemma matching_subscribe_last keyFrom scope vars c m e :
  unique_subjects m ->
  matching (subscribe keyFrom scope vars c m) e
  = matching m e ++ repeat c (naming keyFrom scope vars e).
Proof.
  unfold subscribe, naming. revert m.
  induction vars as [|var vars IH]; intros m Hm; cbn [map fold_left filter].
  - cbn. rewrite app_nil_r. reflexivity.
  - rewrite IH by (apply register_unique, Hm).
    rewrite matching_register_last by exact Hm.
    rewrite <- app_assoc. f_equal.
    destruct (toString (scope ++ [keyFrom var]) =? join (path e));
      reflexivity.
Qed.

End Order.

(** X1.  Consumers are called in the order of their subscriptions, once per
    subscription: after [subscribe(scope, vars, c)] an event is answered
    by the consumers that answered it before, in the same order, followed
    by [c] once for every variable of [vars] whose key, under the scope,
    is the joined path of the event.  A text that names the same
    variable twice has its consumer called twice per event. *)
Theorem consumers_are_called_in_subscription_order :
  forall (consumer : Type) (keyFrom : string -> string)
         (scope vars : list string) (c : consumer)
         (m : registry consumer) (e : Event),
    unique_subjects m ->
    unique_subjects (subscribe keyFrom scope vars c m)
    /\ matching (subscribe keyFrom scope vars c m) e
       = matching m e ++ repeat c (naming keyFrom scope vars e).
Proof.
  intros consumer keyFrom scope vars c m e Hm. split.
  - apply subscribe_unique, Hm.
  - apply matching_subscribe_last, Hm.
Qed.

Lemma consumers_are_called_in_subscription_order_witness :
  matching (V2.subscribe ["user"] ["{name}"; "{age}"; "{name}"] 2
              (V2.subscribe ["user"] ["{name}"] 1 []))
           (mkEvent CHANGE [Key "user"; Key "name"] (VStr "a") (VStr "b"))
  = [1; 2; 2].
Proof.
  assert (Hfirst : unique_subjects (V2.subscribe ["user"] ["{name}"] 1 [])).
  { apply (consumers_are_called_in_subscription_order nat
             V2.Template.keyFrom ["user"] ["{name}"] 1 []
             (mkEvent CHANGE [] VUndefined VUndefined)).
    constructor. }
  exact (proj2 (consumers_are_called_in_subscription_order nat
                  V2.Template.keyFrom ["user"] ["{name}"; "{age}"; "{name}"]
                  2 _ (mkEvent CHANGE [Key "user"; Key "name"]
                         (VStr "a") (VStr "b")) Hfirst)).
Defined.



End RegistryFacts.


(** ** Frames and the queue *)
Module FrameFacts.
Import Scheduler SchedulerFacts.

Section Quiet.
Context {consumer world : Type}.
Variable call : consumer -> Event -> registry consumer * world
                -> ran consumer world.
Implicit Types (m : manager consumer (world * list (entry consumer))).
Implicit Types (e : Event).

Hypothesis quiet : forall c e rw, written (call c e rw) = [].

Lemma wrote_nothing (new : list (entry consumer)) :
  Forall (made_by call) new -> flat_map wrote new = [].
Proof.
  induction 1 as [|x new [rw [Hx _]] _ IH]; [reflexivity|].
  cbn [flat_map]. rewrite Hx, quiet, IH. reflexivity.
Qed.

(** One callback over a queue that the consumers do not add to: it
    delivers the first events of the queue and leaves the others, none
    when it ends with the queue empty, and fewer than there were when it
    ends by a throw. *)
Lemma callback_quiet fuel m m' ds how :
  processEvents (logged call) fuel m = Some (m', ds, how) ->
  map delivered ds ++ events m' = events m
  /\ frames m' = frames m
  /\ (exists new, calls m' = calls m ++ new
                  /\ map called_with new = rounds ds
                  /\ Forall (made_by call) new)
  /\ (how = Drained -> events m' = [])
  /\ (how = Threw -> ds <> []).
Proof.
  intros Hrun.
  destruct (processEvents_logged call _ _ _ _ _ Hrun)
    as (new & Hcalls & Hwith & Hfifo & _ & Hframes & Hdrained & Hthrew
        & Hmade).
  rewrite (wrote_nothing new Hmade) in Hfifo, Hframes.
  rewrite app_nil_r in Hfifo. cbn [List.length] in Hframes.
  rewrite Nat.add_0_r in Hframes.
  repeat apply conj; try assumption.
  - exists new. repeat split; assumption.
  - intros Hhow. apply Hdrained. exact Hhow.
  - intros Hhow ->. destruct (Hthrew Hhow) as (before & x & -> & _).
    unfold rounds in Hwith. cbn [flat_map] in Hwith.
    rewrite map_app in Hwith. destruct (map called_with before); discriminate.
Qed.

Lemma frame_callbacks_idle (n fuel : nat) m :
  events m = [] ->
  frame_callbacks (logged call) n (S fuel) m
  = Some (m, repeat ([], Drained) n).
Proof.
  intros Hempty. induction n as [|n IH]; cbn [frame_callbacks repeat].
  - reflexivity.
  - rewrite processEvents_round, Hempty, IH. reflexivity.
Qed.

(** As many callbacks as there are queued events, or more, deliver the
    whole queue, whichever consumers throw. *)
Lemma frame_callbacks_quiet (n : nat) :
  forall fuel m,
    List.length (events m) <= n ->
    List.length (events m) < fuel ->
    exists m' rs,
      frame_callbacks (logged call) n fuel m = Some (m', rs)
      /\ List.length rs = n
      /\ flat_map (fun r => map delivered (fst r)) rs = events m
      /\ events m' = []
      /\ frames m' = frames m
      /\ exists new, calls m' = calls m ++ new
                     /\ map called_with new
                        = flat_map (fun r => rounds (fst r)) rs
                     /\ Forall (made_by call) new.
Proof.
  induction n as [|n IH]; intros fuel m Hn Hfuel.
  - destruct (events m) eqn:Hq; [|cbn in Hn; lia].
    exists m, []. cbn [frame_callbacks flat_map List.length].
    repeat split; try assumption. exists [].
    rewrite app_nil_r. repeat split. constructor.
  - cbn [frame_callbacks].
    destruct (processEvents_quiet call m quiet)
      as (m1 & ds & how & Hrun & _).
    apply (processEvents_more_fuel _ _ (fuel - S (List.length (events m))))
      in Hrun.
    replace (S (List.length (events m))
             + (fuel - S (List.length (events m)))) with fuel in Hrun by lia.
    rewrite Hrun.
    destruct (callback_quiet _ _ _ _ _ Hrun)
      as (Hfifo & Hframes & (new1 & Hcalls1 & Hwith1 & Hmade1) & Hdrained
          & Hthrew).
    assert (Hless : List.length (events m1) <= n).
    { destruct how.
      - rewrite (Hdrained eq_refl). cbn. lia.
      - specialize (Hthrew eq_refl). rewrite <- Hfifo, length_app in Hn.
        rewrite length_map in Hn. destruct ds; [contradiction|].
        cbn [List.length] in Hn. lia. }
    assert (Hfuel1 : List.length (events m1) < fuel).
    { rewrite <- Hfifo, length_app in Hfuel. lia. }
    destruct (IH fuel m1 Hless Hfuel1)
      as (m' & rs & Hrest & Hlen & Hall & Hempty & Hframes' & new2 & Hcalls2
          & Hwith2 & Hmade2).
    rewrite Hrest. exists m', ((ds, how) :: rs).
    cbn [List.length flat_map fst]. rewrite Hlen, Hall, Hfifo, Hframes',
      Hframes.
    repeat split; try assumption.
    exists (new1 ++ new2).
    rewrite Hcalls2, Hcalls1, map_app, Hwith1, Hwith2, <- app_assoc.
    repeat split. apply Forall_app. split; assumption.
Qed.
End Quiet.

(** X2.  Every write asks for a frame of its own.  When no consumer writes
    to the state and every event in the queue has asked for its frame,
    the frame after a burst of writes runs one callback for each frame
    asked for, and together they deliver every queued event once, in the
    order of the writes, to the consumers that the calls recorded show,
    and leave the queue empty with no frame requested, whichever
    consumers throw: a callback that ends by a throw has delivered an
    event, and the next one goes on behind it.  When no consumer throws,
    the first callback does all the work and the other callbacks find
    nothing to do. *)
Theorem writes_of_one_turn_are_flushed_by_one_frame :
  forall (consumer world : Type)
         (call : consumer -> Event -> registry consumer * world
                 -> ran consumer world)
         (m : manager consumer (world * list (entry consumer)))
         (es : list Event),
    (forall c e rw, written (call c e rw) = []) ->
    List.length (events m) <= frames m ->
    es <> [] ->
    frames (fold_left emitEvent es m) = frames m + List.length es
    /\ exists m' rs,
        frame (logged call) (S (List.length (events m ++ es)))
              (fold_left emitEvent es m)
        = Some (m', rs)
        /\ List.length rs = frames m + List.length es
        /\ flat_map (fun r => map delivered (fst r)) rs = events m ++ es
        /\ events m' = []
        /\ frames m' = 0
        /\ (exists new,
               calls m' = calls m ++ new
               /\ map called_with new = flat_map (fun r => rounds (fst r)) rs
               /\ Forall (made_by call) new)
        /\ ((forall c e rw, threw (call c e rw) = false) ->
            exists ds,
              rs = (ds, Drained)
                     :: repeat ([], Drained) (frames m + List.length es - 1)
              /\ map delivered ds = events m ++ es).
Proof.
  intros consumer world call m es Hquiet Hinv Hes.
  destruct (emitEvent_keeps es m) as (Hc & Ho & Hf).
  split; [exact Hf|].
  unfold frame. rewrite Hf.
  set (m1 := {| consumers := consumers (fold_left emitEvent es m);
                events := events (fold_left emitEvent es m);
                frames := 0;
                outside := outside (fold_left emitEvent es m) |}).
  assert (Hq : events m1 = events m ++ es) by apply emitEvent_events.
  assert (Hcalls : calls m1 = calls m).
  { unfold calls. cbn [m1 outside]. rewrite Ho. reflexivity. }
  destruct (frame_callbacks_quiet call Hquiet (frames m + List.length es)
              (S (List.length (events m ++ es))) m1)
    as (m' & rs & Hrun & Hlen & Hall & Hempty & Hframes & new & Hnew & Hwith
        & Hmade).
  { rewrite Hq, length_app. lia. }
  { rewrite Hq. lia. }
  exists m', rs. rewrite Hq in Hall. rewrite Hcalls in Hnew.
  repeat apply conj; try assumption.
  - exists new. repeat split; assumption.
  - intros Hcalm.
    destruct (frames m + List.length es) as [|n] eqn:Hn.
    { destruct es; [contradiction | cbn in Hn; lia]. }
    cbn [frame_callbacks] in Hrun.
    destruct (processEvents_calm call m1 Hquiet Hcalm)
      as (m2 & ds & Hfirst & Hds).
    rewrite Hq in Hfirst, Hds. rewrite Hfirst in Hrun.
    assert (Hdone : events m2 = []).
    { destruct (callback_quiet call Hquiet _ _ _ _ _ Hfirst)
        as (_ & _ & _ & Hdrained & _).
      apply Hdrained. reflexivity. }
    rewrite (frame_callbacks_idle call n _ m2 Hdone) in Hrun.
    injection Hrun as <- <-. exists ds.
    replace (S n - 1) with n by lia. split; [reflexivity | exact Hds].
Qed.

Lemma writes_of_one_turn_are_flushed_by_one_frame_witness :
  exists m' rs,
    frame (logged Examples.first_throws) 3
          (fold_left emitEvent
             [Examples.first_event; Examples.second_event]
             {| consumers := [("a", [1]); ("b", [2])]; events := [];
                frames := 0; outside := (tt, []) |})
    = Some (m', rs)
    /\ List.length rs = 2
    /\ flat_map (fun r => map delivered (fst r)) rs
       = [Examples.first_event; Examples.second_event]
    /\ events m' = []
    /\ frames m' = 0.
Proof.
  destruct (writes_of_one_turn_are_flushed_by_one_frame nat unit
              Examples.first_throws
              {| consumers := [("a", [1]); ("b", [2])]; events := [];
                 frames := 0; outside := (tt, []) |}
              [Examples.first_event; Examples.second_event])
    as (_ & m' & rs & Hrun & Hlen & Hall & Hempty & Hframes & _).
  - reflexivity.
  - apply le_n.
  - discriminate.
  - exists m', rs. repeat split; assumption.
Defined.

(** The consumer of the first event throws: the first callback ends with
    it, and the second callback delivers the second event. *)
Example frame_goes_on_after_a_throw :
  exists m',
    frame (logged Examples.first_throws) 3
          (fold_left emitEvent
             [Examples.first_event; Examples.second_event]
             {| consumers := [("a", [1]); ("b", [2])]; events := [];
                frames := 0; outside := (tt, []) |})
    = Some (m', [([mkDelivery Examples.first_event [1] []], Threw);
                 ([mkDelivery Examples.second_event [2] []], Drained)]).
Proof. eexists. reflexivity. Qed.

(** X3.  An event that nobody subscribed to is dropped: a flush over a queue
    of such events ends after as many rounds as there are events, calls
    no consumer, and leaves the registry and everything outside the
    queue as they were, whatever the consumers would do when called. *)
Theorem events_without_subscriber_are_dropped :
  forall (consumer world : Type)
         (call : consumer -> Event -> registry consumer * world
                 -> ran consumer world)
         (m : manager consumer world),
    (forall e, In e (events m) -> matching (consumers m) e = []) ->
    exists ds,
      processEvents call (S (List.length (events m))) m
      = Some ({| consumers := consumers m; events := [];
                 frames := frames m; outside := outside m |}, ds, Drained)
      /\ map delivered ds = events m
      /\ Forall (fun d => notified d = [] /\ caused d = []) ds.
Proof.
  intros consumer world call m.
  remember (events m) as q eqn:Hq. revert m Hq.
  induction q as [|e rest IH]; intros m Hq Hnone;
    rewrite processEvents_round, <- Hq.
  - exists []. destruct m as [reg ev fr w]. cbn in Hq. subst ev.
    repeat apply conj; try reflexivity. constructor.
  - cbv zeta. cbn [consumers].
    rewrite (Hnone e (or_introl eq_refl)). cbn [notify].
    destruct (IH {| consumers := consumers m; events := rest;
                    frames := frames m; outside := outside m |})
      as (ds & Hrun & Hds & Hall).
    + reflexivity.
    + intros e' Hin. apply Hnone. right. exact Hin.
    + cbn [events] in Hrun. cbn [List.length]. rewrite Hrun.
      cbn [consumers frames outside].
      eexists. repeat apply conj; try reflexivity.
      * cbn [map delivered]. rewrite Hds. reflexivity.
      * constructor; [|exact Hall]. cbn [notified caused events].
        split; [reflexivity | apply skipn_all].
Qed.

Lemma events_without_subscriber_are_dropped_witness :
  exists ds,
    processEvents Examples.first_throws 2
      {| consumers := [("a", [1])]; events := [Examples.second_event];
         frames := 1; outside := tt |}
    = Some ({| consumers := [("a", [1])]; events := [];
               frames := 1; outside := tt |}, ds, Drained)
    /\ map delivered ds = [Examples.second_event]
    /\ Forall (fun d => notified d = [] /\ caused d = []) ds.
Proof.
  apply (events_without_subscriber_are_dropped nat unit Examples.first_throws
           {| consumers := [("a", [1])]; events := [Examples.second_event];
              frames := 1; outside := tt |}).
  intros e [<-|[]]. reflexivity.
Defined.

End FrameFacts.

(** ** Templates *)
Module TemplateFacts.
Import Regex RegexFacts FillStateFacts Templates.

Lemma braces_identity (text : string) :
  forall pending : option string,
    replace (fun k => Some (V2.Template.placeholder k)) (braces pending text)
    = Some (pending_text pending ++ text)%string.
Proof.
  induction text as [|c rest IH]; intros pending; cbn [braces].
  - destruct pending as [k|]; cbn [replace pending_text option_map String.append].
    + rewrite replace_literal. cbn [option_map].
      rewrite append_empty_r. reflexivity.
    + reflexivity.
  - destruct pending as [k|].
    + destruct (Ascii.eqb_spec c "}") as [->|_].
      * destruct (String.eqb_spec k "") as [->|_]; cbn [replace];
          rewrite IH; cbn [option_map pending_text String.append];
          [reflexivity|].
        unfold V2.Template.placeholder. cbn [String.append].
        do 2 f_equal. rewrite append_assoc. reflexivity.
      * rewrite IH. cbn [pending_text String.append].
        rewrite snoc_append. reflexivity.
    + destruct (Ascii.eqb_spec c "{") as [->|_].
      * rewrite IH. reflexivity.
      * cbn [replace]. rewrite IH. reflexivity.
Qed.

Lemma replace_throws (f : string -> option string) (ts : list token) :
  replace f ts = None <-> exists k, In k (keys ts) /\ f k = None.
Proof.
  induction ts as [|[c|k] ts IH]; cbn [replace keys In].
  - split; [discriminate | intros (k & [] & _)].
  - destruct (replace f ts) as [s|]; cbn [option_map].
    + split; [discriminate|]. intros Hex. apply IH in Hex. discriminate Hex.
    + split; [|reflexivity]. intros _. apply IH. reflexivity.
  - destruct (f k) as [s|] eqn:Hk.
    + destruct (replace f ts) as [s'|]; cbn [option_map].
      * split; [discriminate|]. intros (k' & [<-|Hin] & Hnone).
        -- congruence.
        -- assert (Hbad : Some s' = None)
             by (apply IH; exists k'; split; assumption).
           discriminate Hbad.
      * split; [|reflexivity]. intros _.
        destruct (proj1 IH eq_refl) as (k' & Hin & Hnone).
        exists k'. split; [right; exact Hin | exact Hnone].
    + split; [|reflexivity]. intros _. exists k.
      split; [left; reflexivity | exact Hk].
Qed.


Lemma match_none_keys {A} (f : A -> string) (l : list A) :
  match map f l with [] => @None (list string) | vars => Some vars end = None
  <-> l = [].
Proof. destruct l; cbn; split; congruence. Qed.

Lemma V2_fill_plain (text : string) (data : value) :
  V2.Template.match_ text = None -> V2.Template.fill text data = Some text.
Proof.
  intros Hm. unfold V2.Template.match_ in Hm. apply match_none_keys in Hm.
  unfold V2.Template.fill.
  rewrite (replace_ext_keys _ (fun k => Some (V2.Template.placeholder k)))
    by (rewrite Hm; intros k []).
  unfold V2.Template.curlyBraces. rewrite braces_identity. reflexivity.
Qed.

Lemma V3_fill_plain (text : string) (data : value) :
  V3.Template.match_ text = None -> V3State.fill text data = Some text.
Proof.
  intros Hm. unfold V3.Template.match_ in Hm. apply match_none_keys in Hm.
  unfold V3State.fill.
  rewrite (replace_ext_keys _ (fun k => Some (V3.Template.placeholder k)))
    by (rewrite Hm; intros k []).
  unfold V3.Template.curlyBraces. rewrite dollar_braces_identity.
  reflexivity.
Qed.

(** X4.  A text without a placeholder comes back from [Template.fill] as it
    is, whatever the data, [undefined] and [null] included; this holds
    for the expression of either generation, so also for a text with a
    brace that is never closed or with empty braces. *)
Theorem fill_keeps_a_text_without_placeholder :
  forall (text : string) (data : value),
    (V2.Template.match_ text = None ->
     V2.Template.fill text data = Some text)
    /\ (V3.Template.match_ text = None ->
        V3State.fill text data = Some text).
Proof.
  intros text data. split; [apply V2_fill_plain | apply V3_fill_plain].
Qed.

Lemma fill_keeps_a_text_without_placeholder_witness :
  V2.Template.fill "a {} b {c" VUndefined = Some "a {} b {c"
  /\ V3State.fill "{a} costs 5$ ${" VNull = Some "{a} costs 5$ ${".
Proof.
  split.
  - apply (proj1 (fill_keeps_a_text_without_placeholder "a {} b {c"
                    VUndefined)). reflexivity.
  - apply (proj2 (fill_keeps_a_text_without_placeholder "{a} costs 5$ ${"
                    VNull)). reflexivity.
Defined.


Lemma dollar_braces_keys (text : string) :
  forall (st : dollar_state) (k : string),
    (forall p, st = Inside p -> closes p = false) ->
    In k (keys (dollar_braces st text)) -> k <> "" /\ closes k = false.
Proof.
  induction text as [|c rest IH]; intros st k Hp Hin;
    cbn [dollar_braces] in Hin.
  - destruct st; cbn [keys] in Hin; try destruct Hin.
    rewrite keys_literal in Hin. destruct Hin.
  - destruct st as [| |p].
    + destruct (Ascii.eqb_spec c "$") as [->|Hc].
      * apply (IH Dollar k); [discriminate | exact Hin].
      * cbn [keys] in Hin. apply (IH Outside k); [discriminate | exact Hin].
    + destruct (Ascii.eqb_spec c "{") as [->|Hc].
      * apply (IH (Inside "") k); [|exact Hin]. intros p' [= <-]. reflexivity.
      * destruct (Ascii.eqb_spec c "$") as [->|Hd]; cbn [keys] in Hin.
        -- apply (IH Dollar k); [discriminate | exact Hin].
        -- apply (IH Outside k); [discriminate | exact Hin].
    + destruct (Ascii.eqb_spec c "}") as [->|Hc].
      * destruct (String.eqb_spec p "") as [->|Hne]; cbn [keys In] in Hin.
        -- apply (IH Outside k); [discriminate | exact Hin].
        -- destruct Hin as [<-|Hin].
           ++ split; [exact Hne | apply Hp; reflexivity].
           ++ apply (IH Outside k); [discriminate | exact Hin].
      * apply (IH (Inside (snoc p c)) k); [|exact Hin].
        intros p' [= <-]. rewrite closes_snoc, (Hp p eq_refl).
        apply Ascii.eqb_neq in Hc. rewrite Hc. reflexivity.
Qed.

Lemma dollar_braces_pending (k : string) :
  forall acc : string,
    closes k = false ->
    (acc ++ k)%string <> "" ->
    dollar_braces (Inside acc) (k ++ "}") = [Hole (acc ++ k)].
Proof.
  induction k as [|c k IH]; intros acc Hk Hne;
    cbn [String.append dollar_braces].
  - rewrite append_empty_r in *. cbn.
    destruct (String.eqb_spec acc ""); [contradiction | reflexivity].
  - cbn [closes] in Hk. apply orb_false_elim in Hk as [Hc Hk].
    rewrite Hc, IH, snoc_append; [reflexivity | exact Hk |].
    rewrite snoc_append. exact Hne.
Qed.

Lemma dollar_braces_placeholder (k : string) :
  k <> "" -> closes k = false ->
  V3.Template.curlyBraces (V3.Template.placeholder k) = [Hole k].
Proof.
  intros Hne Hk. unfold V3.Template.curlyBraces, V3.Template.placeholder.
  cbn [String.append dollar_braces Ascii.eqb Bool.eqb]. cbn.
  apply (dollar_braces_pending k ""); assumption.
Qed.

Lemma V3_keyFrom_placeholder (k : string) :
  V3.Template.keyFrom (V3.Template.placeholder k) = k.
Proof.
  unfold V3.Template.keyFrom, V3.Template.placeholder, slice.
  cbn [String.append prefix]. cbn [String.length substring].
  rewrite length_append. cbn [String.length].
  replace (S (S (String.length k + 1)) - 1 - 2) with (String.length k) by lia.
  destruct (ascii_dec "$" "$") as [_|Hne]; [|destruct Hne; reflexivity].
  destruct (ascii_dec "{" "{") as [_|Hne]; [|destruct Hne; reflexivity].
  replace (prefix "" (k ++ "}")) with true
    by (destruct (k ++ "}")%string; reflexivity).
  apply substring_all.
Qed.

Lemma match_vars {A} (f : A -> string) (l : list A) (vars : list string) :
  match map f l with [] => None | vars => Some vars end = Some vars ->
  vars = map f l.
Proof.
  destruct (map f l); [discriminate | intros [= <-]; reflexivity].
Qed.

Lemma V2_match_keys (text : string) (vars : list string) :
  V2.Template.match_ text = Some vars ->
  map V2.Template.keyFrom vars = keys (V2.Template.curlyBraces text).
Proof.
  intros Hm. apply match_vars in Hm. subst vars.
  rewrite map_map. rewrite <- (map_id (keys _)) at 2.
  apply map_ext. intros k. apply V2_keyFrom_placeholder.
Qed.

Lemma V3_match_keys (text : string) (vars : list string) :
  V3.Template.match_ text = Some vars ->
  map V3.Template.keyFrom vars = keys (V3.Template.curlyBraces text).
Proof.
  intros Hm. apply match_vars in Hm. subst vars.
  rewrite map_map. rewrite <- (map_id (keys _)) at 2.
  apply map_ext. intros k. apply V3_keyFrom_placeholder.
Qed.

(** X6.  What [Template.match] returns is what [subscribe] needs: the matches
    are the placeholders of the text in order of appearance, [keyFrom]
    gives back the key of each, no key is empty or holds a closing
    brace, and each match, read again as a text, matches itself and
    nothing else. *)
Theorem keyFrom_recovers_the_keys_of_match :
  forall (text : string) (vars : list string),
    (V2.Template.match_ text = Some vars ->
     map V2.Template.keyFrom vars = keys (V2.Template.curlyBraces text)
     /\ forall var, In var vars ->
          V2.Template.keyFrom var <> ""
          /\ closes (V2.Template.keyFrom var) = false
          /\ var = V2.Template.placeholder (V2.Template.keyFrom var)
          /\ V2.Template.match_ var = Some [var])
    /\ (V3.Template.match_ text = Some vars ->
        map V3.Template.keyFrom vars = keys (V3.Template.curlyBraces text)
        /\ forall var, In var vars ->
             V3.Template.keyFrom var <> ""
             /\ closes (V3.Template.keyFrom var) = false
             /\ var = V3.Template.placeholder (V3.Template.keyFrom var)
             /\ V3.Template.match_ var = Some [var]).
Proof.
  intros text vars. split; intros Hm.
  - split; [apply V2_match_keys, Hm|].
    apply match_vars in Hm. subst vars.
    intros var Hin. apply in_map_iff in Hin as (k & <- & Hk).
    rewrite V2_keyFrom_placeholder.
    destruct (braces_keys text None k) as [Hne Hcl];
      [discriminate | exact Hk |].
    repeat apply conj; try assumption; try reflexivity.
    unfold V2.Template.match_.
    rewrite (braces_placeholder k Hne Hcl). reflexivity.
  - split; [apply V3_match_keys, Hm|].
    apply match_vars in Hm. subst vars.
    intros var Hin. apply in_map_iff in Hin as (k & <- & Hk).
    rewrite V3_keyFrom_placeholder.
    destruct (dollar_braces_keys text Outside k) as [Hne Hcl];
      [discriminate | exact Hk |].
    repeat apply conj; try assumption; try reflexivity.
    unfold V3.Template.match_.
    rewrite (dollar_braces_placeholder k Hne Hcl). reflexivity.
Qed.

Lemma keyFrom_recovers_the_keys_of_match_witness :
  map V3.Template.keyFrom ["${first}"; "${last}"] = ["first"; "last"].
Proof.
  exact (proj1 (proj2 (keyFrom_recovers_the_keys_of_match
                         "Hi ${first} ${last}!" ["${first}"; "${last}"])
                      eq_refl)).
Defined.

End TemplateFacts.


(** ** From a write to the bound text *)
Module BindingFacts.
Import Observer Scheduler Regex RegexFacts SchedulerFacts ObserverFacts
       TemplateFacts.

Lemma concat_last (scope : list string) :
  exists pre, forall k, String.concat "," (scope ++ [k]) = (pre ++ k)%string.
Proof.
  induction scope as [|x rest [pre IH]].
  - exists "". reflexivity.
  - exists (x ++ "," ++ pre)%string. intros k.
    cbn [app String.concat]. destruct (rest ++ [k]) eqn:Hr.
    + destruct rest; discriminate Hr.
    + rewrite <- Hr, IH, !FillStateFacts.append_assoc. reflexivity.
Qed.

Lemma append_cancel_l (pre a b : string) :
  (pre ++ a)%string = (pre ++ b)%string -> a = b.
Proof.
  induction pre as [|c pre IH]; cbn [String.append]; intros H.
  - exact H.
  - injection H as H. apply IH, H.
Qed.

Lemma toString_last (scope : list string) (k k' : string) :
  toString (scope ++ [k]) = toString (scope ++ [k']) <-> k = k'.
Proof.
  split; [|intros ->; reflexivity].
  unfold toString. destruct (concat_last scope) as [pre Hpre].
  rewrite !Hpre. apply append_cancel_l.
Qed.

Lemma join_keys (scope : list string) (k : string) :
  join (map Key scope ++ [Key k]) = toString (scope ++ [k]).
Proof.
  unfold join, toString. rewrite map_app, map_map. cbn [map String_of_segment].
  rewrite map_id. reflexivity.
Qed.

(** The consumers called for an event at key [k] of the scope, after
    one [subscribe] of the variables [vars]. *)
Lemma write_matches_its_key {consumer : Type}
      (keyFrom : string -> string) (scope vars : list string)
      (c c' : consumer) (reg : registry consumer) (e : Event) (k : string) :
  path e = map Key scope ++ [Key k] ->
  In c' (matching (subscribe keyFrom scope vars c reg) e)
  <-> In c' (matching reg e) \/ (c' = c /\ In k (map keyFrom vars)).
Proof.
  intros Hpath. rewrite matching_subscribe, Hpath, join_keys. split.
  - intros [H|(-> & var & Hin & Hs)]; [left; exact H|].
    right. split; [reflexivity|].
    apply toString_last in Hs. subst k. apply in_map, Hin.
  - intros [H|(-> & Hin)]; [left; exact H|]. right. split; [reflexivity|].
    apply in_map_iff in Hin as (var & <- & Hin).
    exists var. split; [exact Hin | reflexivity].
Qed.

(** X7.  Second generation.  When [#bindTextContent] has bound a text
    with placeholders in a scope, the node shows the text filled from the
    state of the scope, and the event of a write to the property [k]
    through the observer of that scope, of an object that is not held as
    an observer, is answered by the consumers that answered it before
    the binding and, besides, by the consumer of the text exactly when
    [k] is the key of one of the placeholders of the text. *)
Theorem bound_text_hears_writes_to_its_keys :
  forall (E : Engine) (root : value) (textContent : string)
         (scope : list string) (shown : string)
         (before reg : registry V2Text.text_consumer),
    V2Text.bindTextContent root textContent scope before
    = Some (shown, reg) ->
    textContent <> "{}" ->
    (exists state, V2.getByPath root scope = Some state
                   /\ V2.Template.fill textContent state = Some shown)
    /\ forall (k : string) (v target : value) (e : Event)
              (c : V2Text.text_consumer),
        is_observer target = false ->
        In e (Observer.events (run (V2.set (map Key scope) k v) target)) ->
        (In c (matching reg e)
         <-> In c (matching before e)
             \/ (c = V2Text.mkTextConsumer textContent scope
                 /\ In k (keys (V2.Template.curlyBraces textContent)))).
Proof.
  intros E root textContent scope shown before reg Hbind Hnot.
  unfold V2Text.bindTextContent in Hbind.
  destruct (V2.getByPath root scope) as [state|] eqn:Hstate;
    [|discriminate Hbind].
  apply String.eqb_neq in Hnot. rewrite Hnot in Hbind.
  destruct (V2.Template.match_ textContent) as [vars|] eqn:Hm.
  - unfold V2Text.consumer in Hbind.
    destruct (V2.Template.fill textContent state) as [text|] eqn:Hfill;
      [|discriminate Hbind].
    injection Hbind as <- <-. split.
    + exists state. split; [reflexivity | exact Hfill].
    + intros k v t e c Hraw Hin.
      pose proof (raw_write_path t _ k v e Hraw (or_introl Hin)) as Hpath.
      unfold V2.subscribe.
      rewrite (write_matches_its_key _ _ _ _ _ _ _ _ Hpath).
      rewrite (V2_match_keys _ _ Hm). reflexivity.
  - injection Hbind as <- <-. split.
    + exists state. split; [reflexivity|].
      apply V2_fill_plain, Hm.
    + intros k v t e c _ Hin. split; [intros H; left; exact H|].
      intros [H|[_ Hk]]; [exact H|]. unfold V2.Template.match_ in Hm.
      apply match_none_keys in Hm. rewrite Hm in Hk. destruct Hk.
Qed.

Lemma bound_text_hears_writes_to_its_keys_witness :
  In (V2Text.mkTextConsumer "{first} {last}" ["user"])
     (matching
        [("user,first", [V2Text.mkTextConsumer "{first}" ["user"];
                         V2Text.mkTextConsumer "{first} {last}" ["user"]]);
         ("user,last", [V2Text.mkTextConsumer "{first} {last}" ["user"]])]
        (mkEvent ASSIGN [Key "user"; Key "last"] VUndefined (VStr "Lee")))
  <-> In (V2Text.mkTextConsumer "{first} {last}" ["user"])
         (matching
            [("user,first", [V2Text.mkTextConsumer "{first}" ["user"]])]
            (mkEvent ASSIGN [Key "user"; Key "last"] VUndefined (VStr "Lee")))
      \/ (V2Text.mkTextConsumer "{first} {last}" ["user"]
          = V2Text.mkTextConsumer "{first} {last}" ["user"]
          /\ In "last" ["first"; "last"]).
Proof.
  apply (proj2 (bound_text_hears_writes_to_its_keys Examples.decimal
                  (VObj [("user", VObj [("first", VStr "Ann")])])
                  "{first} {last}" ["user"] "Ann "
                  [("user,first", [V2Text.mkTextConsumer "{first}" ["user"]])]
                  _ eq_refl ltac:(discriminate))
               "last" (VStr "Lee") (VObj [("first", VStr "Ann")])).
  - reflexivity.
  - left. reflexivity.
Defined.

(** X8.  Third generation.  When [#bindTextNode] has bound a text in a
    scope, the clone shows what [#fillState] gives (the text itself when
    it has no placeholder), and an event of a write to the property [k]
    through the observer of that scope, of an object that is not held as
    an observer, is answered by the consumers that answered it before the
    binding and, besides, by the consumer of the text exactly when [k]
    is the key of one of the placeholders of the text. *)
Theorem bound_text_node_hears_writes_to_its_keys :
  forall (E : Engine) (state : value) (textContent : string)
         (scope : list string) (shown : string)
         (before reg : registry V3State.text_consumer),
    V3State.bindTextNode state textContent scope before
    = Some (shown, reg) ->
    match V3.Template.match_ textContent with
    | None => shown = textContent
    | Some vars => V3.fillState state textContent scope vars = Some shown
    end
    /\ forall (k : string) (v target : value) (e : Event)
              (c : V3State.text_consumer),
        is_observer target = false ->
        In e (Observer.events (run (V3.set (map Key scope) k v) target)) ->
        (In c (matching reg e)
         <-> In c (matching before e)
             \/ ((exists vars,
                     V3.Template.match_ textContent = Some vars
                     /\ c = V3State.mkTextConsumer textContent scope vars)
                 /\ In k (keys (V3.Template.curlyBraces textContent)))).
Proof.
  intros E state textContent scope shown before reg Hbind.
  unfold V3State.bindTextNode in Hbind.
  destruct (V3.Template.match_ textContent) as [vars|] eqn:Hm.
  - destruct (V3.fillState state textContent scope vars) as [text|] eqn:Hfill;
      [|discriminate Hbind].
    injection Hbind as <- <-. split; [reflexivity|].
    intros k v t e c Hraw Hin.
    pose proof (raw_write_path t _ k v e Hraw (or_intror Hin)) as Hpath.
    unfold V3.subscribe.
    rewrite (write_matches_its_key _ _ _ _ _ _ _ _ Hpath).
    rewrite (V3_match_keys _ _ Hm). split.
    + intros [H|[-> Hk]]; [left; exact H|]. right.
      split; [|exact Hk]. exists vars. split; reflexivity.
    + intros [H|[(vars' & [= <-] & ->) Hk]]; [left; exact H|].
      right. split; [reflexivity | exact Hk].
  - injection Hbind as <- <-. split; [reflexivity|].
    intros k v t e c _ Hin. split; [intros H; left; exact H|].
    intros [H|[(vars & Hvars & _) _]]; [exact H | discriminate Hvars].
Qed.

Lemma bound_text_node_hears_writes_to_its_keys_witness :
  V3.fillState (VObj [("user", VObj [("first", VStr "Ann")])])
               "Hi ${first}" ["user"] ["${first}"] = Some "Hi Ann".
Proof.
  exact (proj1 (bound_text_node_hears_writes_to_its_keys Examples.decimal
                  (VObj [("user", VObj [("first", VStr "Ann")])])
                  "Hi ${first}" ["user"] "Hi Ann" [] _ eq_refl)).
Defined.

Lemma concat_snoc (l : list string) (k : string) :
  l <> [] ->
  String.concat "," (l ++ [k]) = (String.concat "," l ++ "," ++ k)%string.
Proof.
  induction l as [|x rest IH]; intros Hl; [contradiction|].
  destruct rest as [|y rest].
  - reflexivity.
  - change (String.concat "," ((x :: y :: rest) ++ [k]))
      with (x ++ "," ++ String.concat "," ((y :: rest) ++ [k]))%string.
    rewrite IH by discriminate.
    change (String.concat "," (x :: y :: rest))
      with (x ++ "," ++ String.concat "," (y :: rest))%string.
    rewrite !FillStateFacts.append_assoc. reflexivity.
Qed.

Lemma concat_grows (l m : list string) (k : string) :
  l <> [] ->
  String.length (String.concat "," l)
  < String.length (String.concat "," ((l ++ m) ++ [k])).
Proof.
  intros Hl. revert k. induction m as [|x m IH] using rev_ind; intros k.
  - rewrite app_nil_r, concat_snoc by exact Hl.
    rewrite !length_append. cbn [String.length]. lia.
  - rewrite concat_snoc.
    + rewrite !length_append, app_assoc. specialize (IH x). lia.
    + intros H. apply app_eq_nil in H as [H _]. exact (Hl H).
Qed.

Lemma join_longer (p q : list segment) (k : string) :
  p <> [] -> join ((p ++ q) ++ [Key k]) <> join p.
Proof.
  intros Hp Heq. apply (f_equal String.length) in Heq. revert Heq.
  unfold join. rewrite !map_app. cbn [map String_of_segment].
  pose proof (concat_grows (map String_of_segment p)
                (map String_of_segment q) k) as Hlt.
  intros Heq. rewrite Heq in Hlt.
  apply (Nat.lt_irrefl _ (Hlt ltac:(destruct p; [contradiction|discriminate]))).
Qed.

(** X9.  Third generation.  The redraw closure that [#bindListNode]
    leaves for a list is added to the consumers called when the list is
    replaced by a write to its key in the enclosing scope, and to no
    others: whatever a built-in array method, an index write or a write
    to [length] does through the observer of the list, or of anything
    below it, the events it emits are answered by the consumers that
    answered them before the binding.  The objects written to are not
    held as observers. *)
Theorem list_is_redrawn_when_replaced_not_when_changed :
  forall (E : Engine) (consumer : Type) (redraw : consumer) (for_ : string)
         (scope : list string) (before : registry consumer),
    let key := V3.Template.keyFrom for_ in
    let reg := V3State.bindListNode for_ scope redraw before in
    (forall (v target : value) (e : Event) (c : consumer),
        is_observer target = false ->
        In e (Observer.events (run (V3.set (map Key scope) key v) target)) ->
        (In c (matching reg e) <-> In c (matching before e) \/ c = redraw))
    /\ (forall (A : Type) (call : Proxy.script A) (below : list segment)
               (target : value) (e : Event) (c : consumer),
           is_observer target = false ->
           In e (Observer.events
                   (run (Proxy.on_proxy V3.set
                           (map Key (scope ++ [key]) ++ below) call)
                        target)) ->
           (In c (matching reg e) <-> In c (matching before e)))
    /\ (forall K c, subscribed K c before -> subscribed K c reg).
Proof.
  intros E consumer redraw for_ scope before key reg.
  assert (Hreg : forall e c,
             In c (matching reg e)
             <-> In c (matching before e)
                 \/ (toString (scope ++ [key]) = join (path e)
                     /\ c = redraw)).
  { intros e c. subst reg. unfold V3State.bindListNode, V3.subscribeList,
      subscribeList. apply matching_register. }
  split; [|split].
  - intros v t e c Hraw Hin. rewrite Hreg.
    pose proof (raw_write_path t _ key v e Hraw (or_intror Hin)) as Hpath.
    rewrite Hpath, join_keys. tauto.
  - intros A call below t e c Hraw Hin. rewrite Hreg.
    destruct (ProxyFacts.on_proxy_events V3.set
                (map Key (scope ++ [key]) ++ below) call t
                (ProxyFacts.appends_V3_set _)) as [_ Hall].
    specialize (Hall Hraw). rewrite Forall_forall in Hall.
    destruct (Hall e Hin) as [k Hpath].
    split; [|intros H; left; exact H].
    intros [H|[Heq _]]; [exact H|].
    exfalso. rewrite Hpath in Heq.
    apply (join_longer (map Key (scope ++ [key])) below k).
    + destruct scope; discriminate.
    + rewrite <- Heq. unfold join, toString.
      rewrite map_map. cbn [String_of_segment]. rewrite map_id. reflexivity.
  - intros K c Hsub. subst reg.
    unfold V3State.bindListNode, V3.subscribeList, subscribeList.
    apply subscribed_register. left. exact Hsub.
Qed.

Lemma list_is_redrawn_when_replaced_not_when_changed_witness :
  In 1 (matching (V3State.bindListNode "${items}" ["cart"] 1
                    [("cart,items,0", [2])])
                 (mkEvent ASSIGN [Key "cart"; Key "items"] VUndefined
                          (VArr [])))
  /\ ~ In 1 (matching (V3State.bindListNode "${items}" ["cart"] 1
                         [("cart,items,0", [2])])
                      (mkEvent ASSIGN [Key "cart"; Key "items"; Key "0"]
                               VUndefined (VStr "x"))).
Proof.
  destruct (list_is_redrawn_when_replaced_not_when_changed Examples.decimal
              nat 1 "${items}" ["cart"] [("cart,items,0", [2])])
    as (Hreplaced & Hchanged & _).
  split.
  - apply (Hreplaced (VArr []) (VObj []) _ 1 eq_refl).
    + left. reflexivity.
    + right. reflexivity.
  - intros Hin.
    apply (Hchanged value (Proxy.Array_prototype_push [VStr "x"]) []
                    (VArr []) _ 1 eq_refl) in Hin.
    + destruct Hin as [H|[]]. discriminate H.
    + left. reflexivity.
Defined.

End BindingFacts.


(** ** Attributes after binding *)
Module AttributeBindingFacts.
Import DOM Regex RegexFacts AttributeFacts TemplateFacts Attributes.





















End AttributeBindingFacts.


(** ** [#getState] of the third generation *)
Module GetStateFacts.
Import V3State FillStateFacts.

Lemma member_defined (o v : value) (k : string) :
  member o k = Some v -> is_defined o = true.
Proof. destruct o; cbn; congruence. Qed.

Lemma reduce_path_undefined (keys : list string) (v : value) :
  reduce_path VUndefined keys = Some v -> keys = [] /\ v = VUndefined.
Proof.
  destruct keys as [|key rest]; [intros [= <-]; split; reflexivity|].
  rewrite reduce_path_cons. discriminate.
Qed.

Lemma reduce_path_snoc (o : value) (keys : list string) (k : string) :
  reduce_path o (keys ++ [k])
  = match reduce_path o keys with
    | Some w => member w k
    | None => None
    end.
Proof. unfold reduce_path. rewrite fold_left_app. reflexivity. Qed.




Lemma scan_null (long : bool) (i : nat) :
  forall (o : value) (keys : list string),
    reduce_path o (firstn i keys) = Some VNull ->
    i < List.length keys ->
    scan long o keys = TypeError.
Proof.
  induction i as [|i IH]; intros o keys Hred Hi.
  - destruct keys as [|key rest]; [cbn in Hi; lia|].
    injection Hred as ->. reflexivity.
  - destruct keys as [|key rest]; [cbn in Hi; lia|].
    cbn [firstn] in Hred. rewrite reduce_path_cons in Hred.
    cbn [scan].
    destruct (member o key) as [w|] eqn:Hw; [|discriminate Hred].
    rewrite (member_defined _ _ _ Hw). cbn [negb].
    assert (Hdef : is_defined w = true).
    { destruct w; try reflexivity.
      apply reduce_path_undefined in Hred as [_ H]. discriminate H. }
    rewrite Hdef. cbn [negb andb]. apply IH; [exact Hred|].
    cbn in Hi. lia.
Qed.






(** X13.  A [null] met before the last segment makes [#getState] throw, even
    when an enclosing scope defines the key: the test that sends the
    lookup to the enclosing scope is for [undefined] alone. *)
Theorem getState_throws_on_null :
  forall (state : value) (path : list string) (i depth : nat),
    reduce_path state (firstn i path) = Some VNull ->
    i < List.length path ->
    getState (S depth) state path = Throws.
Proof.
  intros state path i depth Hnull Hi. cbn [getState].
  destruct path as [|key rest]; [cbn in Hi; lia|].
  rewrite (scan_null _ i state (key :: rest) Hnull Hi). reflexivity.
Qed.

Lemma getState_throws_on_null_witness :
  getState 1 (VObj [("title", VStr "Root"); ("user", VNull)])
           ["user"; "title"]
  = Throws.
Proof.
  apply (getState_throws_on_null
           (VObj [("title", VStr "Root"); ("user", VNull)])
           ["user"; "title"] 1 0).
  - reflexivity.
  - cbn. lia.
Defined.

Lemma length_previous (path : list string) :
  2 <= List.length path ->
  List.length (previous path) = pred (List.length path).
Proof.
  intros Hlen. unfold previous.
  rewrite length_app, !length_removelast. cbn [List.length]. lia.
Qed.

Lemma getState_ends_within (state : value) (n : nat) :
  is_defined state = true ->
  forall path : list string,
    List.length path <= n -> getState (S n) state path <> Unfinished.
Proof.
  intros Hstate. induction n as [|n IH]; intros path Hlen.
  - destruct path; [discriminate | cbn in Hlen; lia].
  - cbn [getState]. destruct path as [|key rest]; [discriminate|].
    destruct (scan _ state (key :: rest)) eqn:Hscan; try discriminate.
    fold (getState (S n) state (previous (key :: rest))).
    destruct rest as [|key' rest].
    + exfalso. cbn in Hscan. rewrite Hstate in Hscan. cbn [negb] in Hscan.
      destruct (member state key); [|discriminate Hscan].
      rewrite andb_false_r in Hscan. discriminate Hscan.
    + apply IH. rewrite length_previous by (cbn; lia). cbn in *. lia.
Qed.

(** X14.  Over a state that is not [undefined] (the manager's is an object),
    [#getState] ends for every path: each call that does not return
    calls itself with a path one segment shorter, so a path of [n]
    segments is settled within [n + 1] nested calls. *)
Theorem getState_ends :
  forall (state : value) (path : list string),
    is_defined state = true ->
    exists v : option value,
      getState (S (List.length path)) state path
      = match v with Some v => Returns v | None => Throws end.
Proof.
  intros state path Hstate.
  pose proof (getState_ends_within state (List.length path) Hstate path
                (Nat.le_refl _)) as Hends.
  destruct (getState (S (List.length path)) state path) as [v| |].
  - exists (Some v). reflexivity.
  - exists None. reflexivity.
  - contradiction.
Qed.

Lemma getState_ends_witness :
  exists v : option value,
    getState 4 (VObj [("a", VObj [])]) ["a"; "b"; "c"]
    = match v with Some v => Returns v | None => Throws end.
Proof.
  apply (getState_ends (VObj [("a", VObj [])]) ["a"; "b"; "c"]).
  reflexivity.
Defined.

End GetStateFacts.


(** ** [push] and [pop] called on an observed array *)
Module CallFacts.
Import Observer Proxy Calls ObserverFacts.

Lemma to_uint_nonnil (n : nat) : Nat.to_uint n <> Decimal.Nil.
Proof.
  rewrite <- (DecimalNat.Unsigned.of_to n) at 1.
  rewrite DecimalNat.Unsigned.to_of. apply DecimalFacts.unorm_nonnil.
Qed.

Lemma array_index_string_of_nat (n : nat) :
  array_index (string_of_nat n) = Some n.
Proof.
  unfold array_index, string_of_nat.
  rewrite (NilZero.usu _ (to_uint_nonnil n)), DecimalNat.Unsigned.of_to.
  unfold string_of_nat. rewrite String.eqb_refl. reflexivity.
Qed.

Lemma string_of_nat_not_length (n : nat) :
  (string_of_nat n =? "length") = false.
Proof.
  apply String.eqb_neq. intros H.
  pose proof (NilZero.usu _ (to_uint_nonnil n)) as Hu.
  unfold string_of_nat in H. rewrite H in Hu. discriminate Hu.
Qed.

Lemma store_at_end (v : value) (l : list value) :
  store_at (List.length l) v l = l ++ [v].
Proof. induction l as [|x l IH]; cbn; [|rewrite IH]; reflexivity. Qed.

Lemma store_at_last (v x : value) (l : list value) :
  store_at (List.length l) v (l ++ [x]) = l ++ [v].
Proof. induction l as [|y l IH]; cbn; [|rewrite IH]; reflexivity. Qed.

Lemma resize_all (l : list value) : resize (List.length l) l = l.
Proof.
  unfold resize. rewrite firstn_all, Nat.sub_diag. apply app_nil_r.
Qed.

Lemma resize_less (l rest : list value) :
  resize (List.length l) (l ++ rest) = l.
Proof.
  unfold resize. rewrite firstn_app, firstn_all, Nat.sub_diag.
  cbn [firstn]. rewrite length_app.
  replace (List.length l - (List.length l + List.length rest)) with 0 by lia.
  cbn [repeat]. rewrite !app_nil_r. reflexivity.
Qed.

Section Writes.
Variable set : list segment -> string -> value
               -> handler value (completion bool).
Variable silent : value -> bool.
Variable p : list segment.

Hypothesis set_index :
  forall (l : list value) (E : value) (es : list Event),
    set p (string_of_nat (List.length l)) E
        {| target := VArr l; emitted := es |}
    = (Completes true,
       {| target := VArr (l ++ [E]);
          emitted := es ++ assigned silent p (List.length l) [E] |}).

Lemma write_items_run {A} (items : list value) :
  forall (l : list value) (es : list Event) (next : nat -> script A),
    on_proxy set p (write_items items (List.length l) next)
             {| target := VArr l; emitted := es |}
    = on_proxy set p (next (List.length l + List.length items))
               {| target := VArr (l ++ items);
                  emitted := es ++ assigned silent p (List.length l) items |}.
Proof.
  induction items as [|E rest IH]; intros l es next;
    cbn [write_items List.length assigned].
  - rewrite Nat.add_0_r, !app_nil_r. reflexivity.
  - cbn [on_proxy]. unfold attempt at 1, bind at 1. rewrite set_index.
    replace (S (List.length l)) with (List.length (l ++ [E]))
      by (rewrite length_app; cbn; lia).
    rewrite IH. rewrite <- !app_assoc. cbn [app].
    rewrite (length_app l [E]). cbn [List.length assigned].
    rewrite app_nil_r.
    replace (List.length l + 1 + List.length rest)
      with (List.length l + S (List.length rest)) by lia.
    replace (List.length l + 1) with (S (List.length l)) by lia.
    reflexivity.
Qed.
End Writes.

(** No built-in prototype has a property named by an array index. *)
Lemma lookup_index (n : nat) (table : list (string * value)) :
  forallb (fun entry => match array_index (fst entry) with
                        | Some _ => false
                        | None => true
                        end) table = true ->
  lookup (string_of_nat n) table = None.
Proof.
  induction table as [|[k v] table IH]; cbn [forallb lookup fst].
  - reflexivity.
  - intros H. apply andb_true_iff in H as [Hk Htable].
    destruct (String.eqb_spec k (string_of_nat n)) as [->|_].
    + rewrite array_index_string_of_nat in Hk. discriminate Hk.
    + apply IH. exact Htable.
Qed.

Lemma string_of_nat_not_proto (n : nat) :
  (string_of_nat n =? "__proto__") = false.
Proof.
  apply String.eqb_neq. intros H.
  pose proof (array_index_string_of_nat n) as Hi. rewrite H in Hi.
  discriminate Hi.
Qed.

Lemma inherited_index (l : list value) (n : nat) :
  inherited (VArr l) (string_of_nat n) = None.
Proof.
  unfold inherited. cbn [prototypes].
  rewrite string_of_nat_not_proto. cbn [find_in_chain].
  rewrite !lookup_index by reflexivity. reflexivity.
Qed.

Lemma get_index_beyond (l : list value) :
  Reflect_get (VArr l) (string_of_nat (List.length l)) = VUndefined.
Proof.
  unfold Reflect_get. cbn [read own].
  rewrite string_of_nat_not_length, array_index_string_of_nat.
  replace (nth_error l (List.length l)) with (@None value)
    by (symmetry; apply nth_error_None; lia).
  rewrite inherited_index. reflexivity.
Qed.

Lemma set_index_beyond {E : Engine} (l : list value) (v : value) :
  OrdinarySet (VArr l) (string_of_nat (List.length l)) v
  = Completes (true, VArr (l ++ [v])).
Proof.
  unfold OrdinarySet.
  rewrite string_of_nat_not_length, array_index_string_of_nat, store_at_end.
  reflexivity.
Qed.

Lemma V2_set_index {E : Engine} (p : list segment) (l : list value)
      (v : value) (es : list Event) :
  V2.set p (string_of_nat (List.length l)) v
         {| target := VArr l; emitted := es |}
  = (Completes true,
     {| target := VArr (l ++ [v]);
        emitted := es ++ assigned never p (List.length l) [v] |}).
Proof.
  unfold V2.set, trap. cbn [target emitted].
  rewrite V2_write_plain by reflexivity.
  rewrite set_index_beyond, get_index_beyond. reflexivity.
Qed.

Lemma V3_set_index {E : Engine} (p : list segment) (l : list value)
      (v : value) (es : list Event) :
  V3.set p (string_of_nat (List.length l)) v
         {| target := VArr l; emitted := es |}
  = (Completes true,
     {| target := VArr (l ++ [v]);
        emitted := es ++ assigned is_function p (List.length l) [v] |}).
Proof.
  unfold V3.set, trap. cbn [target emitted].
  rewrite V3_write_V2, V2_write_plain by reflexivity.
  rewrite set_index_beyond, get_index_beyond. cbn [assigned].
  destruct (is_function v); reflexivity.
Qed.

Lemma array_length_number {E : Engine} (m : nat) :
  array_length (number m)
  = if (Z.of_nat m <? 4294967296)%Z then Some m else None.
Proof.
  unfold array_length, number.
  replace (0 <=? Z.of_nat m)%Z with true by (symmetry; apply Z.leb_le; lia).
  cbn [andb]. rewrite Nat2Z.id. reflexivity.
Qed.

Lemma V2_set_length {E : Engine} (p : list segment) (l : list value)
      (m : nat) (es : list Event) :
  V2.set p "length" (number m) {| target := VArr l; emitted := es |}
  = if (Z.of_nat m <? 4294967296)%Z
    then (Completes true,
          {| target := VArr (resize m l);
             emitted := es ++ [mkEvent CHANGE (p ++ [Key "length"])
                                       (number (List.length l))
                                       (number m)] |})
    else (Abrupt Range_error, {| target := VArr l; emitted := es |}).
Proof.
  unfold V2.set, trap. cbn [target emitted].
  rewrite V2_write_plain by reflexivity.
  cbn [OrdinarySet String.eqb Ascii.eqb Bool.eqb].
  rewrite (array_length_number m).
  destruct (Z.of_nat m <? 4294967296)%Z; [reflexivity|].
  rewrite app_nil_r. reflexivity.
Qed.

Lemma V3_set_length {E : Engine} (p : list segment) (l : list value)
      (m : nat) (es : list Event) :
  V3.set p "length" (number m) {| target := VArr l; emitted := es |}
  = if (Z.of_nat m <? 4294967296)%Z
    then (Completes true,
          {| target := VArr (resize m l);
             emitted := es ++ [mkEvent CHANGE (p ++ [Key "length"])
                                       (number (List.length l))
                                       (number m)] |})
    else (Abrupt Range_error, {| target := VArr l; emitted := es |}).
Proof.
  unfold V3.set, trap. cbn [target emitted].
  rewrite V3_write_V2, V2_write_plain by reflexivity.
  cbn [OrdinarySet String.eqb Ascii.eqb Bool.eqb].
  rewrite (array_length_number m).
  destruct (Z.of_nat m <? 4294967296)%Z; [reflexivity|].
  cbn [is_function]. rewrite app_nil_r. reflexivity.
Qed.

Lemma get_length (p : list segment) (l : list value) (es : list Event) :
  get p "length" {| target := VArr l; emitted := es |}
  = (Completes (number (List.length l)),
     {| target := VArr l; emitted := es |}).
Proof. reflexivity. Qed.

Lemma ToLength_number (n : nat) : ToLength (number n) = n.
Proof. apply Nat2Z.id. Qed.

(** X15.  [items.push(...)] on an observed array does not emit the [ADD] of
    the [push] handler: the built-in writes each item through the [set]
    trap and then writes [length].  The call leaves the items appended
    and emits one [ASSIGN] per item, at the index it went to (none for a
    function in the third generation); then, when the new length is one
    that an array can have, it emits one [CHANGE] at [length] whose old
    and new value are both the new length, the index writes having grown
    the array already, and returns the new length; otherwise the write
    to [length] throws a [RangeError] and emits nothing. *)
Theorem push_call_emits_an_ASSIGN_per_item :
  forall (E : Engine) (p : list segment) (items target : list value),
    let len := List.length target + List.length items in
    let fits := (Z.of_nat len <? 4294967296)%Z in
    let length_written :=
      if fits
      then [mkEvent CHANGE (p ++ [Key "length"]) (number len) (number len)]
      else [] in
    let result :=
      if fits then Completes (number len) else Abrupt Range_error in
    run (on_proxy V3.set p (Array_prototype_push items)) (VArr target)
    = (result, VArr (target ++ items),
       assigned is_function p (List.length target) items ++ length_written)
    /\ run (on_proxy V2.set p (Array_prototype_push items)) (VArr target)
       = (result, VArr (target ++ items),
          assigned never p (List.length target) items ++ length_written).
Proof.
  intros E p items t len fits length_written result.
  subst length_written result fits len.
  unfold run, Array_prototype_push. cbn [on_proxy]. split.
  - unfold attempt at 1, bind at 1. rewrite get_length, ToLength_number.
    rewrite (write_items_run V3.set is_function p (V3_set_index p)).
    cbn [on_proxy]. unfold attempt at 1, bind at 1.
    rewrite V3_set_length.
    destruct (Z.of_nat _ <? 4294967296)%Z;
      cbn [on_proxy ret target emitted].
    + rewrite <- !length_app, resize_all. reflexivity.
    + rewrite app_nil_r. reflexivity.
  - unfold attempt at 1, bind at 1. rewrite get_length, ToLength_number.
    rewrite (write_items_run V2.set never p (V2_set_index p)).
    cbn [on_proxy]. unfold attempt at 1, bind at 1.
    rewrite V2_set_length.
    destruct (Z.of_nat _ <? 4294967296)%Z;
      cbn [on_proxy ret target emitted].
    + rewrite <- !length_app, resize_all. reflexivity.
    + rewrite app_nil_r. reflexivity.
Qed.

(** A [push] of a text and of a function onto an observed array of one
    element, third generation. *)
Example push_call_of_two_items :
  run (on_proxy (V3.set (E := Examples.decimal)) [Key "items"]
                (Array_prototype_push [VStr "x"; VFun "() => 1"]))
      (VArr [VStr "a"])
  = (Completes (VNum 3), VArr [VStr "a"; VStr "x"; VFun "() => 1"],
     [mkEvent ASSIGN [Key "items"; Key "1"] VUndefined (VStr "x");
      mkEvent CHANGE [Key "items"; Key "length"] (VNum 3) (VNum 3)]).
Proof. reflexivity. Qed.

(** X16.  [items.pop()] on an observed array that is not empty does not emit
    the [REMOVE] of the [pop] handler either: the built-in reads the last
    element through the [get] trap, deletes the last index through the
    [deleteProperty] trap and writes [length] through [set].  The call
    emits a [REMOVE] at the last index, as a property key, carrying the
    element as it was stored; then, the new length being one that an
    array can have, it emits a [CHANGE] at [length] from the old length
    to the new one, leaves the array without the element and returns the
    element, wrapped in an observer when it is an object (otherwise the
    write to [length] throws a [RangeError]).  The two generations
    agree. *)
Theorem pop_call_emits_REMOVE_then_CHANGE :
  forall (E : Engine) (p : list segment) (front : list value)
         (last : value),
    let n := List.length front in
    let index := string_of_nat n in
    let fits := (Z.of_nat n <? 4294967296)%Z in
    let outcome :=
      if fits
      then (Completes (observe last (p ++ [Key index])), VArr front,
            [mkEvent REMOVE (p ++ [Key index]) last VUndefined;
             mkEvent CHANGE (p ++ [Key "length"]) (number (S n)) (number n)])
      else (Abrupt Range_error, VArr (front ++ [VUndefined]),
            [mkEvent REMOVE (p ++ [Key index]) last VUndefined]) in
    run (on_proxy V3.set p Array_prototype_pop) (VArr (front ++ [last]))
    = outcome
    /\ run (on_proxy V2.set p Array_prototype_pop) (VArr (front ++ [last]))
       = outcome.
Proof.
  intros E p front last n index fits outcome.
  subst outcome fits index n.
  assert (Hlen : List.length (front ++ [last]) = S (List.length front))
    by (rewrite length_app; cbn; lia).
  assert (Hget : Reflect_get (VArr (front ++ [last]))
                             (string_of_nat (List.length front)) = last).
  { unfold Reflect_get. cbn [read own].
    rewrite string_of_nat_not_length, array_index_string_of_nat.
    rewrite nth_error_app2, Nat.sub_diag by lia. reflexivity. }
  assert (Hdel : OrdinaryDelete (VArr (front ++ [last]))
                   (string_of_nat (List.length front))
                 = Completes (true, VArr (front ++ [VUndefined]))).
  { unfold OrdinaryDelete.
    rewrite string_of_nat_not_length, array_index_string_of_nat, Hlen.
    replace (List.length front <? S (List.length front))%nat with true
      by (symmetry; apply Nat.ltb_lt; lia).
    rewrite store_at_last. reflexivity. }
  assert (Hread : forall es,
             get p (string_of_nat (List.length front))
                 {| target := VArr (front ++ [last]); emitted := es |}
             = (Completes (observe last
                             (p ++ [Key (string_of_nat (List.length front))])),
                {| target := VArr (front ++ [last]); emitted := es |})).
  { intros es. unfold get, bind, this, ret. cbn [target emitted].
    rewrite Hget. unfold observe. destruct (is_object last); reflexivity. }
  assert (Hdelete : forall es,
             deleteProperty p (string_of_nat (List.length front))
                 {| target := VArr (front ++ [last]); emitted := es |}
             = (Completes true,
                {| target := VArr (front ++ [VUndefined]);
                   emitted :=
                     es ++ [mkEvent REMOVE
                              (p ++ [Key (string_of_nat (List.length front))])
                              last VUndefined] |})).
  { intros es. unfold deleteProperty, trap. cbn [target emitted delete].
    rewrite Hget, Hdel. reflexivity. }
  unfold run, Array_prototype_pop. cbn [on_proxy]. split.
  - unfold attempt at 1, bind at 1. rewrite get_length, ToLength_number, Hlen.
    cbn [on_proxy]. unfold attempt at 1, bind at 1. rewrite Hread.
    unfold attempt at 1, bind at 1. rewrite Hdelete.
    unfold attempt at 1, bind at 1. rewrite V3_set_length.
    destruct (Z.of_nat _ <? 4294967296)%Z;
      cbn [on_proxy ret target emitted]; [|reflexivity].
    rewrite resize_less, length_app. cbn [List.length app].
    replace (List.length front + 1) with (S (List.length front)) by lia.
    reflexivity.
  - unfold attempt at 1, bind at 1. rewrite get_length, ToLength_number, Hlen.
    cbn [on_proxy]. unfold attempt at 1, bind at 1. rewrite Hread.
    unfold attempt at 1, bind at 1. rewrite Hdelete.
    unfold attempt at 1, bind at 1. rewrite V2_set_length.
    destruct (Z.of_nat _ <? 4294967296)%Z;
      cbn [on_proxy ret target emitted]; [|reflexivity].
    rewrite resize_less, length_app. cbn [List.length app].
    replace (List.length front + 1) with (S (List.length front)) by lia.
    reflexivity.
Qed.

(** A [pop] from an observed array whose last element is an object. *)
Example pop_call_of_an_object :
  run (on_proxy (V3.set (E := Examples.decimal)) [Key "items"]
                Array_prototype_pop)
      (VArr [VStr "a"; VObj [("n", VNum 1)]])
  = (Completes (VProxy (VObj [("n", VNum 1)]) [Key "items"; Key "1"]),
     VArr [VStr "a"],
     [mkEvent REMOVE [Key "items"; Key "1"] (VObj [("n", VNum 1)]) VUndefined;
      mkEvent CHANGE [Key "items"; Key "length"] (VNum 2) (VNum 1)]).
Proof. reflexivity. Qed.

End CallFacts.

(** ** [defineElement] *)
Module ElementFacts.
Import Elements.

Lemma existsb_eqb (tag : string) (l : list string) :
  existsb (String.eqb tag) l = true <-> In tag l.
Proof.
  rewrite existsb_exists. split.
  - intros (x & Hin & Heq). apply String.eqb_eq in Heq. subst x. exact Hin.
  - intros Hin. exists tag. split; [exact Hin | apply String.eqb_refl].
Qed.

Lemma inherited_names_have_no_hyphen (tag : string) :
  In tag Object_prototype -> includes "-" tag = false.
Proof.
  unfold Object_prototype. cbn [In].
  intros H; repeat (destruct H as [<-|H]; [reflexivity|]); destruct H.
Qed.

Section Define.
Variable valid : string -> bool.

Lemma hyphenated_not_inherited (tag : string) (p : page) :
  includes "-" tag = true ->
  in_tags tag p = existsb (String.eqb tag) (tags p).
Proof.
  intros Hh. unfold in_tags.
  destruct (existsb (String.eqb tag) Object_prototype) eqn:Hin;
    [|apply orb_false_r].
  apply existsb_eqb, inherited_names_have_no_hyphen in Hin. congruence.
Qed.

Lemma define_consistent (tag : string) (p : page) :
  consistent valid p -> consistent valid (snd (define valid tag p)).
Proof.
  intros [Hdt Htd]. unfold define, customElements_define.
  cbn [tags defined].
  set (tags' := if existsb (String.eqb tag) (tags p)
                then tags p else tags p ++ [tag]).
  assert (Hsub : forall t, In t (tags p) -> In t tags').
  { intros t Hin. subst tags'. destruct (existsb _ _); [exact Hin|].
    apply in_or_app. left. exact Hin. }
  assert (Htag : In tag tags').
  { subst tags'. destruct (existsb _ _) eqn:He.
    - apply existsb_eqb, He.
    - apply in_or_app. right. left. reflexivity. }
  assert (Hnew : forall t, In t tags' -> In t (tags p) \/ t = tag).
  { intros t Hin. subst tags'. destruct (existsb _ _); [left; exact Hin|].
    apply in_app_or in Hin as [Hin|[<-|[]]]; [left; exact Hin | right].
    reflexivity. }
  destruct (valid tag) eqn:Hv; cbn [andb];
    [destruct (existsb (String.eqb tag) (defined p)) eqn:Hd; cbn [negb]|];
    cbn [snd tags defined]; split.
  - intros t Hin. apply Hsub, Hdt, Hin.
  - intros t Hin Hvt. apply Hnew in Hin as [Hin| ->].
    + apply Htd; assumption.
    + apply existsb_eqb, Hd.
  - intros t Hin. apply in_app_or in Hin as [Hin|[<-|[]]].
    + apply Hsub, Hdt, Hin.
    + exact Htag.
  - intros t Hin Hvt. apply in_or_app. apply Hnew in Hin as [Hin| ->].
    + left. apply Htd; assumption.
    + right. left. reflexivity.
  - intros t Hin. apply Hsub, Hdt, Hin.
  - intros t Hin Hvt. apply Hnew in Hin as [Hin| ->].
    + apply Htd; assumption.
    + congruence.
Qed.
End Define.

(** X17.  A valid name is defined by one call and stays defined: on a page
    where the keys of [WebComponent.tags] and the defined elements agree
    (as they do at the start, and after every call), [defineElement] on a
    valid custom element name returns [true] without throwing, the name
    is defined afterwards, the page stays such a page, and a call for a
    name that is defined already changes nothing.  The page stays such a
    page after a call for any name, valid or not. *)
Theorem valid_names_are_defined_once :
  forall (valid : string -> bool) (p : page) (tag : string),
    consistent valid p ->
    consistent valid (snd (defineElement valid tag p))
    /\ (valid tag = true -> tag <> "" -> includes "-" tag = true ->
        fst (defineElement valid tag p) = Returned true
        /\ In tag (defined (snd (defineElement valid tag p)))
        /\ (In tag (defined p) -> snd (defineElement valid tag p) = p)).
Proof.
  intros valid p tag Hp. split.
  - unfold defineElement.
    destruct ((tag =? "") || negb (includes "-" tag)); [exact Hp|].
    destruct (in_tags tag p); [exact Hp|].
    apply define_consistent, Hp.
  - intros Hv Hne Hh. unfold defineElement.
    apply String.eqb_neq in Hne. rewrite Hne, Hh. cbn [orb negb].
    rewrite (hyphenated_not_inherited tag p Hh).
    destruct Hp as [Hdt Htd].
    destruct (existsb (String.eqb tag) (tags p)) eqn:Hin.
    + cbn [fst snd]. apply existsb_eqb in Hin.
      repeat apply conj; [reflexivity | apply Htd; assumption | reflexivity].
    + unfold define, customElements_define. cbn [tags defined].
      rewrite Hin, Hv. cbn [andb].
      assert (Hnot : existsb (String.eqb tag) (defined p) = false).
      { destruct (existsb (String.eqb tag) (defined p)) eqn:Hd;
          [|reflexivity].
        apply existsb_eqb, Hdt, existsb_eqb in Hd. congruence. }
      rewrite Hnot. cbn [negb fst snd defined].
      repeat apply conj.
      * reflexivity.
      * apply in_or_app. right. left. reflexivity.
      * intros Hd. apply existsb_eqb in Hd. congruence.
Qed.

Lemma valid_names_are_defined_once_witness :
  fst (defineElement (includes "-") "my-card" (mkPage [] []))
  = Returned true
  /\ In "my-card"
        (defined (snd (defineElement (includes "-") "my-card"
                         (mkPage [] [])))).
Proof.
  destruct (proj2 (valid_names_are_defined_once (includes "-")
                     (mkPage [] []) "my-card"
                     (conj (fun t H => H) (fun t H _ => H)))
                  eq_refl ltac:(discriminate) eq_refl) as (Hr & Hd & _).
  split; [exact Hr | exact Hd].
Defined.

(** X18.  A definition that failed is taken for done: the key is put into
    [WebComponent.tags] while the arguments of [customElements.define]
    are evaluated, so when [define] throws (the name is not valid, or
    somebody else defined it), nothing has been defined by the call, the
    key stays, and the next [defineElement] for that name returns [true]
    and does nothing. *)
Theorem failed_definition_is_taken_for_done :
  forall (valid : string -> bool) (p : page) (tag : string),
    fst (defineElement valid tag p) = Thrown ->
    let p' := snd (defineElement valid tag p) in
    defined p' = defined p
    /\ defineElement valid tag p' = (Returned true, p').
Proof.
  intros valid p tag. unfold defineElement.
  destruct ((tag =? "") || negb (includes "-" tag)) eqn:Hfirst;
    [discriminate|].
  destruct (in_tags tag p) eqn:Hin; [discriminate|].
  unfold define. cbn [tags defined].
  destruct (customElements_define valid tag _) as [p1|]; [discriminate|].
  intros _. cbn [snd]. split; [reflexivity|].
  replace (in_tags tag _) with true; [reflexivity|].
  symmetry. unfold in_tags. cbn [tags]. apply orb_true_iff. left.
  apply existsb_eqb.
  destruct (existsb (String.eqb tag) (tags p)) eqn:He.
  - apply existsb_eqb, He.
  - apply in_or_app. right. left. reflexivity.
Qed.

Lemma failed_definition_is_taken_for_done_witness :
  defineElement (fun _ => false) "My-Card"
    (snd (defineElement (fun _ => false) "My-Card" (mkPage [] [])))
  = (Returned true, mkPage ["My-Card"] []).
Proof.
  apply (proj2 (failed_definition_is_taken_for_done (fun _ => false)
                  (mkPage [] []) "My-Card" eq_refl)).
Defined.

(** X19.  The order of the two tests matters for a name without a hyphen that
    is a property every object inherits, such as [toString]: the second
    document of [src/web-component.js] tests [tag in WebComponent.tags]
    first and returns [true] for it, the other generations test for the
    hyphen first and return [false]; neither defines anything. *)
Theorem inherited_names_pass_for_defined :
  forall (valid : string -> bool) (p : page) (tag : string),
    In tag Object_prototype ->
    defineElement_V2 valid tag p = (Returned true, p)
    /\ defineElement valid tag p = (Returned false, p).
Proof.
  intros valid p tag Hin. unfold defineElement_V2, defineElement, in_tags.
  rewrite (inherited_names_have_no_hyphen tag Hin).
  rewrite (proj2 (existsb_eqb tag Object_prototype) Hin).
  rewrite orb_true_r. cbn [negb]. rewrite orb_true_r. split; reflexivity.
Qed.

Lemma inherited_names_pass_for_defined_witness :
  defineElement_V2 (includes "-") "toString" (mkPage [] [])
  = (Returned true, mkPage [] []).
Proof.
  apply (proj1 (inherited_names_pass_for_defined (includes "-")
                  (mkPage [] []) "toString"
                  ltac:(cbn; intuition))).
Defined.

End ElementFacts.

(** ** [CodeLoader.#resolve] *)
Module LoaderFacts.
Import Loader Elements.

Lemma lower_hyphen (c : ascii) : (lower c =? "-")%char = (c =? "-")%char.
Proof. destruct c as [[] [] [] [] [] [] [] []]; reflexivity. Qed.

Lemma split_not_empty (sep : ascii) (s : string) :
  forall current, split_from sep current s <> [].
Proof.
  induction s as [|c rest IH]; intros current; cbn [split_from].
  - discriminate.
  - destruct (c =? sep)%char; [discriminate | apply IH].
Qed.

Lemma join_split (s : string) :
  forall current : string,
    String.concat "/" (split_from "-" current (toLowerCase s))
    = (current ++ as_path s)%string.
Proof.
  induction s as [|c rest IH]; intros current;
    cbn [toLowerCase split_from as_path].
  - cbn. symmetry. apply RegexFacts.append_empty_r.
  - rewrite lower_hyphen. destruct (c =? "-")%char.
    + cbn [String.concat].
      destruct (split_from "-" "" (toLowerCase rest)) eqn:Hs;
        [destruct (split_not_empty _ _ _ Hs)|].
      rewrite <- Hs, IH. reflexivity.
    + rewrite IH. apply (RegexFacts.snoc_append current (as_path rest)).
Qed.

Lemma as_path_no_hyphen (s suffix : string) :
  includes "-" suffix = false ->
  includes "-" (as_path s ++ suffix) = false.
Proof.
  intros Hs. induction s as [|c rest IH]; cbn [as_path String.append includes].
  - exact Hs.
  - rewrite IH, orb_false_r.
    destruct (Ascii.eqb_spec c "-") as [->|Hne]; [reflexivity|].
    rewrite lower_hyphen. apply Ascii.eqb_neq, Hne.
Qed.

(** X20.  The file of a tag: for a tag of ASCII text, [#resolve] gives the
    tag, character by character, with every hyphen turned into a slash
    and every upper-case letter into its lower-case letter, followed by
    [.html]; the result has no hyphen left, and one character more than
    the tag for every character of the suffix. *)
Theorem resolve_maps_hyphens_to_slashes :
  forall tag : string,
    is_ascii tag = true ->
    resolve tag = (as_path tag ++ ".html")%string
    /\ includes "-" (resolve tag) = false
    /\ String.length (resolve tag) = String.length tag + 5.
Proof.
  intros tag _.
  assert (H : resolve tag = (as_path tag ++ ".html")%string).
  { unfold resolve, split. rewrite join_split. reflexivity. }
  rewrite H. repeat apply conj.
  - reflexivity.
  - apply as_path_no_hyphen. reflexivity.
  - rewrite RegexFacts.length_append. f_equal. clear H.
    induction tag as [|c rest IH]; cbn [as_path String.length];
      [|rewrite IH]; reflexivity.
Qed.

Lemma resolve_maps_hyphens_to_slashes_witness :
  resolve "App-User-Card" = "app/user/card.html".
Proof.
  exact (proj1 (resolve_maps_hyphens_to_slashes "App-User-Card" eq_refl)).
Defined.

End LoaderFacts.

(** ** The keys of the instances *)
Module InstanceFacts.
Import Instances Elements.

Lemma digits_no_hyphen (d : Decimal.uint) :
  includes "-" (NilEmpty.string_of_uint d) = false.
Proof. induction d; cbn; auto. Qed.

Lemma string_of_nat_no_hyphen (n : nat) :
  includes "-" (string_of_nat n) = false.
Proof.
  unfold string_of_nat, NilZero.string_of_uint.
  destruct (Nat.to_uint n) eqn:Hd; try reflexivity;
    rewrite <- ?Hd; try apply digits_no_hyphen;
    match goal with
    | |- includes _ (NilEmpty.string_of_uint ?d) = _ =>
        apply (digits_no_hyphen d)
    end.
Qed.

Lemma string_of_nat_inj (n m : nat) :
  string_of_nat n = string_of_nat m -> n = m.
Proof.
  intros H. pose proof (CallFacts.array_index_string_of_nat n) as Hn.
  rewrite H, CallFacts.array_index_string_of_nat in Hn. congruence.
Qed.

Lemma hyphen_in_suffix (a d : string) :
  includes "-" (a ++ String "-" d) = true.
Proof.
  induction a as [|c a IH]; cbn [String.append includes].
  - reflexivity.
  - rewrite IH. apply orb_true_r.
Qed.

Lemma last_hyphen (a : string) :
  forall b d1 d2 : string,
    includes "-" d1 = false -> includes "-" d2 = false ->
    (a ++ String "-" d1)%string = (b ++ String "-" d2)%string ->
    a = b /\ d1 = d2.
Proof.
  induction a as [|c a IH]; intros b d1 d2 H1 H2 Heq.
  - destruct b as [|c' b]; cbn [String.append] in Heq.
    + injection Heq as Heq. split; [reflexivity | exact Heq].
    + injection Heq as _ Heq. rewrite Heq, hyphen_in_suffix in H1.
      discriminate H1.
  - destruct b as [|c' b]; cbn [String.append] in Heq.
    + injection Heq as _ Heq. rewrite <- Heq, hyphen_in_suffix in H2.
      discriminate H2.
    + injection Heq as -> Heq.
      destruct (IH b d1 d2 H1 H2 Heq) as [-> ->]. split; reflexivity.
Qed.

Lemma key_of_inj (a b : string) (n m : nat) :
  key_of a n = key_of b m -> a = b /\ n = m.
Proof.
  unfold key_of. intros H.
  destruct (last_hyphen a b _ _ (string_of_nat_no_hyphen n)
              (string_of_nat_no_hyphen m) H) as [-> Hd].
  split; [reflexivity | apply string_of_nat_inj, Hd].
Qed.

Lemma id_of_set_id (name other : string) (i : nat)
      (l : list (string * nat)) :
  id_of other (set_id name i l)
  = if name =? other then i else id_of other l.
Proof.
  induction l as [|[n j] rest IH]; cbn [set_id id_of].
  - reflexivity.
  - destruct (String.eqb_spec n name) as [->|Hn]; cbn [id_of].
    + destruct (String.eqb_spec name other); reflexivity.
    + destruct (String.eqb_spec n other) as [->|_]; [|exact IH].
      destruct (String.eqb_spec name other) as [->|_];
        [contradiction | reflexivity].
Qed.

(** Every key given from [r] on carries a count above the one [r] has
    for its name, and no key is given twice. *)
Lemma construct_all_fresh (localNames : list string) :
  forall r : statics,
    NoDup (construct_all localNames r)
    /\ forall key, In key (construct_all localNames r) ->
         exists name i, key = key_of name i /\ id_of name (ids r) < i.
Proof.
  induction localNames as [|n rest IH]; intros r; cbn [construct_all].
  - split; [constructor | intros key []].
  - unfold construct. cbn [ids].
    set (i := match id_of n (ids r) with O => 1 | S k => S (S k) end).
    assert (Hi : id_of n (ids r) < i) by (subst i; destruct (id_of n (ids r)); lia).
    match goal with
    | |- context [construct_all rest ?r1] => destruct (IH r1) as [Hnd Hfresh]
    end.
    cbn [ids] in Hfresh. split.
    + constructor; [|exact Hnd].
      intros Hin. destruct (Hfresh _ Hin) as (name & j & Hkey & Hj).
      apply key_of_inj in Hkey as [<- <-].
      rewrite id_of_set_id, String.eqb_refl in Hj. lia.
    + intros key [<-|Hin].
      * exists n, i. split; [reflexivity | exact Hi].
      * destruct (Hfresh _ Hin) as (name & j & Hkey & Hj).
        exists name, j. split; [exact Hkey|].
        rewrite id_of_set_id in Hj.
        destruct (String.eqb_spec n name) as [<-|_]; lia.
Qed.

(** X21.  No key is given to two instances: whatever elements are constructed
    one after the other, and whatever the counts were before, the keys
    [localName-count] they get are pairwise different, also when a name
    ends in a hyphen and digits itself, so no entry of
    [WebComponent.instances] made by one of them is overwritten by
    another. *)
Theorem instance_keys_are_never_reused :
  forall (localNames : list string) (r : statics),
    NoDup (construct_all localNames r).
Proof.
  intros localNames r. apply (construct_all_fresh localNames r).
Qed.

End InstanceFacts.


(** ** [#getState] of the first generation *)
Module FirstGenerationFacts.
Import V3State Templates FillStateFacts.

Lemma member_not_nullish (o : value) (k : string) :
  nullish o = false -> member o k = Some (read o k).
Proof. destruct o; cbn; congruence. Qed.





(** X23.  First generation.  A segment that is not the last and is missing,
    or falsy, both where the lookup stands and at the root, neither of
    which is a function and neither of which inherits it, sends
    [#getState] into the same call again, with the same arguments: the
    call does not return, however deep the calls may nest. *)
Theorem first_generation_lookup_of_a_missing_scope_never_returns :
  forall (root cur : value) (key next : string) (rest way : list string)
         (depth : nat),
    nullish root = false -> nullish cur = false ->
    is_function root = false -> is_function cur = false ->
    key <> "" -> prefix "[" key = false ->
    truthy (read cur key) = false ->
    truthy (read root key) = false ->
    V1.getState depth root (key :: next :: rest) cur way = Unfinished.
Proof.
  intros root cur key next rest way depth Hroot Hcur _ _ Hkey Hbracket Hc
         Hr.
  apply String.eqb_neq in Hkey. revert cur Hcur Hc.
  induction depth as [|depth IH]; intros cur Hcur Hc; [reflexivity|].
  cbn [V1.getState].
  rewrite Hkey, (member_not_nullish _ key Hcur), Hc, Hbracket.
  apply IH; assumption.
Qed.

Lemma first_generation_lookup_of_a_missing_scope_never_returns_witness :
  V1.getState 1000 (VObj [("title", VStr "Root")]) ["user"; "name"]
              (VObj [("title", VStr "Root")]) []
  = Unfinished.
Proof.
  apply (first_generation_lookup_of_a_missing_scope_never_returns
           (VObj [("title", VStr "Root")]) (VObj [("title", VStr "Root")])
           "user" "name" [] [] 1000);
    try reflexivity; discriminate.
Defined.

End FirstGenerationFacts.


(** ** [#getByPath] *)
Module GetByPathFacts.
Import Templates GetStateFacts.

Lemma firstn_snoc_lt (l : list string) (k : string) (i : nat) :
  i <= List.length l -> firstn i (l ++ [k]) = firstn i l.
Proof.
  intros Hi. rewrite firstn_app.
  replace (i - List.length l) with 0 by lia. cbn [firstn]. apply app_nil_r.
Qed.

(** X24.  [#getByPath] throws exactly when a segment before the last one
    resolves to [undefined] or [null] (or the state itself is one of
    them and the path is not empty): a key that is missing at the end of
    the path gives [undefined], a key that is missing before the end
    makes the lookup, and with it the binding that asked for it, throw. *)
Theorem getByPath_throws_on_a_missing_scope :
  forall (state : value) (path : list string),
    V2.getByPath state path = None
    <-> exists (i : nat) (v : value),
          i < List.length path
          /\ V2.getByPath state (firstn i path) = Some v
          /\ nullish v = true.
Proof.
  intros state path. unfold V2.getByPath.
  induction path as [|k path IH] using rev_ind.
  - split; [discriminate | intros (i & v & Hi & _); cbn in Hi; lia].
  - rewrite reduce_path_snoc, length_app. cbn [List.length]. split.
    + destruct (reduce_path state path) as [w|] eqn:Hw.
      * intros Hk. exists (List.length path), w.
        rewrite firstn_snoc_lt, firstn_all by lia.
        repeat apply conj; [lia | exact Hw |].
        destruct w; try discriminate Hk; reflexivity.
      * intros _. destruct (proj1 IH eq_refl) as (i & v & Hi & Hv & Hn).
        exists i, v. rewrite firstn_snoc_lt by lia.
        repeat apply conj; [lia | exact Hv | exact Hn].
    + intros (i & v & Hi & Hv & Hn).
      destruct (Nat.eq_dec i (List.length path)) as [->|Hne].
      * rewrite firstn_snoc_lt, firstn_all in Hv by lia. rewrite Hv.
        destruct v; try discriminate Hn; reflexivity.
      * rewrite firstn_snoc_lt in Hv by lia.
        rewrite (proj2 IH); [reflexivity|].
        exists i, v. repeat apply conj; [lia | exact Hv | exact Hn].
Qed.

End GetByPathFacts.

(** ** References between components *)
Module PropsFacts.
Import Props Loader Elements RegexFacts.

Lemma split_from_plain (sep : ascii) (s : string) :
  forall current : string,
    includes sep s = false ->
    split_from sep current s = [(current ++ s)%string].
Proof.
  induction s as [|c rest IH]; intros current Hs; cbn [split_from].
  - rewrite append_empty_r. reflexivity.
  - cbn [includes] in Hs. apply orb_false_elim in Hs as [Hc Hs].
    rewrite Hc, IH by exact Hs. rewrite FillStateFacts.append_assoc.
    reflexivity.
Qed.

Lemma split_from_piece (sep : ascii) (s rest : string) :
  forall current : string,
    includes sep s = false ->
    split_from sep current (s ++ String sep rest)
    = (current ++ s)%string :: split_from sep "" rest.
Proof.
  induction s as [|c s IH]; intros current Hs;
    cbn [String.append split_from].
  - rewrite Ascii.eqb_refl, append_empty_r. reflexivity.
  - cbn [includes] in Hs. apply orb_false_elim in Hs as [Hc Hs].
    rewrite Hc, IH by exact Hs. rewrite FillStateFacts.append_assoc.
    reflexivity.
Qed.

Lemma split_concat (path : list string) :
  path <> [] ->
  Forall (fun s => includes "," s = false) path ->
  split "," (String.concat "," path) = path.
Proof.
  unfold split. induction path as [|s rest IH]; intros Hne Hall;
    [contradiction|].
  apply Forall_cons_iff in Hall as [Hs Hrest].
  destruct rest as [|s' rest].
  - cbn [String.concat]. apply (split_from_plain "," s "" Hs).
  - change (String.concat "," (s :: s' :: rest))
      with (s ++ String "," (String.concat "," (s' :: rest)))%string.
    rewrite (split_from_piece "," s _ "" Hs), IH;
      [reflexivity | discriminate | exact Hrest].
Qed.

(** X25.  A reference survives the attribute: when neither the key of the
    component nor a segment of the path holds a comma, [#loadProps]
    reads back from the attribute the key and the path that
    [#bindAttributes] wrote into it (the path with no segment comes
    back as the path of one empty segment, which [#getState] takes for
    the root as well). *)
Theorem reference_is_read_back :
  forall (key : string) (path : list string),
    includes "," key = false ->
    Forall (fun s => includes "," s = false) path ->
    loadProp (reference key path)
    = (key, match path with [] => [""] | _ => path end).
Proof.
  intros key path Hkey Hpath. unfold loadProp, reference, split.
  change (key ++ "," ++ String.concat "," path)%string
    with (key ++ String "," (String.concat "," path))%string.
  rewrite (split_from_piece "," key _ "" Hkey). cbn [String.append].
  destruct path as [|s rest]; [reflexivity|].
  f_equal. apply split_concat; [discriminate | exact Hpath].
Qed.

Lemma reference_is_read_back_witness :
  loadProp (reference "user-card-2" ["users"; "0"; "name"])
  = ("user-card-2", ["users"; "0"; "name"]).
Proof.
  apply (reference_is_read_back "user-card-2" ["users"; "0"; "name"]).
  - reflexivity.
  - repeat constructor.
Defined.

End PropsFacts.


(** ** A variable in a text and in an attribute *)
Module ScopeFacts.
Import DOM Regex RegexFacts FillStateFacts TemplateFacts GetStateFacts
       AttributeBindingFacts.





(** X30.  Third generation.  A text with a placeholder cannot be bound in
    a scope of two or more segments whose first segment the root, which
    is not a function, neither has nor inherits: [#fillState] throws a
    [TypeError], in its first loop
    when the scope has three segments or more, in the replace callback
    when it has two, and so [#bindTextNode] throws. *)
Theorem text_in_a_missing_outer_scope_throws :
  forall (state : value) (text a b : string) (rest : list string)
         (reg : Scheduler.registry V3State.text_consumer),
    V3.Template.match_ text <> None ->
    Templates.nullish state = false ->
    is_function state = false ->
    read state a = VUndefined ->
    V3State.bindTextNode state text (a :: b :: rest) reg = None.
Proof.
  intros state text a b rest reg Hm Hstate _ Ha.
  unfold V3State.bindTextNode.
  destruct (V3.Template.match_ text) as [vars|] eqn:Hvars; [|contradiction].
  assert (Hkeys : keys (V3.Template.curlyBraces text) <> []).
  { intros Hnil. unfold V3.Template.match_ in Hvars.
    rewrite Hnil in Hvars. discriminate Hvars. }
  assert (Hmember : member state a = Some VUndefined).
  { rewrite (FirstGenerationFacts.member_not_nullish _ a Hstate), Ha.
    reflexivity. }
  enough (Hfill : V3.fillState state text (a :: b :: rest) vars = None)
    by (rewrite Hfill; reflexivity).
  unfold V3.fillState.
  destruct vars as [|var vars].
  { unfold V3.Template.match_ in Hvars.
    destruct (map _ _); discriminate Hvars. }
  cbn [List.length V3.walk nth_error]. rewrite Hmember. cbn [truthy].
  destruct rest as [|c rest].
  - cbn [removelast]. rewrite reduce_path_cons, Hmember.
    cbn [reduce_path fold_left V3.walk nth_error].
    apply replace_throws.
    destruct (keys (V3.Template.curlyBraces text)) as [|k ks] eqn:Hk;
      [contradiction|].
    exists k. split; [left; reflexivity|].
    unfold V3.substitute. cbn [List.length V3.climb Nat.eqb firstn].
    rewrite reduce_path_cons, Hmember. reflexivity.
  - change (removelast (a :: b :: c :: rest))
      with (a :: b :: removelast (c :: rest)).
    rewrite reduce_path_cons, Hmember, reduce_path_cons. reflexivity.
Qed.

Lemma text_in_a_missing_outer_scope_throws_witness :
  V3State.bindTextNode (VObj [("title", VStr "Root")]) "<${title}>"
                       ["user"; "address"] []
  = None.
Proof.
  apply (text_in_a_missing_outer_scope_throws
           (VObj [("title", VStr "Root")]) "<${title}>" "user" "address"
           [] []).
  - discriminate.
  - reflexivity.
  - reflexivity.
  - reflexivity.
Defined.

End ScopeFacts.

